(** * Ultrasonic attendance: pattern utilities, audio engine and batch handshake

    A shallow embedding of the TypeScript sources

    - [src/utils/patternUtils.ts]  ([generatePattern], [comparePatterns],
                                    [classifyFrequency], [getSecurityStats]),
    - [src/audio/audioEngine.ts]   ([UltrasonicEmitter.emit],
                                    [UltrasonicListener]),
    - [src/views/TeacherView.tsx]  ([getConfigKey], [processQueue],
                                    [processBatch], [verifyStudent]),
    - [src/utils/logger.ts]        ([Logger]),
    - [src/services/firebase.ts]   (the passcode of [createSession]),
    - [src/components/AutoTestPanel.tsx]  ([runLocalTest],
                                    [calculateSummary], [toggleVolume]),

    followed by the properties proved about them.

    Conventions of the embedding.

    - A JavaScript [number] that counts or indexes (array lengths, loop
      counters) is a [nat]; every other [number] (frequencies, amplitudes in
      dB, times in ms or s) is a rational [Q].  Finite doubles are
      rationals, and the order comparisons the code performs on them agree
      with the comparisons on [Q].  Where a result of the code depends on the
      rounding of double arithmetic (the update of the noise floor, the
      passcode) every operation is rounded to the nearest double by
      [binary64], written out at the operation; [binary64] is compared with
      the floats of the kernel in [KernelFloats].  Elsewhere arithmetic is
      exact, and overflow to an infinity is not represented.
    - [Array.prototype.sort] is specified to be stable; for a comparator that
      is consistent the result is the unique stable arrangement, embedded here
      as a stable insertion sort [js_sort].
    - [while] loops and [for] loops whose bound is not an array length are
      fixpoints on a fuel argument that re-evaluate the source's loop test;
      the theorems show that the fuel supplied never runs out.
    - The log store itself is [Logger].  A call to the logger appends one
      entry, whose id takes one draw of [Math.random]: in the coordinator
      ([processQueue], [processBatch]) every call is written out as [log],
      and for [runLocalTest] the calls made before the pattern is generated
      are counted by [drawn_before_pattern].  The functions of the emitter
      and of the listener return nothing that depends on [Math.random], and
      leave their log entries out.
    - [Math.random], [Date.now], timers and the Firestore snapshot held in
      [queueRef.current] belong to the environment: they are read from an
      explicit oracle carried by the state. *)

From Stdlib Require Import QArith ZArith List String Ascii Lia Lra Psatz Bool.
From Stdlib Require Import Permutation Sorted Qround Qabs Qpower.
From Stdlib Require Floats.
From stdpp Require Import base list sorting strings pretty gmap.
Import ListNotations.

Set Default Proof Using "Type".

(* ===================================================================== *)
(** * Part I: the program *)
(* ===================================================================== *)

(** ** Numbers *)

Definition Qltb (a b : Q) : bool := negb (Qle_bool b a).

(** ** Numbers: the rounding of binary64 arithmetic *)

(** [floor (log2 x)] for a positive [x]. *)
Definition floor_log2 (x : Q) : Z :=
  let k := (Z.log2 (Qnum x) - Z.log2 (Zpos (Qden x)))%Z in
  if Qle_bool (2 ^ k) x then k else (k - 1)%Z.

(** The integer nearest to [q], the even one of the two when [q] lies half
    way. *)
Definition round_half_even (q : Q) : Z :=
  let n := Qfloor q in
  match Qcompare (q - inject_Z n) (1 # 2) with
  | Lt => n
  | Gt => (n + 1)%Z
  | Eq => if Z.even n then n else (n + 1)%Z
  end.

(** The exponent of the last place of the doubles around a positive [x]: 53
    significant bits for a normal number, and never below the exponent -1074
    of the subnormal numbers. *)
Definition binary64_exponent (x : Q) : Z :=
  Z.max (floor_log2 x - 52) (-1074).

Definition binary64_magnitude (x : Q) : Q :=
  let e := binary64_exponent x in
  (inject_Z (round_half_even (x / 2 ^ e)) * 2 ^ e)%Q.

(** The double that an arithmetic operation of JavaScript returns when its
    exact result is [x]: [x] rounded to the nearest double, to the one with
    an even significand when two are equally near.  A result beyond the
    largest double becomes an infinity in the program; that is not
    represented. *)
Definition binary64 (x : Q) : Q :=
  Qred (if Qltb x 0 then - binary64_magnitude (- x) else binary64_magnitude x).

(** The value of a finite floating-point number of the proof assistant's
    kernel, which computes in binary64 itself: [binary64] is checked against
    it on the numbers of the examples. *)
Definition Q_of_float (x : PrimFloat.float) : option Q :=
  match FloatOps.Prim2SF x with
  | SpecFloat.S754_zero _ => Some 0%Q
  | SpecFloat.S754_finite s m e =>
      Some (Qred ((if s then -1 else 1) * inject_Z (Zpos m) * 2 ^ e))
  | _ => None
  end.

(** ** [audioEngine.ts]: configuration and shared types *)

Module AUDIO_CONFIG.
Definition FREQ_LOW : Q := 17500.
Definition FREQ_HIGH : Q := 19000.
Definition FREQ_THRESHOLD : Q := 18250.
Definition FREQ_TOLERANCE : Q := 250.
Definition PULSE_DURATION_MS : Q := 100.
Definition PULSE_GAP_MS : Q := 80.
Definition NUM_PULSES : nat := 6.
Definition MAX_PEAKS : nat := 20.
Definition MIC_GAIN : Q := 100.
Definition BANDPASS_LOW : Q := 16500.
Definition BANDPASS_HIGH : Q := 21000.
Definition FFT_SIZE : Q := 8192.
Definition SNR_THRESHOLD : Q := 1.5.
Definition PEAK_MERGE_FREQ_HZ : Q := 400.
Definition PEAK_MERGE_TIME_MS : Q := 80.
Definition FADE_IN_MS : Q := 10.
Definition FADE_OUT_MS : Q := 20.
End AUDIO_CONFIG.

(** [type PulseType = 'H' | 'L' | '?'] *)
Inductive PulseType : Type :=
| PH        (* 'H' *)
| PL        (* 'L' *)
| PUnknown. (* '?' *)

Definition PulseType_eqb (a b : PulseType) : bool :=
  match a, b with
  | PH, PH | PL, PL | PUnknown, PUnknown => true
  | _, _ => false
  end.

(** ** [patternUtils.ts] *)

Definition PASS_THRESHOLD : nat := (AUDIO_CONFIG.NUM_PULSES - 1)%nat.

(** [Math.random]: the environment's sequence of draws and the position of
    the next one. *)
Record Random := {
  draws : nat -> Q;
  next_draw : nat
}.

Definition Math_random (r : Random) : Q * Random :=
  (draws r (next_draw r), {| draws := draws r; next_draw := S (next_draw r) |}).

(** The loop [for (let i = 0; i < length; i++) pattern.push(...)]. *)
Fixpoint generatePattern_loop (fuel : nat) (length : Q) (i : nat)
    (pattern : list PulseType) (r : Random) : list PulseType * Random :=
  match fuel with
  | O => (pattern, r)
  | S fuel' =>
      if Qltb (inject_Z (Z.of_nat i)) length then
        let (x, r') := Math_random r in
        generatePattern_loop fuel' length (S i)
          (pattern ++ [if Qltb x 0.5 then PH else PL]) r'
      else (pattern, r)
  end.

(** [generatePattern(length = AUDIO_CONFIG.NUM_PULSES)]; [None] is the
    omitted argument. *)
Definition generatePattern (length : option Q) (r : Random)
    : list PulseType * Random :=
  let length :=
    match length with
    | Some n => n
    | None => inject_Z (Z.of_nat AUDIO_CONFIG.NUM_PULSES)
    end in
  generatePattern_loop (Z.to_nat (Qceiling length)) length 0 [] r.

Definition classifyFrequency (freq : Q) (threshold : option Q) : PulseType :=
  let threshold :=
    match threshold with
    | Some t => t
    | None => AUDIO_CONFIG.FREQ_THRESHOLD
    end in
  if Qltb threshold freq then PH else PL.

(** The three variables of the matching loop of [comparePatterns]. *)
Record MatchState := {
  emitIndex : nat;
  detectIndex : nat;
  matchedPositions : list nat
}.

(** [emitted[emitIndex] === detected[detectIndex]] *)
Definition same_symbol (emitted detected : list PulseType) (s : MatchState)
    : bool :=
  match emitted !! emitIndex s, detected !! detectIndex s with
  | Some e, Some d => PulseType_eqb e d
  | None, None => true
  | _, _ => false
  end.

(** [while (emitIndex < emitted.length && detectIndex < detected.length)] *)
Fixpoint comparePatterns_loop (fuel : nat) (emitted detected : list PulseType)
    (s : MatchState) : MatchState :=
  match fuel with
  | O => s
  | S fuel' =>
      if (emitIndex s <? length emitted)%nat
         && (detectIndex s <? length detected)%nat
      then
        let s1 :=
          if same_symbol emitted detected s then
            {| emitIndex := S (emitIndex s);
               detectIndex := detectIndex s;
               matchedPositions := matchedPositions s ++ [detectIndex s] |}
          else s in
        comparePatterns_loop fuel' emitted detected
          {| emitIndex := emitIndex s1;
             detectIndex := S (detectIndex s1);
             matchedPositions := matchedPositions s1 |}
      else s
  end.

(** The entries of [details], by their data instead of their text. *)
Inductive Detail : Type :=
| PulseFound (pulse : nat) (sym : PulseType) (position : nat)
| PulseNotFound (pulse : nat) (sym : PulseType)
| DetectedTotal (total : nat) (detected : list PulseType)
| FoundInOrder (matchCount total : nat).

Record CompareResult := {
  matchCount : nat;
  passed : bool;
  details : list Detail
}.

Definition comparePatterns_details (emitted detected : list PulseType)
    (matched : list nat) : list Detail :=
  let matchCount := length matched in
  imap (fun i e =>
          if (i <? matchCount)%nat
          then PulseFound (i + 1) e (nth i matched 0%nat + 1)
          else PulseNotFound (i + 1) e) emitted
  ++ [DetectedTotal (length detected) detected;
      FoundInOrder matchCount (length emitted)].

Definition comparePatterns (emitted detected : list PulseType)
    : CompareResult :=
  let s := comparePatterns_loop (length detected) emitted detected
             {| emitIndex := 0; detectIndex := 0; matchedPositions := [] |} in
  let matchCount := length (matchedPositions s) in
  {| matchCount := matchCount;
     passed := (PASS_THRESHOLD <=? matchCount)%nat;
     details := comparePatterns_details emitted detected (matchedPositions s) |}.

(** The verifier as the specification words it: one forward pass over the
    detected sequence; a detected symbol equal to the first unmatched emitted
    symbol is a match and consumes it; the detected pointer always moves. *)
Fixpoint greedy_match (emitted detected : list PulseType) : nat :=
  match detected with
  | [] => 0
  | d :: detected' =>
      match emitted with
      | [] => 0
      | e :: emitted' =>
          if PulseType_eqb e d
          then S (greedy_match emitted' detected')
          else greedy_match emitted detected'
      end
  end.

(** ** [audioEngine.ts]: [UltrasonicEmitter] *)

Record EmitterConfig := {
  volume : Q;
  freqLow : Q;
  freqHigh : Q;
  pulseDuration : Q;
  pulseGap : Q;
  useOutputFilter : option bool;  (* [None] is undefined *)
  filterCutoff : option Q
}.

(** What [schedulePulse] sets up: one oscillator with its gain envelope,
    started and stopped on the audio clock (seconds). *)
Record Oscillator := {
  osc_frequency : Q;
  osc_volume : Q;
  osc_startTime : Q;
  osc_fadeInEnd : Q;
  osc_fadeOutStart : Q;
  osc_endTime : Q;
  osc_stopTime : Q;
  osc_through_filter : bool
}.

(** An [AudioContext], by the oscillators scheduled on it. *)
Record AudioContext := {
  oscillators : list Oscillator
}.

Record UltrasonicEmitter := {
  audioContext : option AudioContext;
  outputFilter : option Q   (* the cutoff of the highpass node, if there is one *)
}.

(** [init], for a browser that grants the audio context. *)
Definition emitter_init (e : UltrasonicEmitter) : UltrasonicEmitter :=
  match audioContext e with
  | Some _ => e
  | None =>
      {| audioContext := Some {| oscillators := [] |};
         outputFilter := Some 15000%Q |}
  end.

Definition schedulePulse (hasFilter : bool) (ctx : AudioContext)
    (freq volume durationMs startTime : Q) (useFilter : bool) : AudioContext :=
  {| oscillators :=
       oscillators ctx ++
       [{| osc_frequency := freq;
           osc_volume := volume;
           osc_startTime := startTime;
           osc_fadeInEnd := startTime + AUDIO_CONFIG.FADE_IN_MS / 1000;
           osc_fadeOutStart :=
             startTime + (durationMs - AUDIO_CONFIG.FADE_OUT_MS) / 1000;
           osc_endTime := startTime + durationMs / 1000;
           osc_stopTime := startTime + durationMs / 1000 + 0.01;
           osc_through_filter := useFilter && hasFilter |}] |}.

Definition WAKE_UP_FREQ : Q := 17500.

(** The variables the pulse loop of [emit] updates. *)
Record EmitState := {
  emit_ctx : AudioContext;
  scheduleTime : Q;
  emittedFreqs : list Q
}.

(** [for (let i = 0; i < pattern.length; i++)], with [rest] the symbols
    [pattern[i]], [pattern[i+1]], ... still to come. *)
Fixpoint emit_loop (config : EmitterConfig) (useFilter hasFilter : bool)
    (patternLength i : nat) (rest : list PulseType) (s : EmitState) : EmitState :=
  match rest with
  | [] => s
  | sym :: rest' =>
      let freq := if PulseType_eqb sym PH then freqHigh config else freqLow config in
      let ctx := schedulePulse hasFilter (emit_ctx s) freq (volume config)
                   (pulseDuration config) (scheduleTime s) useFilter in
      let t := (scheduleTime s + pulseDuration config / 1000)%Q in
      let t := if (i <? patternLength - 1)%nat
               then (t + pulseGap config / 1000)%Q else t in
      emit_loop config useFilter hasFilter patternLength (S i) rest'
        {| emit_ctx := ctx;
           scheduleTime := t;
           emittedFreqs := emittedFreqs s ++ [freq] |}
  end.

(** [emit(pattern, config)], with [currentTime] the reading of
    [ctx.currentTime]: the frequencies returned, the milliseconds slept before
    returning, and the emitter afterwards. *)
Definition emit (pattern : list PulseType) (config : EmitterConfig)
    (currentTime : Q) (e : UltrasonicEmitter) : list Q * Q * UltrasonicEmitter :=
  let e := emitter_init e in
  match audioContext e with
  | None => ([], 0%Q, e)
  | Some ctx =>
      let useFilter :=
        match useOutputFilter config with
        | Some false => false
        | _ => true
        end in
      let cutoff :=
        match filterCutoff config with
        | Some c => c
        | None => 15000%Q
        end in
      let filter :=
        match outputFilter e with
        | Some _ => Some cutoff
        | None => None
        end in
      let hasFilter := match filter with Some _ => true | None => false end in
      let baseTime := (currentTime + 0.01)%Q in
      let ctx := schedulePulse hasFilter ctx WAKE_UP_FREQ (volume config) 40
                   baseTime useFilter in
      let s := emit_loop config useFilter hasFilter (length pattern) 0 pattern
                 {| emit_ctx := ctx;
                    scheduleTime := (baseTime + 0.16)%Q;
                    emittedFreqs := [] |} in
      let n := inject_Z (Z.of_nat (length pattern)) in
      let totalDurationMs :=
        (160 + pulseDuration config * n + pulseGap config * (n - 1))%Q in
      (emittedFreqs s, (totalDurationMs + 50)%Q,
       {| audioContext := Some (emit_ctx s); outputFilter := filter |})
  end.

(** ** [Array.prototype.sort(compareFn)] *)

Section JsSort.

Context {A : Type}.
Variable compareFn : A -> A -> Q.

(** [x] stood in front of every element of [sorted] in the input: it stays in
    front of [y] unless the comparator puts [y] first ([compareFn x y > 0]). *)
Fixpoint js_sort_insert (x : A) (sorted : list A) : list A :=
  match sorted with
  | [] => [x]
  | y :: sorted' =>
      if Qle_bool (compareFn x y) 0
      then x :: y :: sorted'
      else y :: js_sort_insert x sorted'
  end.

Fixpoint js_sort (l : list A) : list A :=
  match l with
  | [] => []
  | x :: l' => js_sort_insert x (js_sort l')
  end.

End JsSort.

(** ** [audioEngine.ts]: [UltrasonicListener] *)

Record DetectedPeak := {
  frequency : Q;
  amplitude : Q;
  timestamp : Q;
  type : PulseType;
  snr : Q
}.

Record UltrasonicListener := {
  analyser_ready : bool;        (* [analyser] and [audioContext] are not null *)
  isRecording : bool;
  peaks : list DetectedPeak;
  animationFrameId : option Z;  (* [None] is null *)
  noiseFloor : Q
}.

(** What one run of [analyzeLoop] reads from the browser. *)
Record AnalyserFrame := {
  sampleRate : Q;      (* [audioContext.sampleRate], positive *)
  dataArray : list Q;  (* [getFloatFrequencyData]: a finite dB value per bin *)
  now : Q;             (* [performance.now()] *)
  frameRequest : Z     (* the id [requestAnimationFrame] hands back *)
}.

(** The variables of the scan over the ultrasonic band. *)
Record BandScan := {
  maxAmplitude : option Q;  (* [None] is [-Infinity] *)
  maxBin : nat;
  amplitudes : list Q
}.

(** [for (let i = lowBin; i <= highBin && i < bufferLength; i++)] *)
Fixpoint band_scan_loop (fuel : nat) (data : list Q) (highBin : nat) (i : nat)
    (s : BandScan) : BandScan :=
  match fuel with
  | O => s
  | S fuel' =>
      if (i <=? highBin)%nat && (i <? length data)%nat then
        match data !! i with
        | Some x =>
            let louder :=
              match maxAmplitude s with
              | None => true
              | Some m => Qltb m x
              end in
            band_scan_loop fuel' data highBin (S i)
              {| maxAmplitude := if louder then Some x else maxAmplitude s;
                 maxBin := if louder then i else maxBin s;
                 amplitudes := amplitudes s ++ [x] |}
        | None => s
        end
      else s
  end.

Definition binSize (f : AnalyserFrame) : Q :=
  sampleRate f / AUDIO_CONFIG.FFT_SIZE.

(** The bins are counted from 0, the sample rate being positive. *)
Definition lowBin (f : AnalyserFrame) : nat :=
  Z.to_nat (Qfloor (AUDIO_CONFIG.BANDPASS_LOW / binSize f)).

Definition highBin (f : AnalyserFrame) : nat :=
  Z.to_nat (Qceiling (AUDIO_CONFIG.BANDPASS_HIGH / binSize f)).

Definition band_scan (f : AnalyserFrame) : BandScan :=
  band_scan_loop (S (highBin f) - lowBin f) (dataArray f) (highBin f) (lowBin f)
    {| maxAmplitude := None; maxBin := lowBin f; amplitudes := [] |}.

(** [amplitudes.sort((a, b) => a - b)] and
    [amplitudes[Math.floor(amplitudes.length / 2)] || -100]: a missing entry
    and the value 0 are both falsy. *)
Definition medianAmplitude (f : AnalyserFrame) : Q :=
  let sorted := js_sort (fun a b => (a - b)%Q) (amplitudes (band_scan f)) in
  match sorted !! (length sorted / 2)%nat with
  | Some m => if Qeq_bool m 0 then (-100)%Q else m
  | None => (-100)%Q
  end.

(** [if (medianAmplitude > this.noiseFloor)
      this.noiseFloor = this.noiseFloor * 0.9 + medianAmplitude * 0.1],
    computed in binary64: the two literals are the doubles nearest to 0.9 and
    0.1, and each of the three operations rounds. *)
Definition adapt_noiseFloor (old median : Q) : Q :=
  if Qltb old median
  then binary64 (binary64 (old * binary64 0.9) + binary64 (median * binary64 0.1))
  else old.

(** The test of [this.peaks.find(...)]. *)
Definition same_pulse (freq now : Q) (p : DetectedPeak) : bool :=
  Qltb (Qabs (frequency p - freq)) AUDIO_CONFIG.PEAK_MERGE_FREQ_HZ
  && Qltb (now - timestamp p) AUDIO_CONFIG.PEAK_MERGE_TIME_MS.

(** [Array.prototype.find], with the place of the element found: the code
    goes on to assign to the fields of that very object. *)
Fixpoint js_find {A : Type} (test : A -> bool) (l : list A) : option (nat * A) :=
  match l with
  | [] => None
  | x :: l' =>
      if test x then Some (0%nat, x)
      else match js_find test l' with
           | Some (i, y) => Some (S i, y)
           | None => None
           end
  end.

(** The peak-merging branch: [existingPeak] is overwritten in place when the
    new detection is stronger and left alone otherwise; without an existing
    peak the detection is pushed. *)
Definition merge_peak (detection : DetectedPeak) (peaks : list DetectedPeak)
    : list DetectedPeak :=
  match js_find (same_pulse (frequency detection) (timestamp detection)) peaks with
  | Some (i, existingPeak) =>
      if Qltb (amplitude existingPeak) (amplitude detection)
      then <[i := detection]> peaks
      else peaks
  | None => peaks ++ [detection]
  end.

Section Listener.

(** [Math.log10], a library function of the host. *)
Variable Math_log10 : Q -> Q.

Definition minSNRdB : Q := 20 * Math_log10 AUDIO_CONFIG.SNR_THRESHOLD.

(** The detection a frame yields once the noise floor has been adapted:
    [None] when the frame fails the SNR threshold or its peak lies outside
    both carrier bands. *)
Definition classify_frame (f : AnalyserFrame) (noiseFloor : Q)
    : option DetectedPeak :=
  match maxAmplitude (band_scan f) with
  | None => None
  | Some maxAmplitude =>
      let snr := (maxAmplitude - noiseFloor)%Q in
      let passesThreshold := Qle_bool minSNRdB snr in
      let freq := (inject_Z (Z.of_nat (maxBin (band_scan f))) * binSize f)%Q in
      if passesThreshold then
        let isValidH :=
          Qle_bool (Qabs (freq - AUDIO_CONFIG.FREQ_HIGH)) AUDIO_CONFIG.FREQ_TOLERANCE in
        let isValidL :=
          Qle_bool (Qabs (freq - AUDIO_CONFIG.FREQ_LOW)) AUDIO_CONFIG.FREQ_TOLERANCE in
        if negb isValidH && negb isValidL then None
        else Some {| frequency := freq;
                     amplitude := maxAmplitude;
                     timestamp := now f;
                     type := if isValidH then PH else PL;
                     snr := snr |}
      else None
  end.

Definition analyzeLoop (f : AnalyserFrame) (l : UltrasonicListener)
    : UltrasonicListener :=
  if negb (isRecording l) || negb (analyser_ready l) then l
  else
    let noiseFloor' := adapt_noiseFloor (noiseFloor l) (medianAmplitude f) in
    {| analyser_ready := analyser_ready l;
       isRecording := isRecording l;
       peaks :=
         match classify_frame f noiseFloor' with
         | Some detection => merge_peak detection (peaks l)
         | None => peaks l
         end;
       animationFrameId := Some (frameRequest f);
       noiseFloor := noiseFloor' |}.

(** [startRecording] ends with a call of [analyzeLoop], which reads its first
    frame at once. *)
Definition startRecording (f : AnalyserFrame) (l : UltrasonicListener)
    : UltrasonicListener :=
  if isRecording l then l
  else analyzeLoop f
         {| analyser_ready := analyser_ready l;
            isRecording := true;
            peaks := [];
            animationFrameId := animationFrameId l;
            noiseFloor := -100 |}.

(** The frames of a recording in progress, one run of [analyzeLoop] each. *)
Definition analyzeFrames (frames : list AnalyserFrame) (l : UltrasonicListener)
    : UltrasonicListener :=
  fold_left (fun l f => analyzeLoop f l) frames l.

End Listener.

Definition clearPeaks (l : UltrasonicListener) : UltrasonicListener :=
  {| analyser_ready := analyser_ready l;
     isRecording := isRecording l;
     peaks := [];
     animationFrameId := animationFrameId l;
     noiseFloor := -100 |}.

Definition stopAndAnalyze (l : UltrasonicListener)
    : list DetectedPeak * UltrasonicListener :=
  let finalPeaks := peaks l in
  let finalPeaks :=
    if (AUDIO_CONFIG.MAX_PEAKS <? length finalPeaks)%nat
    then take AUDIO_CONFIG.MAX_PEAKS
           (js_sort (fun a b => (amplitude b - amplitude a)%Q) finalPeaks)
    else finalPeaks in
  let finalPeaks := js_sort (fun a b => (timestamp a - timestamp b)%Q) finalPeaks in
  (finalPeaks,
   {| analyser_ready := analyser_ready l;
      isRecording := false;
      peaks := peaks l;
      animationFrameId :=
        match animationFrameId l with
        | Some id => if (id =? 0)%Z then Some id else None
        | None => None
        end;
      noiseFloor := noiseFloor l |}).

Definition getDetectedPattern (l : UltrasonicListener) : list PulseType :=
  map type (peaks l).

Definition getDiagnostics (l : UltrasonicListener) : list DetectedPeak * Q :=
  (peaks l, noiseFloor l).

(** ** [firebase.ts]: queue entries *)

Module Firebase.

Inductive QueueStatus : Type :=
| waiting | ready | emitting | listening | submitted | verified | failed.

Definition QueueStatus_eqb (a b : QueueStatus) : bool :=
  match a, b with
  | waiting, waiting | ready, ready | emitting, emitting
  | listening, listening | submitted, submitted
  | verified, verified | failed, failed => true
  | _, _ => false
  end.

Record QueueEntry := {
  id : string;
  sessionId : string;
  studentId : string;
  studentName : string;
  status : QueueStatus;
  batchId : option string;
  config : EmitterConfig;
  emittedPattern : option (list PulseType);
  detectedPattern : option (list PulseType);
  matchCount : option nat;
  passed : option bool
}.

End Firebase.

Abbreviation QueueEntry := Firebase.QueueEntry.
Abbreviation QueueStatus := Firebase.QueueStatus.

(** ** [TeacherView.tsx]: the world the coordinator runs in *)

(** What the coordinator does to the outside. *)
Inductive Effect : Type :=
| Wrote (queueId : string) (status : QueueStatus)
        (batchId : option string) (emittedPattern : option (list PulseType))
| Slept (ms : Z)
| Emitted (pattern : list PulseType) (config : EmitterConfig) (freqs : list Q)
| RecheckArmed (ms : Z).

(** The coordinator is one cooperative thread: between two suspension points
    ([await]) nothing else runs, and at each of them the environment decides
    how much later than asked the coordinator resumes, what the Firestore
    subscription has stored in [queueRef.current] meanwhile, whether a write
    that was awaited has been rejected, whether the browser refuses the audio
    context that [init] asks for, and how many draws of [Math.random] other
    code has taken meanwhile (the snapshot listener and [updateQueueStatus]
    log when they run, and every log entry takes a draw). *)
Record World := {
  clock : Z;                          (* [Date.now()], in ms *)
  awaits : nat;                       (* suspension points passed *)
  lateness : nat -> nat;              (* overrun of the k-th suspension, in ms *)
  writeFails : nat -> bool;           (* is the write awaited at the k-th rejected *)
  snapshots : nat -> list QueueEntry; (* [queueRef.current] after k suspensions *)
  audioTime : nat -> Q;               (* [ctx.currentTime] after k suspensions *)
  initFails : nat -> bool;            (* does [new AudioContext] throw after k suspensions *)
  drawsMeanwhile : nat -> nat;        (* draws others take during the k-th suspension *)
  random : Random;
  emitterRef : option UltrasonicEmitter;
  isProcessing : bool;
  effects : list Effect
}.

Definition Date_now (w : World) : Z := clock w.

Definition queueRef (w : World) : list QueueEntry := snapshots w (awaits w).

Definition perform (e : list Effect) (w : World) : World :=
  {| clock := clock w; awaits := awaits w; lateness := lateness w;
     writeFails := writeFails w; snapshots := snapshots w;
     audioTime := audioTime w; initFails := initFails w;
     drawsMeanwhile := drawsMeanwhile w; random := random w;
     emitterRef := emitterRef w; isProcessing := isProcessing w;
     effects := effects w ++ e |}.

(** [Math.random] after [n] draws whose values are of no concern here. *)
Definition skip_draws (n : nat) (r : Random) : Random :=
  Nat.iter n (fun r => snd (Math_random r)) r.

Definition setRandom (r : Random) (w : World) : World :=
  {| clock := clock w; awaits := awaits w; lateness := lateness w;
     writeFails := writeFails w; snapshots := snapshots w;
     audioTime := audioTime w; initFails := initFails w;
     drawsMeanwhile := drawsMeanwhile w; random := r;
     emitterRef := emitterRef w; isProcessing := isProcessing w;
     effects := effects w |}.

(** [log.info(...)], [log.success(...)], [log.error(...)], [log.debug(...)]:
    [Logger.addLog] makes the id of the entry from [Date.now()] and one draw
    of [Math.random]; the entry itself goes to the log store, [Logger]. *)
Definition log (w : World) : World := setRandom (skip_draws 1 (random w)) w.

(** One suspension point that asks for [ms] milliseconds. *)
Definition await (ms : Z) (w : World) : World :=
  {| clock := clock w + Z.max 0 ms + Z.of_nat (lateness w (awaits w));
     awaits := S (awaits w); lateness := lateness w;
     writeFails := writeFails w; snapshots := snapshots w;
     audioTime := audioTime w; initFails := initFails w;
     drawsMeanwhile := drawsMeanwhile w;
     random := skip_draws (drawsMeanwhile w (awaits w)) (random w);
     emitterRef := emitterRef w; isProcessing := isProcessing w;
     effects := effects w |}.

(** [await new Promise(r => setTimeout(r, ms))] *)
Definition sleep (ms : Z) (w : World) : World :=
  await ms (perform [Slept ms] w).

Definition setIsProcessing (b : bool) (w : World) : World :=
  {| clock := clock w; awaits := awaits w; lateness := lateness w;
     writeFails := writeFails w; snapshots := snapshots w;
     audioTime := audioTime w; initFails := initFails w;
     drawsMeanwhile := drawsMeanwhile w; random := random w;
     emitterRef := emitterRef w; isProcessing := b;
     effects := effects w |}.

Definition setEmitterRef (e : option UltrasonicEmitter) (w : World) : World :=
  {| clock := clock w; awaits := awaits w; lateness := lateness w;
     writeFails := writeFails w; snapshots := snapshots w;
     audioTime := audioTime w; initFails := initFails w;
     drawsMeanwhile := drawsMeanwhile w; random := random w;
     emitterRef := e; isProcessing := isProcessing w;
     effects := effects w |}.

(** [await Promise.all(students.map(student => updateQueueStatus(...)))]:
    every write is issued, then the coordinator waits for all of them;
    [false] is a rejection.  The entry [updateQueueStatus] logs when its write
    settles is among the draws taken during the suspension.  The server's
    time stamp that goes with 'verified' and 'failed' is not represented. *)
Definition updateQueueStatus_all (students : list QueueEntry)
    (status : QueueStatus) (batchId : option string)
    (emittedPattern : option (list PulseType)) (w : World) : bool * World :=
  let w1 := perform (map (fun student =>
                            Wrote (Firebase.id student) status batchId emittedPattern)
                         students) w in
  (negb (writeFails w (awaits w)), await 0 w1).

Definition HANDSHAKE_TIMEOUT : Z := 3000.

(** [studentIds.includes(e.id) && e.status === 'listening'] *)
Definition is_listening (studentIds : list string) (e : QueueEntry) : bool :=
  existsb (String.eqb (Firebase.id e)) studentIds
  && Firebase.QueueStatus_eqb (Firebase.status e) Firebase.listening.

(** [queueRef.current.filter(e => ...).length] *)
Definition readyCount (studentIds : list string) (w : World) : nat :=
  length (filter (fun e : QueueEntry => Is_true (is_listening studentIds e))
                 (queueRef w)).

(** [while (Date.now() - startTime < HANDSHAKE_TIMEOUT)], which logs when it
    finds the batch ready; the result is [allReady] and the world at the
    exit, or [None] when the fuel is used up with the loop still running. *)
Fixpoint handshake_loop (fuel : nat) (studentIds : list string)
    (students : nat) (startTime : Z) (w : World) : option (bool * World) :=
  match fuel with
  | O => None
  | S fuel' =>
      if (Date_now w - startTime <? HANDSHAKE_TIMEOUT)%Z then
        if (readyCount studentIds w =? students)%nat then Some (true, log w)
        else handshake_loop fuel' studentIds students startTime (sleep 50 w)
      else Some (false, w)
  end.

(** [await emitterRef.current?.emit(pattern, config)]; [false] is a
    rejection.  An emitter without an audio context runs [init] first, in
    which [new AudioContext(...)] may throw: then nothing has been logged or
    scheduled, the emitter stays as it was and [emit] is rejected.  Otherwise
    [init] logs twice and suspends; what it logs after that is among the
    draws taken meanwhile.  [emit] then logs three times, schedules, sleeps,
    and logs once more. *)
Definition emit_if_present (pattern : list PulseType) (config : EmitterConfig)
    (w : World) : bool * World :=
  match emitterRef w with
  | None => (true, w)
  | Some e =>
      let (initialised, w) :=
        match audioContext e with
        | Some _ => (true, w)
        | None =>
            if initFails w (awaits w) then (false, await 0 w)
            else (true, await 0 (log (log w)))
        end in
      if initialised then
        let '(freqs, ms, e') := emit pattern config (audioTime w (awaits w)) e in
        let w := log (log (log w)) in
        let w := perform [Emitted pattern config freqs] w in
        (true, log (await (Qfloor ms) (setEmitterRef (Some e') w)))
      else (false, w)
  end.

Inductive Outcome : Type :=
| Returned    (* the promise is fulfilled *)
| Threw       (* the promise is rejected *)
| OutOfFuel.  (* the embedding's fuel ran out *)

(** The [catch] block of [processBatch]. *)
Definition processBatch_catch (students : list QueueEntry) (w : World)
    : Outcome * World :=
  let w := log w in
  let (ok, w) := updateQueueStatus_all students Firebase.failed None None w in
  (if ok then Returned else Threw, w).

(** The [try] block of [processBatch] from the end of the handshake on. *)
Definition processBatch_after_handshake (students : list QueueEntry)
    (pattern : list PulseType) (config : EmitterConfig) (w : World)
    : Outcome * World :=
  let w := sleep 100 w in
  let (emitted, w) := emit_if_present pattern config w in
  if emitted then
    let w := sleep 150 w in
    let (ok, w) := updateQueueStatus_all students Firebase.submitted None None w in
    if ok then (Returned, log w) else processBatch_catch students w
  else processBatch_catch students w.

(** [processBatch] up to the handshake: the pattern and the world in which
    the handshake starts, unless the writes are rejected.  The batch is
    logged before the pattern is generated, and the pattern after. *)
Definition processBatch_mark_emitting (students : list QueueEntry) (w : World)
    : bool * list PulseType * World :=
  let batchId := ("batch_" +:+ pretty (Date_now w))%string in
  let w := log w in
  let (pattern, rnd) := generatePattern None (random w) in
  let w := log (setRandom rnd w) in
  let (ok, w) := updateQueueStatus_all students Firebase.emitting
                   (Some batchId) (Some pattern) w in
  (ok, pattern, w).

(** [processBatch]: the handshake logs that it waits, and after the loop
    that it timed out when it did. *)
Definition processBatch (students : list QueueEntry) (configKey : string)
    (w : World) : Outcome * World :=
  match students with
  | [] => (Threw, w)   (* [students[0].config] *)
  | first :: _ =>
      let config := Firebase.config first in
      let studentIds := map Firebase.id students in
      let '(ok, pattern, w) := processBatch_mark_emitting students w in
      if ok then
        let startTime := Date_now w in
        let w := log w in
        match handshake_loop 61 studentIds (length students) startTime w with
        | Some (allReady, w) =>
            let w := if allReady then w else log w in
            processBatch_after_handshake students pattern config w
        | None => (OutOfFuel, w)
        end
      else processBatch_catch students w
  end.

(** ** [TeacherView.tsx]: grouping by configuration *)

(** A [Map<string, QueueEntry[]>]: the keys in the order of their insertion. *)
Definition ConfigGroups := list (string * list QueueEntry).

Fixpoint Map_has (key : string) (m : ConfigGroups) : bool :=
  match m with
  | [] => false
  | (k, _) :: m' => String.eqb k key || Map_has key m'
  end.

Fixpoint Map_get (key : string) (m : ConfigGroups) : option (list QueueEntry) :=
  match m with
  | [] => None
  | (k, v) :: m' => if String.eqb k key then Some v else Map_get key m'
  end.

Fixpoint Map_set (key : string) (value : list QueueEntry) (m : ConfigGroups)
    : ConfigGroups :=
  match m with
  | [] => [(key, value)]
  | (k, v) :: m' =>
      if String.eqb k key then (k, value) :: m'
      else (k, v) :: Map_set key value m'
  end.

(** [configGroups.get(key)!.push(student)]: the array stored under [key]
    grows by one. *)
Definition Map_push (key : string) (student : QueueEntry) (m : ConfigGroups)
    : ConfigGroups :=
  match Map_get key m with
  | Some group => Map_set key (group ++ [student]) m
  | None => m
  end.

(** A character of a string. *)
Fixpoint occurs (c : ascii) (s : string) : Prop :=
  match s with
  | EmptyString => False
  | String a s' => a = c \/ occurs c s'
  end.

(** Two configurations with the same values: numbers compare by value, an
    absent field only equals an absent field. *)
Definition same_optional (x y : option Q) : Prop :=
  match x, y with
  | Some a, Some b => (a == b)%Q
  | None, None => True
  | _, _ => False
  end.

Definition same_config (c1 c2 : EmitterConfig) : Prop :=
  (volume c1 == volume c2)%Q
  /\ (freqLow c1 == freqLow c2)%Q
  /\ (freqHigh c1 == freqHigh c2)%Q
  /\ (pulseDuration c1 == pulseDuration c2)%Q
  /\ (pulseGap c1 == pulseGap c2)%Q
  /\ useOutputFilter c1 = useOutputFilter c2
  /\ same_optional (filterCutoff c1) (filterCutoff c2).

Section TeacherView.

(** [Number::toString], the host's conversion of a number to text. *)
Variable numToString : Q -> string.

Definition boolToString (b : option bool) : string :=
  match b with
  | Some true => "true"
  | Some false => "false"
  | None => "undefined"
  end.

Definition optNumToString (x : option Q) : string :=
  match x with
  | Some x => numToString x
  | None => "undefined"
  end.

Definition getConfigKey (config : EmitterConfig) : string :=
  numToString (volume config) +:+ "_" +:+
  numToString (freqLow config) +:+ "_" +:+
  numToString (freqHigh config) +:+ "_" +:+
  numToString (pulseDuration config) +:+ "_" +:+
  numToString (pulseGap config) +:+ "_" +:+
  boolToString (useOutputFilter config) +:+ "_" +:+
  optNumToString (filterCutoff config).

(** [for (const student of students)] in [processQueue]. *)
Definition group_student (configGroups : ConfigGroups) (student : QueueEntry)
    : ConfigGroups :=
  let key := getConfigKey (Firebase.config student) in
  let configGroups :=
    if negb (Map_has key configGroups)
    then Map_set key [] configGroups
    else configGroups in
  Map_push key student configGroups.

Definition groupByConfig (students : list QueueEntry) : ConfigGroups :=
  fold_left group_student students [].

(** [for (const [configKey, group] of configGroups) await processBatch(...)];
    a rejection ends the loop. *)
Fixpoint processBatches_loop (configGroups : ConfigGroups) (w : World)
    : Outcome * World :=
  match configGroups with
  | [] => (Returned, w)
  | (configKey, group) :: rest =>
      match processBatch group configKey w with
      | (Returned, w') => processBatches_loop rest w'
      | stopped => stopped
      end
  end.

(** The [try] block of [processQueue] once the groups are built: the log
    entry about the grouping, one in either branch, then the loop over the
    groups. *)
Definition processBatches (configGroups : ConfigGroups) (w : World)
    : Outcome * World :=
  processBatches_loop configGroups (log w).

(** The [finally] block of [processQueue]; the re-check is logged before it
    is armed. *)
Definition processQueue_finally (w : World) : World :=
  let w := setIsProcessing false w in
  let newReadyStudents :=
    filter (fun e : QueueEntry =>
              Is_true (Firebase.QueueStatus_eqb (Firebase.status e) Firebase.ready))
           (queueRef w) in
  if (0 <? length newReadyStudents)%nat
  then perform [RecheckArmed 50] (log w)
  else w.

Definition processQueue (students : list QueueEntry) (w : World)
    : Outcome * World :=
  if isProcessing w || (length students =? 0)%nat then (Returned, w)
  else
    let w := setIsProcessing true w in
    let (outcome, w) := processBatches (groupByConfig students) w in
    (outcome, processQueue_finally w).

End TeacherView.

(** ** Predicates the properties are stated with *)

(** A symbol that [generatePattern] may produce. *)
Definition high_or_low (s : PulseType) : Prop := s = PH \/ s = PL.

(** The carrier of a symbol in [emit]. *)
Definition pulse_frequency (config : EmitterConfig) (sym : PulseType) : Q :=
  if PulseType_eqb sym PH then freqHigh config else freqLow config.

(** A character that is neither of the two separators. *)
Definition plain (c : ascii) : Prop := c <> "_"%char /\ c <> "/"%char.

(** ** Sample data *)

(** A stand-in for [Math.log10] that is right at 1.5 to four decimals. *)
Definition sample_log10 (x : Q) : Q := 0.1761.

(** A 48 kHz frame of 4096 bins, flat at [floor] dB except for one bin. *)
Definition sample_frame (floor peak : Q) (peak_bin : nat) (t : Q)
    : AnalyserFrame :=
  {| sampleRate := 48000;
     dataArray := <[peak_bin := peak]> (replicate 4096 floor);
     now := t;
     frameRequest := 1 |}.

(** A stand-in for [Number::toString]: the fraction in lowest terms. *)
Definition sample_numToString (x : Q) : string :=
  pretty (Qnum (Qred x)) +:+ "/" +:+ pretty (Qden (Qred x)).

Definition sample_config (vol : Q) : EmitterConfig :=
  {| volume := vol;
     freqLow := AUDIO_CONFIG.FREQ_LOW;
     freqHigh := AUDIO_CONFIG.FREQ_HIGH;
     pulseDuration := AUDIO_CONFIG.PULSE_DURATION_MS;
     pulseGap := AUDIO_CONFIG.PULSE_GAP_MS;
     useOutputFilter := Some true;
     filterCutoff := None |}.

Definition sample_student (name : string) (state : QueueStatus) (vol : Q)
    : QueueEntry :=
  {| Firebase.id := name;
     Firebase.sessionId := "session";
     Firebase.studentId := name;
     Firebase.studentName := name;
     Firebase.status := state;
     Firebase.batchId := None;
     Firebase.config := sample_config vol;
     Firebase.emittedPattern := None;
     Firebase.detectedPattern := None;
     Firebase.matchCount := None;
     Firebase.passed := None |}.

Definition sample_peak (freq amp t : Q) (sym : PulseType) : DetectedPeak :=
  {| frequency := freq; amplitude := amp; timestamp := t; type := sym; snr := 10 |}.

(** What [sample_frame (-80) (-30) 3243 1000] yields on a fresh noise floor:
    bin 3243 of a 48 kHz frame is 19001.95 Hz. *)
Definition sample_detection : DetectedPeak :=
  {| frequency := (155664000 # 8192)%Q;
     amplitude := (-30)%Q;
     timestamp := 1000%Q;
     type := PH;
     snr := 68%Q |}.

(** A world in which the only student of the batch starts listening after
    the third suspension, every timer fires 3 ms late, writes succeed, the
    browser grants the audio context and two log entries are written by
    others during every suspension. *)
Definition sample_world : World :=
  {| clock := 1000;
     awaits := 0;
     lateness := fun _ => 3%nat;
     writeFails := fun _ => false;
     snapshots := fun k =>
       [sample_student "ann"
          (if (k <? 3)%nat then Firebase.emitting else Firebase.listening) 0.5];
     audioTime := fun _ => 0%Q;
     initFails := fun _ => false;
     drawsMeanwhile := fun _ => 2%nat;
     random := {| draws := fun n => if Nat.even n then 0.2%Q else 0.7%Q;
                  next_draw := 0 |};
     emitterRef := Some {| audioContext := None; outputFilter := None |};
     isProcessing := true;
     effects := [] |}.

(** [n] peaks, the k-th at k ms with amplitude -k dB: the earlier, the
    stronger. *)
Definition sample_peaks (n : nat) : list DetectedPeak :=
  map (fun k => sample_peak 19000 (- inject_Z (Z.of_nat k)) (inject_Z (Z.of_nat k)) PH)
      (seq 0 n).

Definition sample_listener (recording : bool) (retained : list DetectedPeak)
    (floor : Q) : UltrasonicListener :=
  {| analyser_ready := true;
     isRecording := recording;
     peaks := retained;
     animationFrameId := Some 1%Z;
     noiseFloor := floor |}.

(** ** Further sample data *)

(** [n] times 'H', 'L': a detected sequence that alternates. *)
Fixpoint alternating (n : nat) : list PulseType :=
  match n with
  | O => []
  | S n' => PH :: PL :: alternating n'
  end.

(** The symbol [generatePattern] pushes for one draw. *)
Definition symbol_of_draw (x : Q) : PulseType :=
  if Qltb x 0.5 then PH else PL.

(** ** Further predicates and definitions *)

(** What the matching loop keeps true of its three variables. *)
Definition positions_ok (emitted detected : list PulseType) (s : MatchState)
    : Prop :=
  emitIndex s = length (matchedPositions s)
  /\ (forall i p, matchedPositions s !! i = Some p ->
        (p < detectIndex s)%nat
        /\ exists e, emitted !! i = Some e /\ detected !! p = Some e)
  /\ (forall i j p q, (i < j)%nat ->
        matchedPositions s !! i = Some p -> matchedPositions s !! j = Some q ->
        (p < q)%nat).

(** [getSecurityStats()] *)
Module SecurityStats.
Record t := {
  threshold : nat;
  guessRate : string;
  patterns : nat
}.
End SecurityStats.




(** A retained peak as [analyzeLoop] lets it in: loud enough over the noise
    floor, and within the tolerance of the carrier its type names; 'L' only
    when it is not within the tolerance of the high carrier. *)
Definition carrier_peak (minSNR : Q) (p : DetectedPeak) : Prop :=
  (minSNR <= snr p)%Q
  /\ ((type p = PH
       /\ (Qabs (frequency p - AUDIO_CONFIG.FREQ_HIGH) <= AUDIO_CONFIG.FREQ_TOLERANCE)%Q)
      \/ (type p = PL
          /\ (Qabs (frequency p - AUDIO_CONFIG.FREQ_LOW) <= AUDIO_CONFIG.FREQ_TOLERANCE)%Q
          /\ ~ (Qabs (frequency p - AUDIO_CONFIG.FREQ_HIGH)
                <= AUDIO_CONFIG.FREQ_TOLERANCE)%Q)).

(** What the scan of [analyzeLoop] keeps true, [lo] being the first bin and
    [i] the next one to read. *)
Definition scanned (data : list Q) (lo i : nat) (s : BandScan) : Prop :=
  amplitudes s = take (i - lo) (drop lo data)
  /\ (maxAmplitude s = None -> amplitudes s = [] /\ maxBin s = lo)
  /\ (forall m, maxAmplitude s = Some m ->
        (lo <= maxBin s < i)%nat
        /\ data !! maxBin s = Some m
        /\ (forall j x, (lo <= j < i)%nat -> data !! j = Some x -> (x <= m)%Q)
        /\ (forall j x, (lo <= j < maxBin s)%nat -> data !! j = Some x -> (x < m)%Q)).

(** The oscillator one call of [schedulePulse] creates. *)
Definition pulse_oscillator (hasFilter : bool) (freq volume durationMs startTime : Q)
    (useFilter : bool) : Oscillator :=
  {| osc_frequency := freq;
     osc_volume := volume;
     osc_startTime := startTime;
     osc_fadeInEnd := startTime + AUDIO_CONFIG.FADE_IN_MS / 1000;
     osc_fadeOutStart := startTime + (durationMs - AUDIO_CONFIG.FADE_OUT_MS) / 1000;
     osc_endTime := startTime + durationMs / 1000;
     osc_stopTime := startTime + durationMs / 1000 + 0.01;
     osc_through_filter := useFilter && hasFilter |}.

(** [scheduleTime] after a pulse that is not the last one. *)
Definition next_start (config : EmitterConfig) (scheduleTime : Q) : Q :=
  (scheduleTime + pulseDuration config / 1000 + pulseGap config / 1000)%Q.

(** [config.useOutputFilter !== false] *)
Definition filter_wanted (config : EmitterConfig) : bool :=
  match useOutputFilter config with
  | Some false => false
  | _ => true
  end.

(** [this.outputFilter] is not null once [emit] has made sure of a context. *)
Definition filter_present (e : UltrasonicEmitter) : bool :=
  match outputFilter (emitter_init e) with
  | Some _ => true
  | None => false
  end.

(** The oscillators one call of [emit] schedules at [ctx.currentTime = t]. *)
Definition emitted_oscillators (pattern : list PulseType) (config : EmitterConfig)
    (t : Q) (e : UltrasonicEmitter) : list Oscillator :=
  pulse_oscillator (filter_present e) WAKE_UP_FREQ (volume config) 40 (t + 0.01)
    (filter_wanted config)
  :: imap (fun k sym =>
             pulse_oscillator (filter_present e) (pulse_frequency config sym)
               (volume config) (pulseDuration config)
               (Nat.iter k (next_start config) (t + 0.01 + 0.16)%Q)
               (filter_wanted config))
       pattern.

(** The oscillators of the emitter's context, none without a context. *)
Definition scheduled (e : UltrasonicEmitter) : list Oscillator :=
  match audioContext e with
  | Some ctx => oscillators ctx
  | None => []
  end.

(** [UltrasonicEmitter.cleanup()], the wake lock apart. *)
Definition emitter_cleanup (e : UltrasonicEmitter) : UltrasonicEmitter :=
  match audioContext e with
  | Some _ => {| audioContext := None; outputFilter := None |}
  | None => e
  end.

(** The queue ids written with [status] in a trace, in the order of the
    writes. *)
Definition written (status : QueueStatus) (trace : list Effect) : list string :=
  flat_map (fun effect =>
              match effect with
              | Wrote queueId s _ _ =>
                  if Firebase.QueueStatus_eqb s status then [queueId] else []
              | _ => []
              end) trace.

(** The emissions of a trace: the pattern and the configuration of each. *)
Definition emissions (trace : list Effect) : list (list PulseType * EmitterConfig) :=
  flat_map (fun effect =>
              match effect with
              | Emitted pattern config _ => [(pattern, config)]
              | _ => []
              end) trace.

(** ** [TeacherView.tsx]: verification of the submissions *)

(** The write [verifyStudent] awaits: [updateQueueStatus(entry.id, status,
    { matchCount, passed })], the two fields absent in the branch of the
    missing patterns. *)
Record Verdict := {
  verdict_id : string;
  verdict_status : QueueStatus;
  verdict_matchCount : option nat;
  verdict_passed : option bool
}.

(** An array, also an empty one, is truthy; [undefined] is not. *)
Definition verifyStudent (entry : QueueEntry) : Verdict :=
  match Firebase.emittedPattern entry, Firebase.detectedPattern entry with
  | Some emitted, Some detected =>
      let result := comparePatterns emitted detected in
      {| verdict_id := Firebase.id entry;
         verdict_status := if passed result then Firebase.verified else Firebase.failed;
         verdict_matchCount := Some (matchCount result);
         verdict_passed := Some (passed result) |}
  | _, _ =>
      {| verdict_id := Firebase.id entry;
         verdict_status := Firebase.failed;
         verdict_matchCount := None;
         verdict_passed := None |}
  end.

(** [e.status === 'submitted' && e.detectedPattern &&
    e.detectedPattern.length > 0] *)
Definition has_submission (e : QueueEntry) : bool :=
  Firebase.QueueStatus_eqb (Firebase.status e) Firebase.submitted
  && match Firebase.detectedPattern e with
     | Some detected => (0 <? length detected)%nat
     | None => false
     end.

(** [submittedWithPattern.forEach(entry => ...)]: the verdicts of the calls
    of [verifyStudent] it starts, and [verifyingRef.current] when the loop is
    through; the [finally] handlers run later. *)
Fixpoint verify_each (entries : list QueueEntry) (verifying : gset string)
    : list Verdict * gset string :=
  match entries with
  | [] => ([], verifying)
  | entry :: rest =>
      if decide (Firebase.id entry ∈ verifying) then verify_each rest verifying
      else
        let (started, verifying') :=
          verify_each rest ({[Firebase.id entry]} ∪ verifying) in
        (verifyStudent entry :: started, verifying')
  end.

(** One run of the effect that listens for submitted students. *)
Definition verify_submitted (queue : list QueueEntry) (verifying : gset string)
    : list Verdict * gset string :=
  verify_each (List.filter has_submission queue) verifying.

(** The queue ids a trace writes to, whatever the status. *)
Definition written_any (trace : list Effect) : list string :=
  flat_map (fun effect =>
              match effect with
              | Wrote queueId _ _ _ => [queueId]
              | _ => []
              end) trace.

(** A queue entry that has been submitted with the patterns given. *)
Definition sample_submission (name : string) (emitted detected : list PulseType)
    : QueueEntry :=
  {| Firebase.id := name;
     Firebase.sessionId := "session";
     Firebase.studentId := name;
     Firebase.studentName := name;
     Firebase.status := Firebase.submitted;
     Firebase.batchId := Some "batch_1000"%string;
     Firebase.config := sample_config 0.5;
     Firebase.emittedPattern := Some emitted;
     Firebase.detectedPattern := Some detected;
     Firebase.matchCount := None;
     Firebase.passed := None |}.

(** ** [logger.ts]: the log store *)

(** A subscriber is a callback, known by its identity; what it does when it
    is called is outside the store, and it is taken not to call the store
    back.  The calls made to the subscribers are kept in [calls], each with
    the copy of the logs it was handed.  [Date.now()], [Math.random()] and
    [new Date()] come with the entry. *)
Module Logger.

Inductive LogLevel : Type := info | success | error | debug.

Record LogEntry := {
  id : string;
  timestamp : Z;
  level : LogLevel;
  message : string
}.

Definition LogSubscriber := nat.

Record t := {
  logs : list LogEntry;
  subscribers : list LogSubscriber;   (* a [Set], in insertion order *)
  calls : list (LogSubscriber * list LogEntry)
}.

Definition maxLogs : nat := 500.

Definition new : t := {| logs := []; subscribers := []; calls := [] |}.

(** [this.subscribers.forEach(sub => sub(copy))] *)
Definition notify (copy : list LogEntry) (l : t) : t :=
  {| logs := logs l;
     subscribers := subscribers l;
     calls := calls l ++ map (fun sub => (sub, copy)) (subscribers l) |}.

(** [array.slice(-n)] for [n > 0]. *)
Definition slice_last (n : nat) (entries : list LogEntry) : list LogEntry :=
  drop (length entries - n) entries.

Definition addLog (entry : LogEntry) (l : t) : t :=
  let pushed := logs l ++ [entry] in
  let kept := if (maxLogs <? length pushed)%nat
              then slice_last maxLogs pushed
              else pushed in
  notify kept {| logs := kept; subscribers := subscribers l; calls := calls l |}.

(** [subscribe(callback)]; the function it returns is [unsubscribe callback]. *)
Definition subscribe (callback : LogSubscriber) (l : t) : t :=
  {| logs := logs l;
     subscribers := if decide (callback ∈ subscribers l)
                    then subscribers l
                    else subscribers l ++ [callback];
     calls := calls l ++ [(callback, logs l)] |}.

Definition unsubscribe (callback : LogSubscriber) (l : t) : t :=
  {| logs := logs l;
     subscribers := filter (fun sub => sub <> callback) (subscribers l);
     calls := calls l |}.

Definition getLogs (l : t) : list LogEntry := logs l.

Definition clear (l : t) : t :=
  notify [] {| logs := []; subscribers := subscribers l; calls := calls l |}.

(** A run of [addLog], one entry after the other. *)
Definition addLogs (entries : list LogEntry) (l : t) : t :=
  fold_left (fun l entry => addLog entry l) entries l.

(** The copies a subscriber has been handed so far, oldest first. *)
Definition received (callback : LogSubscriber) (l : t) : list (list LogEntry) :=
  map snd (filter (fun call => fst call = callback) (calls l)).

End Logger.

(** ** [AutoTestPanel.tsx] *)

(** The patterns of a result are kept as symbols: the text the code stores
    is their [join('')].  The time stamp comes from [Date.now()]. *)
Module AutoTest.

Record TestResult := {
  configLabel : string;
  volume : Q;
  passed : bool;
  matchScore : nat;
  emittedPattern : list PulseType;
  detectedPattern : list PulseType;
  timestamp : Z;
  diagnostics : option (list DetectedPeak * Q)
}.

Module ConfigSummary.
Record t := {
  label : string;
  volume : Q;
  totalTests : nat;
  passCount : nat;
  passRate : Q;
  avgScore : Q;
  scoreDistribution : gmap nat nat;   (* score -> count *)
  failedPatterns : list (list PulseType)
}.
End ConfigSummary.

Module TestSummary.
Record t := {
  configSummaries : list ConfigSummary.t;
  bestConfig : option string;    (* [None] is null *)
  worstConfig : option string;
  totalPassRate : Q;
  totalTests : nat
}.
End TestSummary.

(** A [Map<string, TestResult[]>]: the keys in the order of their insertion. *)
Definition ConfigMap := list (string * list TestResult).

Fixpoint ConfigMap_get (key : string) (m : ConfigMap) : option (list TestResult) :=
  match m with
  | [] => None
  | (k, v) :: m' => if String.eqb k key then Some v else ConfigMap_get key m'
  end.

Fixpoint ConfigMap_set (key : string) (value : list TestResult) (m : ConfigMap)
    : ConfigMap :=
  match m with
  | [] => [(key, value)]
  | (k, v) :: m' =>
      if String.eqb k key then (k, value) :: m'
      else (k, v) :: ConfigMap_set key value m'
  end.

(** The body of [testResults.forEach(r => ...)]. *)
Definition group_result (configMap : ConfigMap) (r : TestResult) : ConfigMap :=
  let existing :=
    match ConfigMap_get (configLabel r) configMap with
    | Some tests => tests
    | None => []
    end in
  ConfigMap_set (configLabel r) (existing ++ [r]) configMap.

(** [for (let i = 0; i <= NUM_PULSES; i++) scoreDistribution[i] = 0] *)
Definition empty_distribution : gmap nat nat :=
  list_to_map (map (fun i => (i, 0%nat)) (seq 0 (S AUDIO_CONFIG.NUM_PULSES))).

(** [scoreDistribution[s] = (scoreDistribution[s] || 0) + 1] *)
Definition count_score (d : gmap nat nat) (s : nat) : gmap nat nat :=
  <[s := (default 0 (d !! s) + 1)%nat]> d.

(** The body of [configMap.forEach((tests, label) => ...)]: the summary
    pushed, or [None] where [tests[0]] is undefined and the code throws. *)
Definition summarize (label : string) (tests : list TestResult)
    : option ConfigSummary.t :=
  let passCount := length (List.filter passed tests) in
  let scores := map matchScore tests in
  let scoreDistribution := fold_left count_score scores empty_distribution in
  let failedPatterns :=
    take 3 (map detectedPattern (List.filter (fun t => negb (passed t)) tests)) in
  match tests with
  | [] => None
  | first :: _ =>
      Some {| ConfigSummary.label := label;
              ConfigSummary.volume := volume first;
              ConfigSummary.totalTests := length tests;
              ConfigSummary.passCount := passCount;
              ConfigSummary.passRate :=
                (inject_Z (Z.of_nat passCount) / inject_Z (Z.of_nat (length tests))
                 * 100)%Q;
              ConfigSummary.avgScore :=
                if (0 <? length scores)%nat
                then (inject_Z (Z.of_nat (fold_left Nat.add scores 0%nat))
                      / inject_Z (Z.of_nat (length scores)))%Q
                else 0%Q;
              ConfigSummary.scoreDistribution := scoreDistribution;
              ConfigSummary.failedPatterns := failedPatterns |}
  end.

(** [configMap.forEach(...)], stopping at a summary that throws. *)
Fixpoint summarize_all (configMap : ConfigMap) : option (list ConfigSummary.t) :=
  match configMap with
  | [] => Some []
  | (label, tests) :: rest =>
      match summarize label tests, summarize_all rest with
      | Some summary, Some summaries => Some (summary :: summaries)
      | _, _ => None
      end
  end.

Definition calculateSummary (testResults : list TestResult) : option TestSummary.t :=
  let configMap := fold_left group_result testResults [] in
  match summarize_all configMap with
  | None => None
  | Some configSummaries =>
      let configSummaries :=
        js_sort (fun a b => (ConfigSummary.passRate b - ConfigSummary.passRate a)%Q)
          configSummaries in
      let totalPassed := length (List.filter passed testResults) in
      Some {| TestSummary.configSummaries := configSummaries;
              TestSummary.bestConfig :=
                match configSummaries with
                | best :: _ => Some (ConfigSummary.label best)
                | [] => None
                end;
              TestSummary.worstConfig :=
                match last configSummaries with
                | Some worst => Some (ConfigSummary.label worst)
                | None => None
                end;
              TestSummary.totalPassRate :=
                if (0 <? length testResults)%nat
                then (inject_Z (Z.of_nat totalPassed)
                      / inject_Z (Z.of_nat (length testResults)) * 100)%Q
                else 0%Q;
              TestSummary.totalTests := length testResults |}
  end.

(** [toggleVolume], as the update of [selectedVolumes] it asks for. *)
Definition toggleVolume (volume : Q) (prev : list Q) : list Q :=
  if existsb (Qeq_bool volume) prev
  then List.filter (fun v => negb (Qeq_bool v volume)) prev
  else js_sort (fun a b => (b - a)%Q) (prev ++ [volume]).

End AutoTest.


Section LocalTest.

Variable Math_log10 : Q -> Q.







End LocalTest.


(** ** [firebase.ts]: the passcode of a session *)

(** [Math.floor(100000 + Math.random() * 900000).toString()]: the product
    and the sum are rounded to doubles before the floor is taken; the text of
    an integer is its decimal digits. *)
Definition createSession_passcode (r : Random) : string * Random :=
  let (x, r) := Math_random r in
  (pretty (Qfloor (binary64 (100000 + binary64 (x * 900000)))), r).

(** A decimal digit. *)
Definition is_digit (c : ascii) : Prop :=
  (48 <= nat_of_ascii c <= 57)%nat.

(** ** Further predicates of the properties *)

(** Is the [emit] that is started in [w] rejected: the emitter has no audio
    context and the browser refuses [init] a new one. *)
Definition emit_rejects (w : World) : bool :=
  match emitterRef w with
  | Some e =>
      match audioContext e with
      | None => initFails w (awaits w)
      | Some _ => false
      end
  | None => false
  end.

(** What no step of the coordinator changes: the answers of the environment. *)
Record same_host (w w' : World) : Prop := {
  host_lateness : lateness w' = lateness w;
  host_writeFails : writeFails w' = writeFails w;
  host_snapshots : snapshots w' = snapshots w;
  host_audioTime : audioTime w' = audioTime w;
  host_initFails : initFails w' = initFails w;
  host_drawsMeanwhile : drawsMeanwhile w' = drawsMeanwhile w
}.

(** What a trace has when one batch has been served and nothing written
    'failed'. *)
Record served (students : list QueueEntry) (pattern : list PulseType)
    (config : EmitterConfig) (new : list Effect) : Prop := {
  served_emitting : written Firebase.emitting new = map Firebase.id students;
  served_submitted : written Firebase.submitted new = map Firebase.id students;
  served_failed : written Firebase.failed new = [];
  served_emission : emissions new = [(pattern, config)]
}.

(** The results with a label, in their order. *)
Definition with_label (label : string) (results : list AutoTest.TestResult)
    : list AutoTest.TestResult :=
  List.filter (fun r => String.eqb (AutoTest.configLabel r) label) results.

(** What [summarize] says of a group that is not empty. *)
Record summary_of (tests : list AutoTest.TestResult) (c : AutoTest.ConfigSummary.t)
    : Prop := {
  summary_total : AutoTest.ConfigSummary.totalTests c = length tests;
  summary_some : (1 <= AutoTest.ConfigSummary.totalTests c)%nat;
  summary_pass : AutoTest.ConfigSummary.passCount c
                 = length (List.filter AutoTest.passed tests);
  summary_pass_le : (AutoTest.ConfigSummary.passCount c
                     <= AutoTest.ConfigSummary.totalTests c)%nat;
  summary_rate : (AutoTest.ConfigSummary.passRate c
                  * inject_Z (Z.of_nat (AutoTest.ConfigSummary.totalTests c))
                  == 100 * inject_Z (Z.of_nat (AutoTest.ConfigSummary.passCount c)))%Q;
  summary_rate_range : (0 <= AutoTest.ConfigSummary.passRate c <= 100)%Q;
  summary_failed : (length (AutoTest.ConfigSummary.failedPatterns c) <= 3)%nat;
  summary_scores : forall s,
    default 0%nat (AutoTest.ConfigSummary.scoreDistribution c !! s)
    = length (List.filter (fun t => Nat.eqb s (AutoTest.matchScore t)) tests);
  summary_score_keys : forall s, (s <= 6)%nat ->
    is_Some (AutoTest.ConfigSummary.scoreDistribution c !! s)
}.

(* ===================================================================== *)
(** * Part II: properties *)
(* ===================================================================== *)

(** ** Numbers *)

Lemma Qltb_lt (a b : Q) : Qltb a b = true <-> (a < b)%Q.
Proof.
  unfold Qltb. rewrite negb_true_iff, <- not_true_iff_false, Qle_bool_iff.
  split; [apply Qnot_le_lt | apply Qlt_not_le].
Qed.

Lemma Qltb_ge (a b : Q) : Qltb a b = false <-> (b <= a)%Q.
Proof.
  unfold Qltb. rewrite negb_false_iff. apply Qle_bool_iff.
Qed.

Lemma Qltb_nat (i n : nat) :
  Qltb (inject_Z (Z.of_nat i)) (inject_Z (Z.of_nat n)) = (i <? n)%nat.
Proof.
  destruct (Nat.ltb_spec i n) as [Hlt | Hge].
  - apply Qltb_lt. rewrite <- Zlt_Qlt. lia.
  - apply Qltb_ge. rewrite <- Zle_Qle. lia.
Qed.

(** ** The rounding of binary64 arithmetic *)

Section Binary64.

Local Open Scope Q_scope.

Lemma two_power_pos (k : Z) : 0 < 2 ^ k.
Proof. apply Qpower_0_lt. reflexivity. Qed.

Lemma two_power_inject (k : Z) : (0 <= k)%Z -> inject_Z (2 ^ k) == 2 ^ k.
Proof. intros Hk. now rewrite Zpower_Qpower. Qed.

Lemma Qdiv_le_cross (a b c d : Q) :
  0 < b -> 0 < d -> a * d <= c * b -> a / b <= c / d.
Proof.
  intros Hb Hd H. apply Qle_shift_div_l; [exact Hd|].
  setoid_replace (a / b * d) with (a * d / b) using relation Qeq
    by (field; intros H0; rewrite H0 in Hb; inversion Hb).
  now apply Qle_shift_div_r.
Qed.

Lemma Qdiv_lt_cross (a b c d : Q) :
  0 < b -> 0 < d -> a * d < c * b -> a / b < c / d.
Proof.
  intros Hb Hd H. apply Qlt_shift_div_l; [exact Hd|].
  setoid_replace (a / b * d) with (a * d / b) using relation Qeq
    by (field; intros H0; rewrite H0 in Hb; inversion Hb).
  now apply Qlt_shift_div_r.
Qed.

Lemma floor_log2_spec (x : Q) :
  0 < x -> 2 ^ floor_log2 x <= x /\ x < 2 ^ (floor_log2 x + 1).
Proof.
  intros Hx. destruct x as [n d]. unfold floor_log2. cbn [Qnum Qden].
  assert (Hn : (0 < n)%Z) by (unfold Qlt in Hx; simpl in Hx; lia).
  set (a := Z.log2 n). set (b := Z.log2 (Z.pos d)).
  destruct (Z.log2_spec n Hn) as [Ha1 Ha2]. fold a in Ha1, Ha2.
  destruct (Z.log2_spec (Z.pos d) eq_refl) as [Hb1 Hb2]. fold b in Hb1, Hb2.
  assert (Ha : (0 <= a)%Z) by apply Z.log2_nonneg.
  assert (Hb : (0 <= b)%Z) by apply Z.log2_nonneg.
  unfold Z.succ in Ha2, Hb2.
  assert (Hd : 0 < inject_Z (Z.pos d)) by reflexivity.
  assert (Hlow : 2 ^ (a - b - 1) <= n # d).
  { replace (a - b - 1)%Z with (a - (b + 1))%Z by lia.
    rewrite Qpower_minus by discriminate.
    rewrite <- !two_power_inject by lia. rewrite Qmake_Qdiv.
    apply Qdiv_le_cross; [|exact Hd|].
    - rewrite two_power_inject by lia. apply two_power_pos.
    - rewrite <- !inject_Z_mult, <- Zle_Qle. nia. }
  assert (Hhigh : n # d < 2 ^ (a - b + 1)).
  { replace (a - b + 1)%Z with (a + 1 - b)%Z by lia.
    rewrite Qpower_minus by discriminate.
    rewrite <- !two_power_inject by lia. rewrite Qmake_Qdiv.
    apply Qdiv_lt_cross; [exact Hd| |].
    - rewrite two_power_inject by lia. apply two_power_pos.
    - rewrite <- !inject_Z_mult, <- Zlt_Qlt. nia. }
  destruct (Qle_bool (2 ^ (a - b)) (n # d)) eqn:Hk.
  - split; [now apply Qle_bool_iff|exact Hhigh].
  - split; [exact Hlow|].
    replace (a - b - 1 + 1)%Z with (a - b)%Z by lia.
    apply Qnot_le_lt. intros Hle. apply Qle_bool_iff in Hle. congruence.
Qed.

Lemma floor_log2_unique (x : Q) (k : Z) :
  2 ^ k <= x -> x < 2 ^ (k + 1) -> floor_log2 x = k.
Proof.
  intros Hlow Hhigh.
  assert (Hx : 0 < x) by (eapply Qlt_le_trans; [apply (two_power_pos k) | exact Hlow]).
  destruct (floor_log2_spec x Hx) as [Hl Hh].
  assert (H1 : (floor_log2 x < k + 1)%Z).
  { apply (Qpower_lt_compat_l_inv 2); [|reflexivity].
    eapply Qle_lt_trans; [exact Hl | exact Hhigh]. }
  assert (H2 : (k < floor_log2 x + 1)%Z).
  { apply (Qpower_lt_compat_l_inv 2); [|reflexivity].
    eapply Qle_lt_trans; [exact Hlow | exact Hh]. }
  lia.
Qed.

Lemma floor_log2_le (x y : Q) :
  0 < x -> x <= y -> (floor_log2 x <= floor_log2 y)%Z.
Proof.
  intros Hx Hxy.
  assert (Hy : 0 < y) by (eapply Qlt_le_trans; eauto).
  destruct (floor_log2_spec x Hx) as [Hl _].
  destruct (floor_log2_spec y Hy) as [_ Hh].
  assert (H : (floor_log2 x < floor_log2 y + 1)%Z).
  { apply (Qpower_lt_compat_l_inv 2); [|reflexivity].
    eapply Qle_lt_trans; [exact Hl|]. eapply Qle_lt_trans; [exact Hxy | exact Hh]. }
  lia.
Qed.

Lemma round_half_even_cases (q : Q) :
  let n := Qfloor q in
  (round_half_even q = n /\ q - inject_Z n <= 1 # 2)
  \/ (round_half_even q = (n + 1)%Z /\ 1 # 2 <= q - inject_Z n).
Proof.
  intros n. unfold round_half_even. fold n.
  destruct (Qcompare_spec (q - inject_Z n) (1 # 2)) as [H | H | H].
  - destruct (Z.even n); [left | right]; split; auto; rewrite H; apply Qle_refl.
  - left. split; [reflexivity | now apply Qlt_le_weak].
  - right. split; [reflexivity | now apply Qlt_le_weak].
Qed.

Lemma round_half_even_error (q : Q) :
  Qabs (inject_Z (round_half_even q) - q) <= 1 # 2.
Proof.
  pose proof (Qfloor_le q) as Hlow. pose proof (Qlt_floor q) as Hhigh.
  rewrite inject_Z_plus in Hhigh.
  apply Qabs_Qle_condition.
  destruct (round_half_even_cases q) as [[-> H] | [-> H]];
    rewrite ?inject_Z_plus; change (inject_Z 1) with 1 in *; split; lra.
Qed.

Lemma round_half_even_Z (n : Z) : round_half_even (inject_Z n) = n.
Proof.
  unfold round_half_even. rewrite Qfloor_Z.
  replace (Qcompare (inject_Z n - inject_Z n) (1 # 2)) with Lt; [reflexivity|].
  symmetry. apply (proj1 (Qlt_alt _ _)).
  setoid_replace (inject_Z n - inject_Z n) with 0 using relation Qeq by ring. reflexivity.
Qed.

Lemma round_half_even_le (p q : Q) :
  p <= q -> (round_half_even p <= round_half_even q)%Z.
Proof.
  intros Hpq.
  pose proof (Qfloor_resp_le _ _ Hpq) as Hfloor.
  pose proof (Qfloor_le p) as Hp1. pose proof (Qlt_floor p) as Hp2.
  pose proof (Qfloor_le q) as Hq1. pose proof (Qlt_floor q) as Hq2.
  rewrite inject_Z_plus in Hp2, Hq2. change (inject_Z 1) with 1 in *.
  destruct (Z.eq_dec (Qfloor p) (Qfloor q)) as [Heq | Hne].
  - unfold round_half_even. rewrite <- Heq.
    destruct (Qcompare_spec (p - inject_Z (Qfloor p)) (1 # 2)) as [H | H | H];
      destruct (Qcompare_spec (q - inject_Z (Qfloor p)) (1 # 2)) as [H' | H' | H'];
      try (destruct (Z.even (Qfloor p))); try lia; exfalso; lra.
  - destruct (round_half_even_cases p) as [[-> _] | [-> _]];
      destruct (round_half_even_cases q) as [[-> _] | [-> _]]; lia.
Qed.

Lemma round_half_even_comp (p q : Q) :
  p == q -> round_half_even p = round_half_even q.
Proof.
  intros H. apply Z.le_antisymm; apply round_half_even_le; rewrite H; apply Qle_refl.
Qed.

Lemma binary64_magnitude_error (x : Q) :
  0 < x ->
  Qabs (binary64_magnitude x - x) <= x * 2 ^ (-53) + 2 ^ (-1075).
Proof.
  intros Hx. unfold binary64_magnitude.
  set (e := binary64_exponent x).
  pose proof (two_power_pos e) as Hp.
  pose proof (round_half_even_error (x / 2 ^ e)) as Herr.
  set (r := inject_Z (round_half_even (x / 2 ^ e))) in *.
  assert (Hdiff : r * 2 ^ e - x == (r - x / 2 ^ e) * 2 ^ e).
  { field. intros H0. rewrite H0 in Hp. inversion Hp. }
  rewrite Hdiff, Qabs_Qmult, (Qabs_pos (2 ^ e)) by now apply Qlt_le_weak.
  assert (Hhalf : Qabs (r - x / 2 ^ e) * 2 ^ e <= (1 # 2) * 2 ^ e).
  { apply Qmult_le_compat_r; [exact Herr | now apply Qlt_le_weak]. }
  eapply Qle_trans; [exact Hhalf|].
  assert (Hcase : (1 # 2) * 2 ^ e <= x * 2 ^ (-53) \/ (1 # 2) * 2 ^ e == 2 ^ (-1075)).
  { unfold e, binary64_exponent.
    destruct (Z.max_spec (floor_log2 x - 52) (-1074)) as [[_ ->] | [_ ->]].
    - right. reflexivity.
    - left. destruct (floor_log2_spec x Hx) as [Hlow _].
      replace (floor_log2 x - 52)%Z with (floor_log2 x + (-52))%Z by lia.
      rewrite Qpower_plus by discriminate.
      change (2 ^ (-53)) with ((1 # 2) * 2 ^ (-52)).
      set (c := 2 ^ (-52)) in *.
      assert (Hc : 0 < c) by reflexivity.
      clearbody c.
      assert (H : 2 ^ floor_log2 x * c <= x * c)
        by (apply Qmult_le_compat_r; [exact Hlow | now apply Qlt_le_weak]).
      lra. }
  pose proof (two_power_pos (-1075)) as Heta.
  assert (Hxc : 0 <= x * 2 ^ (-53)).
  { apply Qmult_le_0_compat; [now apply Qlt_le_weak | discriminate]. }
  destruct Hcase as [H | H]; [|rewrite H]; lra.
Qed.

Lemma binary64_magnitude_zero (x : Q) : x == 0 -> binary64_magnitude x == 0.
Proof.
  intros Hx. unfold binary64_magnitude.
  generalize (binary64_exponent x). intros e.
  rewrite (round_half_even_comp _ (inject_Z 0)).
  - rewrite round_half_even_Z. ring.
  - rewrite Hx. unfold Qdiv. ring.
Qed.

Lemma binary64_magnitude_nonneg (x : Q) : 0 <= x -> 0 <= binary64_magnitude x.
Proof.
  intros Hx. unfold binary64_magnitude.
  set (e := binary64_exponent x). pose proof (two_power_pos e) as Hp.
  apply Qmult_le_0_compat; [|now apply Qlt_le_weak].
  change 0 with (inject_Z 0). rewrite <- Zle_Qle.
  rewrite <- (round_half_even_Z 0). apply round_half_even_le.
  apply Qle_shift_div_l; [exact Hp|]. change (inject_Z 0) with 0. lra.
Qed.

Lemma binary64_exponent_le (x y : Q) :
  0 < x -> x <= y -> (binary64_exponent x <= binary64_exponent y)%Z.
Proof.
  intros Hx Hxy. unfold binary64_exponent.
  pose proof (floor_log2_le x y Hx Hxy). lia.
Qed.

Lemma binary64_magnitude_scaled (x : Q) :
  binary64_magnitude x / 2 ^ binary64_exponent x
  == inject_Z (round_half_even (x / 2 ^ binary64_exponent x)).
Proof.
  unfold binary64_magnitude. pose proof (two_power_pos (binary64_exponent x)) as Hp.
  field. intros H0. rewrite H0 in Hp. inversion Hp.
Qed.

Lemma binary64_magnitude_le_power (x : Q) (k : Z) :
  0 < x -> (binary64_exponent x <= k)%Z -> x <= 2 ^ k * 2 ^ 53 ->
  binary64_magnitude x <= 2 ^ k * 2 ^ 53.
Proof.
  intros Hx Hk Hle. unfold binary64_magnitude.
  set (e := binary64_exponent x) in *. pose proof (two_power_pos e) as Hp.
  assert (Hsplit : 2 ^ k == 2 ^ (k - e) * 2 ^ e).
  { rewrite <- Qpower_plus by discriminate. now replace (k - e + e)%Z with k by lia. }
  rewrite Hsplit in Hle |- *.
  assert (Hint : 2 ^ (k - e) * 2 ^ 53 == inject_Z (2 ^ (k - e) * 2 ^ 53)).
  { rewrite inject_Z_mult, !two_power_inject by lia. reflexivity. }
  setoid_replace (2 ^ (k - e) * 2 ^ e * 2 ^ 53) with (2 ^ (k - e) * 2 ^ 53 * 2 ^ e)
    using relation Qeq by ring.
  setoid_replace (2 ^ (k - e) * 2 ^ e * 2 ^ 53) with (2 ^ (k - e) * 2 ^ 53 * 2 ^ e)
    using relation Qeq in Hle by ring.
  apply Qmult_le_compat_r; [|now apply Qlt_le_weak].
  rewrite Hint, <- Zle_Qle.
  rewrite <- (round_half_even_Z (2 ^ (k - e) * 2 ^ 53)).
  apply round_half_even_le. rewrite <- Hint.
  now apply Qle_shift_div_r.
Qed.

Lemma binary64_magnitude_ge_power (x : Q) (k : Z) :
  0 < x -> (binary64_exponent x <= k)%Z -> 2 ^ k <= x ->
  2 ^ k <= binary64_magnitude x.
Proof.
  intros Hx Hk Hle. unfold binary64_magnitude.
  set (e := binary64_exponent x) in *. pose proof (two_power_pos e) as Hp.
  assert (Hsplit : 2 ^ k == 2 ^ (k - e) * 2 ^ e).
  { rewrite <- Qpower_plus by discriminate. now replace (k - e + e)%Z with k by lia. }
  rewrite Hsplit in Hle |- *.
  apply Qmult_le_compat_r; [|now apply Qlt_le_weak].
  rewrite <- two_power_inject by lia. rewrite <- Zle_Qle.
  rewrite <- (round_half_even_Z (2 ^ (k - e))) at 1.
  apply round_half_even_le. rewrite two_power_inject by lia.
  now apply Qle_shift_div_l.
Qed.

Lemma binary64_magnitude_le (x y : Q) :
  0 <= x -> x <= y -> binary64_magnitude x <= binary64_magnitude y.
Proof.
  intros Hx Hxy.
  destruct (Qlt_le_dec 0 x) as [Hpos | Hzero].
  2:{ rewrite (binary64_magnitude_zero x) by lra.
      apply binary64_magnitude_nonneg. lra. }
  assert (Hy : 0 < y) by lra.
  pose proof (binary64_exponent_le x y Hpos Hxy) as He.
  destruct (Z.eq_dec (binary64_exponent x) (binary64_exponent y)) as [Heq | Hne].
  - unfold binary64_magnitude. rewrite Heq.
    set (e := binary64_exponent y). pose proof (two_power_pos e) as Hp.
    apply Qmult_le_compat_r; [|now apply Qlt_le_weak].
    rewrite <- Zle_Qle. apply round_half_even_le.
    apply Qmult_le_compat_r; [exact Hxy|].
    apply Qlt_le_weak, Qinv_lt_0_compat, Hp.
  - set (ex := binary64_exponent x) in *. set (ey := binary64_exponent y) in *.
    destruct (floor_log2_spec x Hpos) as [_ Hhigh].
    destruct (floor_log2_spec y Hy) as [Hlow _].
    assert (Hex : (floor_log2 x - 52 <= ex)%Z) by (unfold ex, binary64_exponent; lia).
    assert (Hey : ey = (floor_log2 y - 52)%Z).
    { assert (-1074 <= ex)%Z by (unfold ex, binary64_exponent; lia).
      unfold ey, binary64_exponent in *. lia. }
    apply (Qle_trans _ (2 ^ ex * 2 ^ 53)).
    + apply binary64_magnitude_le_power; [exact Hpos | fold ex; lia |].
      rewrite <- Qpower_plus by discriminate.
      apply Qlt_le_weak. eapply Qlt_le_trans; [exact Hhigh|].
      apply Qpower_le_compat_l; [lia | discriminate].
    + apply (Qle_trans _ (2 ^ (ey + 52))).
      * rewrite <- Qpower_plus by discriminate.
        apply Qpower_le_compat_l; [lia | discriminate].
      * apply binary64_magnitude_ge_power; [exact Hy | fold ey; lia |].
        now replace (ey + 52)%Z with (floor_log2 y) by lia.
Qed.

Lemma binary64_spec (x : Q) :
  binary64 x == if Qltb x 0 then - binary64_magnitude (- x) else binary64_magnitude x.
Proof. unfold binary64. apply Qred_correct. Qed.

Lemma binary64_le (x y : Q) : x <= y -> binary64 x <= binary64 y.
Proof.
  intros Hxy. rewrite !binary64_spec.
  destruct (Qltb x 0) eqn:Hx, (Qltb y 0) eqn:Hy.
  - apply Qltb_lt in Hx, Hy.
    apply Qopp_le_compat. apply binary64_magnitude_le; lra.
  - apply Qltb_lt in Hx. apply Qltb_ge in Hy.
    pose proof (binary64_magnitude_nonneg (- x)).
    pose proof (binary64_magnitude_nonneg y). lra.
  - apply Qltb_ge in Hx. apply Qltb_lt in Hy. lra.
  - apply Qltb_ge in Hx, Hy. now apply binary64_magnitude_le.
Qed.

Lemma binary64_error (x : Q) :
  Qabs (binary64 x - x) <= Qabs x * 2 ^ (-53) + 2 ^ (-1075).
Proof.
  rewrite binary64_spec.
  destruct (Qltb x 0) eqn:Hx.
  - apply Qltb_lt in Hx.
    setoid_replace (- binary64_magnitude (- x) - x)
      with (- (binary64_magnitude (- x) - - x)) using relation Qeq by ring.
    rewrite Qabs_opp, (Qabs_neg x) by lra.
    apply binary64_magnitude_error. lra.
  - apply Qltb_ge in Hx. rewrite (Qabs_pos x) by exact Hx.
    destruct (Qlt_le_dec 0 x) as [Hpos | Hzero].
    + now apply binary64_magnitude_error.
    + assert (H0 : x == 0) by lra.
      rewrite (binary64_magnitude_zero x H0), H0.
      vm_compute. discriminate.
Qed.

Lemma binary64_comp (x y : Q) : x == y -> binary64 x = binary64 y.
Proof.
  intros Hxy. unfold binary64. apply Qred_eq_iff. rewrite <- !binary64_spec.
  apply Qle_antisym; apply binary64_le; rewrite Hxy; apply Qle_refl.
Qed.

(** A double below 1 is at most 1 - 2^-53. *)
Lemma binary64_below_one (x : Q) :
  0 <= x -> x < 1 -> binary64 x == x -> x <= 1 - 2 ^ (-53).
Proof.
  intros Hlo Hhi Hdouble.
  destruct (Qlt_le_dec (1 - 2 ^ (-53)) x) as [Hnear | Hfar]; [|exact Hfar].
  exfalso.
  assert (Hlog : floor_log2 x = (-1)%Z).
  { apply floor_log2_unique.
    - change (2 ^ (-1)) with (1 # 2). change (2 ^ (-53)) with (1 # 9007199254740992) in Hnear. lra.
    - exact Hhi. }
  rewrite binary64_spec in Hdouble.
  replace (Qltb x 0) with false in Hdouble
    by (symmetry; now apply Qltb_ge).
  unfold binary64_magnitude, binary64_exponent in Hdouble. rewrite Hlog in Hdouble.
  change (Z.max (-1 - 52) (-1074)) with (-53)%Z in Hdouble.
  set (k := round_half_even (x / 2 ^ (-53))) in *.
  change (2 ^ (-53)) with (1 # 9007199254740992) in *.
  assert (Hk : inject_Z k == x * 9007199254740992) by (rewrite <- Hdouble; field).
  assert (H1 : inject_Z 9007199254740991 < inject_Z k).
  { rewrite Hk. change (inject_Z 9007199254740991) with 9007199254740991. lra. }
  assert (H2 : inject_Z k < inject_Z 9007199254740992).
  { rewrite Hk. change (inject_Z 9007199254740992) with 9007199254740992. lra. }
  rewrite <- Zlt_Qlt in H1, H2. lia.
Qed.

(** The number [createSession] takes the floor of. *)
Lemma passcode_range (x : Q) :
  0 <= x -> x <= 1 - 2 ^ (-53) ->
  (100000 <= Qfloor (binary64 (100000 + binary64 (x * 900000))) <= 999999)%Z.
Proof.
  intros Hlo Hhi.
  change (2 ^ (-53)) with (1 # 9007199254740992) in Hhi.
  assert (Hy1 : binary64 0 <= binary64 (x * 900000)) by (apply binary64_le; lra).
  assert (Hy2 : binary64 (x * 900000)
                <= binary64 ((1 - (1 # 9007199254740992)) * 900000))
    by (apply binary64_le; lra).
  set (y := binary64 (x * 900000)) in *.
  replace (binary64 0) with 0 in Hy1 by (vm_compute; reflexivity).
  replace (binary64 ((1 - (1 # 9007199254740992)) * 900000))
    with (7730941132799999 # 8589934592) in Hy2 by (vm_compute; reflexivity).
  assert (Hz1 : binary64 100000 <= binary64 (100000 + y)) by (apply binary64_le; lra).
  assert (Hz2 : binary64 (100000 + y)
                <= binary64 (100000 + (7730941132799999 # 8589934592)))
    by (apply binary64_le; lra).
  set (z := binary64 (100000 + y)) in *.
  replace (binary64 100000) with 100000 in Hz1 by (vm_compute; reflexivity).
  replace (binary64 (100000 + (7730941132799999 # 8589934592)))
    with (8589934591999999 # 8589934592) in Hz2 by (vm_compute; reflexivity).
  clearbody z. split.
  - assert (H : (Qfloor (inject_Z 100000) <= Qfloor z)%Z).
    { apply Qfloor_resp_le. exact Hz1. }
    now rewrite Qfloor_Z in H.
  - pose proof (Qfloor_le z) as Hle.
    assert (Hlt : inject_Z (Qfloor z) < inject_Z 1000000).
    { eapply Qle_lt_trans; [exact Hle|].
      eapply Qle_lt_trans; [exact Hz2|]. reflexivity. }
    rewrite <- Zlt_Qlt in Hlt. lia.
Qed.

End Binary64.

(** ** [patternUtils.ts]: the matching loop computes the greedy count *)

Section Matching.

Implicit Types emitted detected : list PulseType.

Lemma PulseType_eqb_eq (a b : PulseType) : PulseType_eqb a b = true <-> a = b.
Proof. destruct a, b; simpl; split; congruence. Qed.

Lemma PulseType_eqb_refl (a : PulseType) : PulseType_eqb a a = true.
Proof. now apply PulseType_eqb_eq. Qed.

Lemma greedy_match_nil_l detected : greedy_match [] detected = 0%nat.
Proof. now destruct detected. Qed.

Lemma greedy_match_le emitted detected :
  (greedy_match emitted detected <= length emitted)%nat.
Proof.
  revert emitted. induction detected as [|d ds IH]; intros [|e es]; simpl; try lia.
  destruct (PulseType_eqb e d).
  - specialize (IH es). lia.
  - specialize (IH (e :: es)). simpl in IH. lia.
Qed.

Lemma greedy_match_same emitted : greedy_match emitted emitted = length emitted.
Proof.
  induction emitted as [|e es IH]; simpl; [reflexivity|].
  now rewrite PulseType_eqb_refl, IH.
Qed.

Lemma greedy_match_exhausted emitted detected noise :
  greedy_match emitted detected = length emitted ->
  greedy_match emitted (detected ++ noise) = length emitted.
Proof.
  revert emitted. induction detected as [|d ds IH]; intros emitted Hfull.
  - destruct emitted; [apply greedy_match_nil_l | discriminate].
  - destruct emitted as [|e es]; [reflexivity|]. simpl in *.
    destruct (PulseType_eqb e d).
    + f_equal. apply IH. congruence.
    + now apply (IH (e :: es)).
Qed.

(** Invariant of the [while] loop: what has been matched so far, plus the
    greedy count of what remains of both arrays. *)
Lemma comparePatterns_loop_greedy fuel emitted detected s :
  (length detected - detectIndex s <= fuel)%nat ->
  length (matchedPositions (comparePatterns_loop fuel emitted detected s))
  = (length (matchedPositions s)
     + greedy_match (drop (emitIndex s) emitted) (drop (detectIndex s) detected))%nat.
Proof.
  revert s. induction fuel as [|fuel IH]; intros [ei di mp] Hfuel; simpl in *.
  - rewrite (drop_ge detected) by lia. simpl. lia.
  - destruct (Nat.ltb_spec ei (length emitted)) as [He | He]; simpl.
    2:{ rewrite (drop_ge emitted) by lia. rewrite greedy_match_nil_l. lia. }
    destruct (Nat.ltb_spec di (length detected)) as [Hd | Hd]; simpl.
    2:{ rewrite (drop_ge detected) by lia. simpl. lia. }
    destruct (lookup_lt_is_Some_2 emitted ei He) as [e Hei].
    destruct (lookup_lt_is_Some_2 detected di Hd) as [d Hdi].
    unfold same_symbol. simpl. rewrite Hei, Hdi.
    rewrite (drop_S emitted e ei Hei), (drop_S detected d di Hdi). simpl.
    destruct (PulseType_eqb e d); rewrite IH by (simpl; lia); simpl.
    + rewrite length_app. simpl. lia.
    + rewrite (drop_S emitted e ei Hei). reflexivity.
Qed.

(** The loop test fails on the state the loop returns: the fuel was enough. *)
Lemma comparePatterns_loop_exit fuel emitted detected s :
  (length detected - detectIndex s <= fuel)%nat ->
  let s' := comparePatterns_loop fuel emitted detected s in
  (emitIndex s' <? length emitted)%nat && (detectIndex s' <? length detected)%nat
  = false.
Proof.
  revert s. induction fuel as [|fuel IH]; intros [ei di mp] Hfuel; simpl in *.
  - apply andb_false_iff. right. apply Nat.ltb_ge. lia.
  - destruct ((ei <? length emitted)%nat && (di <? length detected)%nat) eqn:Htest.
    + apply IH. destruct (same_symbol _ _ _); simpl; lia.
    + simpl. exact Htest.
Qed.

Lemma comparePatterns_loop_fuel fuel1 fuel2 emitted detected s :
  (length detected - detectIndex s <= fuel1)%nat ->
  (length detected - detectIndex s <= fuel2)%nat ->
  comparePatterns_loop fuel1 emitted detected s
  = comparePatterns_loop fuel2 emitted detected s.
Proof.
  revert fuel2 s.
  induction fuel1 as [|fuel1 IH]; intros [|fuel2] [ei di mp] H1 H2;
    simpl in *; try reflexivity.
  - replace (di <? length detected)%nat with false
      by (symmetry; apply Nat.ltb_ge; lia).
    now rewrite andb_false_r.
  - replace (di <? length detected)%nat with false
      by (symmetry; apply Nat.ltb_ge; lia).
    now rewrite andb_false_r.
  - destruct ((ei <? length emitted)%nat && (di <? length detected)%nat);
      [|reflexivity].
    apply IH; destruct (same_symbol _ _ _); simpl; lia.
Qed.

Lemma comparePatterns_matchCount emitted detected :
  matchCount (comparePatterns emitted detected) = greedy_match emitted detected.
Proof.
  unfold comparePatterns. simpl.
  rewrite comparePatterns_loop_greedy by (simpl; lia). reflexivity.
Qed.

Lemma comparePatterns_passed emitted detected :
  passed (comparePatterns emitted detected)
  = (PASS_THRESHOLD <=? matchCount (comparePatterns emitted detected))%nat.
Proof. reflexivity. Qed.

Lemma PASS_THRESHOLD_value : PASS_THRESHOLD = 5%nat.
Proof. reflexivity. Qed.

End Matching.

(** ** [patternUtils.ts]: [generatePattern] *)

Lemma generatePattern_loop_spec fuel (n i : nat) pattern r :
  (n - i <= fuel)%nat ->
  let out := generatePattern_loop fuel (inject_Z (Z.of_nat n)) i pattern r in
  length (fst out) = (length pattern + (n - i))%nat
  /\ (Forall high_or_low pattern -> Forall high_or_low (fst out))
  /\ next_draw (snd out) = (next_draw r + (n - i))%nat.
Proof.
  revert i pattern r.
  induction fuel as [|fuel IH]; intros i pattern r Hfuel; simpl.
  - replace (n - i)%nat with 0%nat by lia. rewrite !Nat.add_0_r. tauto.
  - rewrite Qltb_nat. destruct (Nat.ltb_spec i n) as [Hlt | Hge]; simpl.
    + destruct (IH (S i) (pattern ++ [if Qltb (draws r (next_draw r)) 0.5 then PH else PL])
                  {| draws := draws r; next_draw := S (next_draw r) |}) as (Hlen & Hsym & Hdraw);
        [lia|].
      rewrite Hlen, Hdraw, length_app. simpl. repeat split; try lia.
      intros Hp. apply Hsym. apply Forall_app. split; [exact Hp|].
      constructor; [|constructor].
      destruct (Qltb _ _); [left | right]; reflexivity.
    + replace (n - i)%nat with 0%nat by lia. rewrite !Nat.add_0_r. tauto.
Qed.

(** For any length, whole or not, the fuel [ceil(length)] lets the loop run
    until its test fails: more fuel changes nothing. *)
Lemma generatePattern_loop_fuel fuel1 fuel2 (length : Q) (i : nat) pattern r :
  (Qceiling length - Z.of_nat i <= Z.of_nat fuel1)%Z ->
  (Qceiling length - Z.of_nat i <= Z.of_nat fuel2)%Z ->
  generatePattern_loop fuel1 length i pattern r
  = generatePattern_loop fuel2 length i pattern r.
Proof.
  assert (Hstop : forall i : nat, (Qceiling length <= Z.of_nat i)%Z ->
                    Qltb (inject_Z (Z.of_nat i)) length = false).
  { intros k Hk. apply Qltb_ge.
    eapply Qle_trans; [apply Qle_ceiling|]. now rewrite <- Zle_Qle. }
  revert fuel2 i pattern r.
  induction fuel1 as [|fuel1 IH]; intros [|fuel2] i pattern r H1 H2; simpl;
    try reflexivity.
  - now rewrite Hstop by lia.
  - now rewrite Hstop by lia.
  - destruct (Qltb (inject_Z (Z.of_nat i)) length); [|reflexivity].
    apply IH; lia.
Qed.

Lemma generatePattern_spec (n : nat) r :
  let out := generatePattern (Some (inject_Z (Z.of_nat n))) r in
  length (fst out) = n
  /\ Forall high_or_low (fst out)
  /\ next_draw (snd out) = (next_draw r + n)%nat.
Proof.
  unfold generatePattern. rewrite Qceiling_Z, Nat2Z.id.
  destruct (generatePattern_loop_spec n n 0 [] r) as (Hlen & Hsym & Hdraw); [lia|].
  rewrite Nat.sub_0_r in *. simpl in Hlen. repeat split; auto.
Qed.

(** ** [Array.prototype.sort]: permutation, order, and what a prefix keeps *)

Section JsSortFacts.

Context {A : Type}.
Variable compareFn : A -> A -> Q.

Lemma js_sort_insert_Permutation (x : A) (l : list A) :
  js_sort_insert compareFn x l ≡ₚ x :: l.
Proof.
  induction l as [|y l IH]; simpl; [reflexivity|].
  destruct (Qle_bool (compareFn x y) 0); [reflexivity|].
  rewrite IH. apply Permutation_swap.
Qed.

Lemma js_sort_Permutation (l : list A) : js_sort compareFn l ≡ₚ l.
Proof.
  induction l as [|x l IH]; simpl; [reflexivity|].
  rewrite js_sort_insert_Permutation. now rewrite IH.
Qed.

Lemma js_sort_length (l : list A) : length (js_sort compareFn l) = length l.
Proof. apply Permutation_length, js_sort_Permutation. Qed.

(** A comparator that compares a numeric key. *)
Variable key : A -> Q.
Hypothesis compareFn_key :
  forall a b, (compareFn a b <= 0)%Q <-> (key a <= key b)%Q.

Definition key_le (a b : A) : Prop := (key a <= key b)%Q.

Lemma js_sort_insert_sorted (x : A) (l : list A) :
  StronglySorted key_le l -> StronglySorted key_le (js_sort_insert compareFn x l).
Proof using compareFn_key.
  induction 1 as [|y l Hsorted IH Hall]; simpl.
  - repeat constructor.
  - destruct (Qle_bool (compareFn x y) 0) eqn:Hcmp.
    + apply Qle_bool_iff, compareFn_key in Hcmp.
      constructor; [now constructor|].
      constructor; [exact Hcmp|].
      eapply Forall_impl; [exact Hall|].
      intros z Hz. unfold key_le in *. eapply Qle_trans; eassumption.
    + constructor; [exact IH|].
      rewrite js_sort_insert_Permutation. constructor; [|exact Hall].
      unfold key_le. apply Qlt_le_weak, Qnot_le_lt.
      intros Hle. apply compareFn_key, Qle_bool_iff in Hle. congruence.
Qed.

Lemma js_sort_sorted (l : list A) : StronglySorted key_le (js_sort compareFn l).
Proof using compareFn_key.
  induction l as [|x l IH]; simpl; [constructor|].
  now apply js_sort_insert_sorted.
Qed.

(** The first [n] elements of the sorted array against the ones cut off. *)
Lemma js_sort_take_drop (n : nat) (l : list A) (kept dropped : A) :
  kept ∈ take n (js_sort compareFn l) ->
  dropped ∈ drop n (js_sort compareFn l) ->
  (key kept <= key dropped)%Q.
Proof using compareFn_key.
  intros Hkept Hdropped.
  pose proof (js_sort_sorted l) as Hsorted.
  rewrite <- (take_drop n (js_sort compareFn l)) in Hsorted.
  exact (StronglySorted_app_1_elem_of key_le _ _ kept dropped Hsorted Hkept Hdropped).
Qed.

End JsSortFacts.

(** ** [UltrasonicListener]: the scan over the band *)

Lemma band_scan_loop_fuel fuel1 fuel2 (data : list Q) (highBin i : nat) s :
  (S highBin - i <= fuel1)%nat ->
  (S highBin - i <= fuel2)%nat ->
  band_scan_loop fuel1 data highBin i s = band_scan_loop fuel2 data highBin i s.
Proof.
  revert fuel2 i s.
  induction fuel1 as [|fuel1 IH]; intros [|fuel2] i s H1 H2; simpl;
    try reflexivity.
  - now replace (i <=? highBin)%nat with false by (symmetry; apply Nat.leb_gt; lia).
  - now replace (i <=? highBin)%nat with false by (symmetry; apply Nat.leb_gt; lia).
  - destruct ((i <=? highBin)%nat && (i <? length data)%nat); [|reflexivity].
    destruct (data !! i); [|reflexivity].
    apply IH; lia.
Qed.

Lemma band_scan_fuel (f : AnalyserFrame) (fuel : nat) :
  (S (highBin f) - lowBin f <= fuel)%nat ->
  band_scan_loop fuel (dataArray f) (highBin f) (lowBin f)
    {| maxAmplitude := None; maxBin := lowBin f; amplitudes := [] |}
  = band_scan f.
Proof. intros Hfuel. unfold band_scan. apply band_scan_loop_fuel; lia. Qed.

(** ** [UltrasonicListener]: noise floor *)

Lemma adapt_noiseFloor_unchanged (old median : Q) :
  Qltb old median = false -> adapt_noiseFloor old median = old.
Proof. unfold adapt_noiseFloor. now intros ->. Qed.

Lemma adapt_noiseFloor_raised (old median : Q) :
  Qltb old median = true ->
  adapt_noiseFloor old median
  = binary64 (binary64 (old * binary64 0.9) + binary64 (median * binary64 0.1)).
Proof. unfold adapt_noiseFloor. now intros ->. Qed.

Lemma binary64_near (x eta : Q) :
  (2 ^ (-1075) <= eta)%Q ->
  (x - (Qabs x * 2 ^ (-53) + eta) <= binary64 x
   <= x + (Qabs x * 2 ^ (-53) + eta))%Q.
Proof.
  intros Heta. pose proof (binary64_error x) as H.
  apply Qabs_Qle_condition in H. destruct H as [H1 H2]. split; lra.
Qed.

Lemma Qabs_bounds (x : Q) : (0 <= Qabs x /\ - Qabs x <= x <= Qabs x)%Q.
Proof.
  split; [apply Qabs_nonneg|].
  apply Qabs_Qle_condition. apply Qle_refl.
Qed.

(** The update puts the estimate between the old one and the median, up to
    the rounding of the three operations. *)
Lemma adapt_noiseFloor_near (old median : Q) :
  Qltb old median = true ->
  (old - ((Qabs old + Qabs median) * 2 ^ (-51) + 2 ^ (-1073))
   <= adapt_noiseFloor old median
   <= median + ((Qabs old + Qabs median) * 2 ^ (-51) + 2 ^ (-1073)))%Q.
Proof.
  intros Hlt. unfold adapt_noiseFloor. rewrite Hlt. apply Qltb_lt in Hlt.
  replace (binary64 0.9) with (8106479329266893 # 9007199254740992)%Q
    by (vm_compute; reflexivity).
  replace (binary64 0.1) with (3602879701896397 # 36028797018963968)%Q
    by (vm_compute; reflexivity).
  set (c9 := (8106479329266893 # 9007199254740992)%Q).
  set (c1 := (3602879701896397 # 36028797018963968)%Q).
  set (eta := (2 ^ (-1075))%Q).
  assert (Heta : (0 < eta)%Q) by reflexivity.
  assert (Hbound : (2 ^ (-1073) == 4 * eta)%Q) by (vm_compute; reflexivity).
  rewrite Hbound. clear Hbound.
  pose proof (binary64_near (old * c9) eta (Qle_refl _)) as H1.
  pose proof (binary64_near (median * c1) eta (Qle_refl _)) as H2.
  set (p1 := binary64 (old * c9)) in *. set (p2 := binary64 (median * c1)) in *.
  pose proof (binary64_near (p1 + p2) eta (Qle_refl _)) as H3.
  set (new := binary64 (p1 + p2)) in *.
  rewrite Qabs_Qmult in H1, H2.
  rewrite (Qabs_pos c9) in H1 by discriminate.
  rewrite (Qabs_pos c1) in H2 by discriminate.
  destruct (Qabs_bounds old) as [Ha0 Ha]. destruct (Qabs_bounds median) as [Hm0 Hm].
  change (2 ^ (-53))%Q with (1 # 9007199254740992)%Q in *.
  change (2 ^ (-51))%Q with (1 # 2251799813685248)%Q.
  set (A := Qabs old) in *. set (M := Qabs median) in *.
  assert (HT : (Qabs (p1 + p2) <= 2 * (A + M) + 2 * eta)%Q).
  { apply Qabs_Qle_condition. unfold c9, c1 in *. clearbody eta p1 p2 A M.
    split; lra. }
  set (T := Qabs (p1 + p2)) in *.
  unfold c9, c1 in *. clearbody eta p1 p2 new A M T.
  split; lra.
Qed.

Section ListenerFacts.

Variable Math_log10 : Q -> Q.

Lemma analyzeLoop_noiseFloor (f : AnalyserFrame) (l : UltrasonicListener) :
  noiseFloor (analyzeLoop Math_log10 f l)
  = if isRecording l && analyser_ready l
    then adapt_noiseFloor (noiseFloor l) (medianAmplitude f)
    else noiseFloor l.
Proof.
  unfold analyzeLoop. destruct (isRecording l), (analyser_ready l); reflexivity.
Qed.

(** Frames whose median does not exceed the estimate leave it alone. *)
Lemma analyzeFrames_noiseFloor_kept (frames : list AnalyserFrame)
    (l : UltrasonicListener) :
  Forall (fun f => Qltb (noiseFloor l) (medianAmplitude f) = false) frames ->
  noiseFloor (analyzeFrames Math_log10 frames l) = noiseFloor l.
Proof.
  revert l. induction frames as [|f frames IH]; intros l Hquiet; simpl.
  - reflexivity.
  - apply Forall_cons in Hquiet as [Hf Hquiet].
    assert (Hkept : noiseFloor (analyzeLoop Math_log10 f l) = noiseFloor l).
    { rewrite analyzeLoop_noiseFloor.
      destruct (isRecording l && analyser_ready l); [|reflexivity].
      now apply adapt_noiseFloor_unchanged. }
    rewrite <- Hkept. apply IH. now rewrite Hkept.
Qed.

End ListenerFacts.

(** ** [binary64] against the floating-point numbers of the kernel *)

Module KernelFloats.

Import PrimFloat.

#[local] Set Warnings "-inexact-float".

(** The two literals of the noise-floor update. *)
Example literals_on_kernel_floats :
  Q_of_float 0.9 = Some (binary64 0.9) /\ Q_of_float 0.1 = Some (binary64 0.1).
Proof. split; vm_compute; reflexivity. Qed.

(** Three updates of the noise floor, from -100 with the medians -99.375,
    -96.5 and -99.59375, computed by the kernel and by [adapt_noiseFloor]. *)
Example noiseFloor_on_kernel_floats :
  Q_of_float ((((-100) * 0.9 + (-99.375) * 0.1) * 0.9 + (-96.5) * 0.1) * 0.9
              + (-99.59375) * 0.1)
  = Some (adapt_noiseFloor
            (adapt_noiseFloor (adapt_noiseFloor (-100) (-99.375)) (-96.5))
            (-99.59375)).
Proof. vm_compute. reflexivity. Qed.

(** The number of the passcode for a draw of 0.7: the double nearest to 0.7
    is below 0.7, and yet the rounded product is 630000. *)
Example passcode_on_kernel_floats :
  Q_of_float (100000 + 0.7 * 900000)
  = Some (binary64 (100000 + binary64 (binary64 0.7 * 900000)))
  /\ binary64 (100000 + binary64 (binary64 0.7 * 900000)) = 730000%Q
  /\ Qfloor (100000 + binary64 0.7 * 900000) = 729999%Z.
Proof. repeat split; vm_compute; reflexivity. Qed.

End KernelFloats.

(** ** [UltrasonicListener]: peak merging *)

Lemma js_find_Some {A : Type} (test : A -> bool) (l : list A) (i : nat) (x : A) :
  js_find test l = Some (i, x) ->
  l !! i = Some x /\ test x = true
  /\ forall j y, (j < i)%nat -> l !! j = Some y -> test y = false.
Proof.
  revert i. induction l as [|a l IH]; intros i Hfind; simpl in Hfind; [discriminate|].
  destruct (test a) eqn:Ha.
  - injection Hfind as <- <-. repeat split; auto. intros j y Hj. lia.
  - destruct (js_find test l) as [[k y]|] eqn:Hrec; [|discriminate].
    injection Hfind as <- <-.
    destruct (IH k eq_refl) as (Hk & Hy & Hbefore).
    repeat split; auto.
    intros [|j] z Hj Hz; simpl in Hz.
    + congruence.
    + apply (Hbefore j); [lia | exact Hz].
Qed.

Lemma js_find_is_Some {A : Type} (test : A -> bool) (l : list A) (x : A) :
  x ∈ l -> test x = true -> exists i y, js_find test l = Some (i, y).
Proof.
  induction 1 as [x l | x a l Hin IH]; intros Hx; simpl.
  - rewrite Hx. eauto.
  - destruct (test a); [eauto|].
    destruct (IH Hx) as (i & y & ->). eauto.
Qed.

Lemma merge_peak_found (detection existing : DetectedPeak)
    (retained : list DetectedPeak) (i : nat) :
  js_find (same_pulse (frequency detection) (timestamp detection)) retained
  = Some (i, existing) ->
  merge_peak detection retained
  = if Qltb (amplitude existing) (amplitude detection)
    then <[i := detection]> retained
    else retained.
Proof. unfold merge_peak. now intros ->. Qed.

Section ListenerPeaks.

Variable Math_log10 : Q -> Q.

Lemma analyzeLoop_peaks (f : AnalyserFrame) (l : UltrasonicListener)
    (detection : DetectedPeak) :
  isRecording l = true ->
  analyser_ready l = true ->
  classify_frame Math_log10 f (adapt_noiseFloor (noiseFloor l) (medianAmplitude f))
  = Some detection ->
  peaks (analyzeLoop Math_log10 f l) = merge_peak detection (peaks l).
Proof.
  intros Hrec Hready Hclass. unfold analyzeLoop.
  rewrite Hrec, Hready. simpl. now rewrite Hclass.
Qed.

End ListenerPeaks.

(** ** [UltrasonicEmitter.emit] *)

Lemma emit_loop_spec config useFilter hasFilter n i rest s :
  let s' := emit_loop config useFilter hasFilter n i rest s in
  emittedFreqs s' = emittedFreqs s ++ map (pulse_frequency config) rest
  /\ map osc_frequency (oscillators (emit_ctx s'))
     = map osc_frequency (oscillators (emit_ctx s))
       ++ map (pulse_frequency config) rest.
Proof.
  revert i s. induction rest as [|sym rest IH]; intros i s; simpl.
  - now rewrite !app_nil_r.
  - destruct (IH (S i)
      {| emit_ctx := schedulePulse hasFilter (emit_ctx s)
                       (if PulseType_eqb sym PH then freqHigh config else freqLow config)
                       (volume config) (pulseDuration config) (scheduleTime s) useFilter;
         scheduleTime :=
           if (i <? n - 1)%nat
           then (scheduleTime s + pulseDuration config / 1000 + pulseGap config / 1000)%Q
           else (scheduleTime s + pulseDuration config / 1000)%Q;
         emittedFreqs := emittedFreqs s
           ++ [if PulseType_eqb sym PH then freqHigh config else freqLow config] |})
      as [Hfreqs Hosc].
    simpl in *. rewrite Hfreqs, Hosc. unfold pulse_frequency.
    rewrite map_app. simpl. rewrite <- !app_assoc. simpl. auto.
Qed.

(** ** Text: cutting a string at a separator *)

Lemma occurs_app (c : ascii) (s t : string) :
  occurs c (s +:+ t) <-> occurs c s \/ occurs c t.
Proof.
  induction s as [|a s IH]; simpl; [tauto|]. rewrite IH. tauto.
Qed.

Lemma cut_at_separator (sep : ascii) (s1 s2 t1 t2 : string) :
  ~ occurs sep s1 -> ~ occurs sep s2 ->
  s1 +:+ String sep t1 = s2 +:+ String sep t2 ->
  s1 = s2 /\ t1 = t2.
Proof.
  revert s2. induction s1 as [|a s1 IH]; intros [|b s2] H1 H2 Heq; simpl in *.
  - injection Heq as ->. auto.
  - injection Heq as <- _. tauto.
  - injection Heq as -> _. tauto.
  - injection Heq as -> Heq. destruct (IH s2) as [-> ->]; auto.
Qed.

(** ** [Map<string, QueueEntry[]>] *)

Lemma Map_has_get (key : string) (m : ConfigGroups) :
  Map_has key m = match Map_get key m with Some _ => true | None => false end.
Proof.
  induction m as [|[k v] m IH]; simpl; [reflexivity|].
  destruct (String.eqb k key); [reflexivity | exact IH].
Qed.

Lemma Map_has_keys (key : string) (m : ConfigGroups) :
  Map_has key m = true <-> key ∈ map fst m.
Proof.
  induction m as [|[k v] m IH]; simpl.
  - split; [discriminate | intros Hin; inversion Hin].
  - rewrite orb_true_iff, IH, String.eqb_eq, elem_of_cons. intuition congruence.
Qed.

Lemma Map_get_set (key key' : string) (v : list QueueEntry) (m : ConfigGroups) :
  Map_get key (Map_set key' v m)
  = if String.eqb key' key then Some v else Map_get key m.
Proof.
  induction m as [|[k v0] m IH]; simpl; [reflexivity|].
  destruct (String.eqb k key') eqn:Hk; simpl.
  - apply String.eqb_eq in Hk. subst k. now destruct (String.eqb key' key).
  - rewrite IH. destruct (String.eqb k key) eqn:Hkk; [|reflexivity].
    destruct (String.eqb key' key) eqn:Hk'; [|reflexivity].
    apply String.eqb_eq in Hkk, Hk'. subst. now rewrite String.eqb_refl in Hk.
Qed.

Lemma Map_set_keys (key : string) (v : list QueueEntry) (m : ConfigGroups) :
  map fst (Map_set key v m)
  = if Map_has key m then map fst m else map fst m ++ [key].
Proof.
  induction m as [|[k v0] m IH]; simpl; [reflexivity|].
  destruct (String.eqb k key); simpl; [reflexivity|].
  rewrite IH. now destruct (Map_has key m).
Qed.

Lemma Map_get_elem_of (k : string) (g : list QueueEntry) (m : ConfigGroups) :
  NoDup (map fst m) -> ((k, g) ∈ m <-> Map_get k m = Some g).
Proof.
  induction m as [|[k0 g0] m IH]; simpl; intros Hnodup.
  - split; [intros Hin; inversion Hin | discriminate].
  - apply NoDup_cons in Hnodup as [Hfresh Hnodup].
    rewrite elem_of_cons, (IH Hnodup).
    destruct (String.eqb k0 k) eqn:Hk.
    + apply String.eqb_eq in Hk. subst k0. split.
      * intros [Heq | Hget]; [congruence|].
        exfalso. apply Hfresh, Map_has_keys. rewrite Map_has_get, Hget. reflexivity.
      * intros [= ->]. now left.
    + apply String.eqb_neq in Hk. split.
      * intros [Heq | Hget]; [congruence | exact Hget].
      * auto.
Qed.

(** ** [processQueue]: the groups partition the students by key *)

Section GroupingFacts.

Variable numToString : Q -> string.

Let key_of (student : QueueEntry) : string :=
  getConfigKey numToString (Firebase.config student).

Lemma group_student_get (k : string) (m : ConfigGroups) (student : QueueEntry) :
  Map_get k (group_student numToString m student)
  = if String.eqb (key_of student) k
    then Some (default [] (Map_get k m) ++ [student])
    else Map_get k m.
Proof.
  unfold group_student, Map_push. fold (key_of student).
  rewrite Map_has_get.
  destruct (Map_get (key_of student) m) as [g|] eqn:Hget; simpl.
  - rewrite Hget, Map_get_set.
    destruct (String.eqb (key_of student) k) eqn:Hk; [|reflexivity].
    apply String.eqb_eq in Hk. subst k. now rewrite Hget.
  - rewrite Map_get_set, String.eqb_refl, !Map_get_set.
    destruct (String.eqb (key_of student) k) eqn:Hk; [|reflexivity].
    apply String.eqb_eq in Hk. subst k. now rewrite Hget.
Qed.

Lemma group_student_keys (m : ConfigGroups) (student : QueueEntry) :
  map fst (group_student numToString m student)
  = if Map_has (key_of student) m
    then map fst m
    else map fst m ++ [key_of student].
Proof.
  unfold group_student, Map_push. fold (key_of student).
  destruct (Map_has (key_of student) m) eqn:Hhas; simpl.
  - pose proof Hhas as Hget. rewrite Map_has_get in Hget.
    destruct (Map_get (key_of student) m); [|discriminate].
    now rewrite Map_set_keys, Hhas.
  - rewrite Map_get_set, String.eqb_refl, Map_set_keys.
    assert (Hnow : Map_has (key_of student) (Map_set (key_of student) [] m) = true).
    { apply Map_has_keys. rewrite Map_set_keys, Hhas.
      apply elem_of_app. right. now left. }
    now rewrite Hnow, Map_set_keys, Hhas.
Qed.

(** What holds of the map once the students [seen] have been grouped. *)
Record grouped (m : ConfigGroups) (seen : list QueueEntry) : Prop := {
  grouped_keys : NoDup (map fst m);
  grouped_sound : forall k g student,
    Map_get k m = Some g -> student ∈ g -> key_of student = k /\ student ∈ seen;
  grouped_complete : forall student,
    student ∈ seen -> exists g, Map_get (key_of student) m = Some g /\ student ∈ g
}.

Lemma grouped_nil : grouped [] [].
Proof.
  split; simpl.
  - constructor.
  - discriminate.
  - intros student Hin. inversion Hin.
Qed.

Lemma grouped_step (m : ConfigGroups) (seen : list QueueEntry)
    (student : QueueEntry) :
  grouped m seen -> grouped (group_student numToString m student) (seen ++ [student]).
Proof.
  intros [Hkeys Hsound Hcomplete]. split.
  - rewrite group_student_keys.
    destruct (Map_has (key_of student) m) eqn:Hhas; [exact Hkeys|].
    apply NoDup_app. split; [exact Hkeys|]. split.
    + intros k Hk Hk'. apply list_elem_of_singleton in Hk'. subst k.
      apply Map_has_keys in Hk. congruence.
    + apply NoDup_singleton.
  - intros k g s. rewrite group_student_get.
    destruct (String.eqb (key_of student) k) eqn:Hk.
    + apply String.eqb_eq in Hk. intros [= <-] Hin.
      apply elem_of_app in Hin as [Hin | Hin].
      * destruct (Map_get k m) as [g0|] eqn:Hget; simpl in Hin; [|inversion Hin].
        destruct (Hsound k g0 s Hget Hin) as [Hks Hseen].
        split; [exact Hks|]. apply elem_of_app. now left.
      * apply list_elem_of_singleton in Hin. subst s.
        split; [exact Hk|]. apply elem_of_app. right. now left.
    + intros Hget Hin. destruct (Hsound k g s Hget Hin) as [Hks Hseen].
      split; [exact Hks|]. apply elem_of_app. now left.
  - intros s Hin. rewrite group_student_get.
    apply elem_of_app in Hin as [Hin | Hin].
    + destruct (Hcomplete s Hin) as (g & Hget & Hs).
      destruct (String.eqb (key_of student) (key_of s)) eqn:Hk.
      * eexists. split; [reflexivity|]. rewrite Hget. simpl.
        apply elem_of_app. now left.
      * eauto.
    + apply list_elem_of_singleton in Hin. subst s.
      rewrite String.eqb_refl. eexists. split; [reflexivity|].
      apply elem_of_app. right. now left.
Qed.

Lemma grouped_fold (students : list QueueEntry) (m : ConfigGroups)
    (seen : list QueueEntry) :
  grouped m seen ->
  grouped (fold_left (group_student numToString) students m) (seen ++ students).
Proof.
  revert m seen. induction students as [|student students IH]; intros m seen Hm; simpl.
  - now rewrite app_nil_r.
  - replace (seen ++ student :: students) with ((seen ++ [student]) ++ students)
      by (now rewrite <- app_assoc).
    apply IH, grouped_step, Hm.
Qed.

Lemma groupByConfig_grouped (students : list QueueEntry) :
  grouped (groupByConfig numToString students) students.
Proof. apply (grouped_fold students [] []), grouped_nil. Qed.

(** Two students share a batch exactly when their keys are the same text. *)
Lemma groupByConfig_same_key (students : list QueueEntry) (s1 s2 : QueueEntry) :
  s1 ∈ students -> s2 ∈ students ->
  key_of s1 = key_of s2 ->
  exists configKey group,
    (configKey, group) ∈ groupByConfig numToString students
    /\ s1 ∈ group /\ s2 ∈ group.
Proof.
  intros H1 H2 Hkey.
  destruct (groupByConfig_grouped students) as [Hkeys _ Hcomplete].
  destruct (Hcomplete s1 H1) as (g1 & Hg1 & Hin1).
  destruct (Hcomplete s2 H2) as (g2 & Hg2 & Hin2).
  rewrite <- Hkey, Hg1 in Hg2. injection Hg2 as <-.
  exists (key_of s1), g1. split; [|auto].
  now apply Map_get_elem_of.
Qed.

Lemma groupByConfig_other_key (students : list QueueEntry) (s1 s2 : QueueEntry)
    (configKey : string) (group : list QueueEntry) :
  (configKey, group) ∈ groupByConfig numToString students ->
  s1 ∈ group -> s2 ∈ group ->
  key_of s1 = key_of s2.
Proof.
  intros Hbatch H1 H2.
  destruct (groupByConfig_grouped students) as [Hkeys Hsound _].
  apply Map_get_elem_of in Hbatch; [|exact Hkeys].
  destruct (Hsound _ _ _ Hbatch H1) as [-> _].
  destruct (Hsound _ _ _ Hbatch H2) as [-> _]. reflexivity.
Qed.

End GroupingFacts.

(** ** [getConfigKey]: the key determines every field *)

Lemma boolToString_no_underscore (b : option bool) :
  ~ occurs "_" (boolToString b).
Proof.
  destruct b as [[]|]; simpl; intros H;
    repeat (destruct H as [H | H]; [discriminate|]); exact H.
Qed.

Lemma boolToString_inj (a b : option bool) :
  boolToString a = boolToString b -> a = b.
Proof. destruct a as [[]|], b as [[]|]; simpl; congruence. Qed.

Section KeyFacts.

Variable numToString : Q -> string.
Hypothesis numToString_same :
  forall a b : Q, numToString a = numToString b <-> (a == b)%Q.
Hypothesis numToString_no_underscore :
  forall a : Q, ~ occurs "_" (numToString a).
Hypothesis numToString_not_undefined :
  forall a : Q, numToString a <> "undefined".

Lemma optNumToString_same (x y : option Q) :
  optNumToString numToString x = optNumToString numToString y
  <-> same_optional x y.
Proof using numToString_same numToString_not_undefined.
  destruct x as [a|], y as [b|]; simpl.
  - apply numToString_same.
  - split; [intros H; now apply numToString_not_undefined in H | tauto].
  - split; [intros H; symmetry in H; now apply numToString_not_undefined in H | tauto].
  - tauto.
Qed.

Lemma getConfigKey_same_config (c1 c2 : EmitterConfig) :
  getConfigKey numToString c1 = getConfigKey numToString c2 <-> same_config c1 c2.
Proof using numToString_same numToString_no_underscore numToString_not_undefined.
  unfold getConfigKey, same_config. split.
  - intros Hkey.
    repeat match type of Hkey with
           | _ +:+ "_" +:+ _ = _ +:+ "_" +:+ _ =>
               apply (cut_at_separator "_") in Hkey;
               [ let Hfield := fresh "Hfield" in destruct Hkey as [Hfield Hkey]
               | solve [apply numToString_no_underscore
                       | apply boolToString_no_underscore] .. ]
           end.
    apply numToString_same in Hfield, Hfield0, Hfield1, Hfield2, Hfield3.
    apply boolToString_inj in Hfield4.
    apply optNumToString_same in Hkey. auto 10.
  - intros (Hv & Hl & Hh & Hd & Hg & Hf & Hc).
    apply numToString_same in Hv, Hl, Hh, Hd, Hg.
    apply optNumToString_same in Hc.
    now rewrite Hv, Hl, Hh, Hd, Hg, Hf, Hc.
Qed.

End KeyFacts.

(** ** The sample number printer meets what is asked of [Number::toString] *)

Lemma pretty_N_char_plain (x : N) : plain (pretty_N_char x).
Proof.
  unfold pretty_N_char, plain. repeat case_match; split; discriminate.
Qed.

Lemma pretty_N_go_plain (x : N) (s : string) :
  (forall c, occurs c s -> plain c) ->
  forall c, occurs c (pretty_N_go x s) -> plain c.
Proof.
  revert s. induction (N.lt_wf_0 x) as [x _ IH]; intros s Hs.
  destruct (decide (x = 0)%N) as [-> | Hpos].
  - now rewrite pretty_N_go_0.
  - rewrite pretty_N_go_step by lia. apply IH.
    + apply N.div_lt; lia.
    + intros c [<- | Hc]; [apply pretty_N_char_plain | now apply Hs].
Qed.

Lemma pretty_N_plain (x : N) (c : ascii) : occurs c (pretty x) -> plain c.
Proof.
  unfold pretty, pretty_N. case_decide.
  - simpl. intros [<- | []]. split; discriminate.
  - apply pretty_N_go_plain. intros c' [].
Qed.

Lemma pretty_Z_plain (x : Z) (c : ascii) : occurs c (pretty x) -> plain c.
Proof.
  destruct x as [|p|p]; unfold pretty, pretty_Z.
  - simpl. intros [<- | []]. split; discriminate.
  - apply (pretty_N_plain (N.pos p)).
  - simpl. intros [<- | Hc]; [split; discriminate|].
    now apply (pretty_N_plain (N.pos p)).
Qed.

Lemma sample_numToString_same (a b : Q) :
  sample_numToString a = sample_numToString b <-> (a == b)%Q.
Proof.
  unfold sample_numToString. split.
  - intros Heq. apply (cut_at_separator "/") in Heq.
    + destruct Heq as [Hnum Hden].
      apply (inj pretty) in Hnum. apply (inj pretty) in Hden.
      rewrite <- (Qred_correct a), <- (Qred_correct b).
      destruct (Qred a), (Qred b). simpl in *. now subst.
    + intros Hc. now apply pretty_Z_plain in Hc as [_ []].
    + intros Hc. now apply pretty_Z_plain in Hc as [_ []].
  - intros Heq. now rewrite (Qred_complete a b Heq).
Qed.

Lemma sample_numToString_no_underscore (a : Q) :
  ~ occurs "_" (sample_numToString a).
Proof.
  unfold sample_numToString. rewrite occurs_app. intros [Hc | Hc].
  - now apply pretty_Z_plain in Hc as [[] _].
  - simpl in Hc. destruct Hc as [Hc | Hc]; [discriminate|].
    now apply (pretty_N_plain (N.pos (Qden (Qred a)))) in Hc as [[] _].
Qed.

Lemma sample_numToString_not_undefined (a : Q) :
  sample_numToString a <> "undefined".
Proof.
  intros Heq.
  assert (Hslash : occurs "/" (sample_numToString a)).
  { unfold sample_numToString. apply occurs_app. right. now left. }
  rewrite Heq in Hslash. simpl in Hslash.
  repeat (destruct Hslash as [Hslash | Hslash]; [discriminate|]). exact Hslash.
Qed.

(** ** [processBatch]: the handshake loop *)

Lemma sleep_clock (ms : Z) (w : World) :
  clock (sleep ms w) = (clock w + Z.max 0 ms + Z.of_nat (lateness w (awaits w)))%Z.
Proof. reflexivity. Qed.

Lemma sleep_effects (ms : Z) (w : World) :
  effects (sleep ms w) = effects w ++ [Slept ms].
Proof. reflexivity. Qed.

Lemma same_host_refl (w : World) : same_host w w.
Proof. now split. Qed.

Lemma same_host_trans (w1 w2 w3 : World) :
  same_host w1 w2 -> same_host w2 w3 -> same_host w1 w3.
Proof. intros [] []. split; congruence. Qed.

Lemma sleeps_clock (polls : nat) (w : World) :
  (clock w + 50 * Z.of_nat polls <= clock (Nat.iter polls (sleep 50) w))%Z.
Proof.
  induction polls as [|polls IH]; [simpl; lia|].
  rewrite Nat.iter_succ, sleep_clock. lia.
Qed.

Lemma sleeps_effects (polls : nat) (w : World) :
  effects (Nat.iter polls (sleep 50) w) = effects w ++ replicate polls (Slept 50).
Proof.
  induction polls as [|polls IH]; simpl.
  - now rewrite app_nil_r.
  - rewrite IH, <- app_assoc. f_equal.
    change (replicate polls (Slept 50) ++ [Slept 50]
            = replicate (S polls) (Slept 50)).
    clear. induction polls as [|polls IH]; simpl; [reflexivity|]. now rewrite IH.
Qed.

Lemma sleeps_world (polls : nat) (w : World) :
  let w' := Nat.iter polls (sleep 50) w in
  same_host w w'
  /\ awaits w' = (awaits w + polls)%nat
  /\ emitterRef w' = emitterRef w
  /\ isProcessing w' = isProcessing w.
Proof.
  induction polls as [|polls (IH1 & IH2 & IH3 & IH4)].
  - simpl. split; [apply same_host_refl|]. split; [lia|]. auto.
  - rewrite Nat.iter_succ. split; [|split; [|split]].
    + destruct IH1. now split.
    + cbn [awaits sleep await perform]. rewrite IH2. lia.
    + exact IH3.
    + exact IH4.
Qed.

(** The loop leaves at the first poll that finds the batch ready or the
    timeout passed, after [polls] sleeps of 50 ms; it logs when it finds the
    batch ready. *)
Lemma handshake_loop_exit (fuel : nat) (ids : list string) (n : nat)
    (startTime : Z) (w : World) :
  (1 <= fuel)%nat ->
  (HANDSHAKE_TIMEOUT - (Date_now w - startTime) <= 50 * (Z.of_nat fuel - 1))%Z ->
  exists (polls : nat) (allReady : bool),
    handshake_loop fuel ids n startTime w
    = Some (allReady, if allReady then log (Nat.iter polls (sleep 50) w)
                      else Nat.iter polls (sleep 50) w)
    /\ (forall j, (j < polls)%nat ->
          (Date_now (Nat.iter j (sleep 50) w) - startTime < HANDSHAKE_TIMEOUT)%Z
          /\ readyCount ids (Nat.iter j (sleep 50) w) <> n)
    /\ (if allReady
        then (Date_now (Nat.iter polls (sleep 50) w) - startTime < HANDSHAKE_TIMEOUT)%Z
             /\ readyCount ids (Nat.iter polls (sleep 50) w) = n
        else (HANDSHAKE_TIMEOUT <= Date_now (Nat.iter polls (sleep 50) w) - startTime)%Z).
Proof.
  revert w. induction fuel as [|fuel IH]; intros w Hfuel Htime; [lia|].
  simpl handshake_loop.
  destruct (Z.ltb_spec (Date_now w - startTime) HANDSHAKE_TIMEOUT) as [Hin | Hout].
  - destruct (Nat.eqb_spec (readyCount ids w) n) as [Hready | Hwait].
    + exists 0%nat, true. simpl.
      split; [reflexivity|]. split; [intros j Hj; lia | auto].
    + pose proof (sleep_clock 50 w) as Hclock. unfold Date_now in *.
      destruct (IH (sleep 50 w)) as (polls & allReady & Hloop & Hbefore & Hexit);
        [lia | lia |].
      exists (S polls), allReady. rewrite Nat.iter_succ_r. split; [exact Hloop|].
      split; [|exact Hexit].
      intros [|j] Hj; [simpl; auto|].
      rewrite Nat.iter_succ_r. apply Hbefore. lia.
  - exists 0%nat, false. simpl.
    split; [reflexivity|]. split; [intros j Hj; lia | exact Hout].
Qed.

Lemma handshake_polls_bound (polls : nat) (startTime : Z) (w : World) :
  (startTime <= Date_now w)%Z ->
  (forall j, (j < polls)%nat ->
     (Date_now (Nat.iter j (sleep 50) w) - startTime < HANDSHAKE_TIMEOUT)%Z) ->
  (polls <= 60)%nat.
Proof.
  intros Hstart Hbefore. destruct polls as [|j]; [lia|].
  specialize (Hbefore j (Nat.lt_succ_diag_r j)).
  pose proof (sleeps_clock j w) as Hclock.
  unfold Date_now, HANDSHAKE_TIMEOUT in *. lia.
Qed.

(** The poll that ends the loop comes less than one sleep, and what its
    timer overruns, after a moment at which the timeout had not passed. *)
Lemma handshake_exit_time (polls : nat) (startTime : Z) (w : World) :
  (Date_now w - startTime < HANDSHAKE_TIMEOUT + 50)%Z ->
  (forall j, (j < polls)%nat ->
     (Date_now (Nat.iter j (sleep 50) w) - startTime < HANDSHAKE_TIMEOUT)%Z) ->
  (Date_now (Nat.iter polls (sleep 50) w) - startTime
   < HANDSHAKE_TIMEOUT + 50 + Z.of_nat (lateness w (awaits w + polls - 1)))%Z.
Proof.
  intros Hstart Hbefore. destruct polls as [|j]; [simpl; lia|].
  specialize (Hbefore j (Nat.lt_succ_diag_r j)).
  rewrite Nat.iter_succ. unfold Date_now in *. rewrite sleep_clock.
  destruct (sleeps_world j w) as ([Hlate _ _ _ _ _] & Hawaits & _).
  cbv zeta in Hlate, Hawaits. rewrite Hlate, Hawaits.
  replace (awaits w + S j - 1)%nat with (awaits w + j)%nat by lia. lia.
Qed.

Lemma QueueStatus_eqb_eq (a b : QueueStatus) :
  Firebase.QueueStatus_eqb a b = true <-> a = b.
Proof. destruct a, b; simpl; split; congruence. Qed.

Lemma is_listening_spec (ids : list string) (e : QueueEntry) :
  is_listening ids e = true
  <-> In (Firebase.id e) ids /\ Firebase.status e = Firebase.listening.
Proof.
  unfold is_listening. rewrite andb_true_iff, QueueStatus_eqb_eq, existsb_exists.
  split.
  - intros [(x & Hx & Heq) Hs]. apply String.eqb_eq in Heq. subst x. auto.
  - intros [Hin Hs]. split; [|exact Hs].
    exists (Firebase.id e). split; [exact Hin | apply String.eqb_refl].
Qed.

Lemma NoDup_map_filter {A B : Type} (f : A -> B) (P : A -> Prop)
    `{!forall x, Decision (P x)} (l : list A) :
  NoDup (map f l) -> NoDup (map f (filter P l)).
Proof.
  induction l as [|a l IH]; simpl; intros Hl; [constructor|].
  apply NoDup_cons in Hl as [Ha Hl]. rewrite filter_cons.
  destruct (decide (P a)); simpl; [|now apply IH].
  apply NoDup_cons. split; [|now apply IH].
  intros Hin. apply Ha.
  apply list_elem_of_fmap in Hin as (y & -> & Hy).
  apply list_elem_of_fmap. exists y. split; [reflexivity|].
  now apply list_elem_of_filter in Hy as [_ Hy].
Qed.

(** With ids that are unique on both sides, a count of listening entries that
    reaches the size of the batch means that every student of the batch has
    an entry that is listening. *)
Lemma readyCount_all_listening (students : list QueueEntry) (w : World) :
  NoDup (map Firebase.id students) ->
  NoDup (map Firebase.id (queueRef w)) ->
  readyCount (map Firebase.id students) w = length students ->
  forall student, student ∈ students ->
    exists e, e ∈ queueRef w
              /\ Firebase.id e = Firebase.id student
              /\ Firebase.status e = Firebase.listening.
Proof.
  intros Hstudents Hqueue Hcount student Hin.
  unfold readyCount in Hcount.
  set (ids := map Firebase.id students) in *.
  set (found := filter (fun e : QueueEntry => Is_true (is_listening ids e))
                       (queueRef w)) in *.
  assert (Hfound : forall e, e ∈ found <-> is_listening ids e = true /\ e ∈ queueRef w).
  { intros e. subst found. rewrite list_elem_of_filter, Is_true_true. reflexivity. }
  assert (Hnodup : List.NoDup (map Firebase.id found)).
  { apply NoDup_ListNoDup. subst found. now apply NoDup_map_filter. }
  assert (Hincl : incl (map Firebase.id found) ids).
  { intros x Hx. apply in_map_iff in Hx as (e & <- & He).
    apply list_elem_of_In, Hfound in He as [He _].
    now apply is_listening_spec in He. }
  assert (Hback : incl ids (map Firebase.id found)).
  { apply NoDup_length_incl; auto.
    rewrite !length_map. unfold ids. rewrite length_map. lia. }
  assert (Hid : In (Firebase.id student) ids).
  { unfold ids. apply in_map, list_elem_of_In, Hin. }
  apply Hback, in_map_iff in Hid as (e & Heq & He).
  apply list_elem_of_In, Hfound in He as [Hl He].
  apply is_listening_spec in Hl as [_ Hl]. eauto.
Qed.

Lemma handshake_loop_more_fuel (fuel fuel' : nat) (ids : list string) (n : nat)
    (startTime : Z) (w : World) (r : bool * World) :
  handshake_loop fuel ids n startTime w = Some r ->
  (fuel <= fuel')%nat ->
  handshake_loop fuel' ids n startTime w = Some r.
Proof.
  revert fuel' w. induction fuel as [|fuel IH]; intros [|fuel'] w Hloop Hle;
    simpl in *; try discriminate; try lia.
  destruct (Date_now w - startTime <? HANDSHAKE_TIMEOUT)%Z; [|exact Hloop].
  destruct (readyCount ids w =? n)%nat; [exact Hloop|].
  apply IH; [exact Hloop | lia].
Qed.

(** ** [processBatch]: what one batch does *)

Lemma processBatch_mark_emitting_spec (students : list QueueEntry) (w : World) :
  let marked := processBatch_mark_emitting students w in
  let pattern := fst (generatePattern None (random (log w))) in
  fst (fst marked) = negb (writeFails w (awaits w))
  /\ snd (fst marked) = pattern
  /\ effects (snd marked)
     = effects w
       ++ map (fun student =>
                 Wrote (Firebase.id student) Firebase.emitting
                   (Some ("batch_" +:+ pretty (Date_now w))) (Some pattern)) students
  /\ same_host w (snd marked)
  /\ awaits (snd marked) = S (awaits w)
  /\ clock (snd marked) = (clock w + Z.of_nat (lateness w (awaits w)))%Z
  /\ emitterRef (snd marked) = emitterRef w
  /\ isProcessing (snd marked) = isProcessing w.
Proof.
  unfold processBatch_mark_emitting.
  destruct (generatePattern None (random (log w))) as [pattern rnd]. simpl.
  repeat split; lia.
Qed.

Lemma processBatch_cons (first : QueueEntry) (others : list QueueEntry)
    (configKey : string) (w : World) :
  processBatch (first :: others) configKey w
  = let students := first :: others in
    let marked := processBatch_mark_emitting students w in
    if fst (fst marked) then
      match handshake_loop 61 (map Firebase.id students) (length students)
              (Date_now (snd marked)) (log (snd marked)) with
      | Some (allReady, w1) =>
          processBatch_after_handshake students (snd (fst marked))
            (Firebase.config first) (if allReady then w1 else log w1)
      | None => (OutOfFuel, log (snd marked))
      end
    else processBatch_catch students (snd marked).
Proof.
  unfold processBatch.
  destruct (processBatch_mark_emitting (first :: others) w) as [[ok pattern] w0].
  cbn [fst snd]. destruct ok; [|reflexivity].
  destruct (handshake_loop 61 _ _ _ _) as [[allReady w1]|]; reflexivity.
Qed.

Lemma emit_freqs (pattern : list PulseType) (config : EmitterConfig) (t : Q)
    (e : UltrasonicEmitter) :
  fst (fst (emit pattern config t e)) = map (pulse_frequency config) pattern.
Proof.
  unfold emit.
  destruct (audioContext (emitter_init e)) as [ctx|] eqn:Hctx.
  - cbn [fst]. match goal with
    | |- emittedFreqs (emit_loop ?c ?u ?h ?n ?i ?r ?s) = _ =>
        destruct (emit_loop_spec c u h n i r s) as [Hf _]; exact Hf
    end.
  - exfalso. unfold emitter_init in Hctx.
    destruct (audioContext e) eqn:He; simpl in Hctx; congruence.
Qed.

Lemma emit_context (pattern : list PulseType) (config : EmitterConfig) (t : Q)
    (e : UltrasonicEmitter) :
  audioContext (snd (emit pattern config t e)) <> None.
Proof.
  unfold emit.
  destruct (audioContext (emitter_init e)) as [ctx|] eqn:Hctx.
  - cbn [snd audioContext]. discriminate.
  - exfalso. unfold emitter_init in Hctx.
    destruct (audioContext e) eqn:He; simpl in Hctx; congruence.
Qed.

Lemma emit_if_present_spec (pattern : list PulseType) (config : EmitterConfig)
    (w : World) :
  let r := emit_if_present pattern config w in
  fst r = negb (emit_rejects w)
  /\ same_host w (snd r)
  /\ isProcessing (snd r) = isProcessing w
  /\ (emitterRef (snd r) = None <-> emitterRef w = None)
  /\ (fst r = true -> forall e, emitterRef (snd r) = Some e -> audioContext e <> None)
  /\ effects (snd r)
     = effects w
       ++ (if fst r
           then match emitterRef w with
                | Some _ =>
                    [Emitted pattern config (map (pulse_frequency config) pattern)]
                | None => []
                end
           else []).
Proof.
  unfold emit_if_present, emit_rejects.
  destruct (emitterRef w) as [e|] eqn:He.
  2:{ cbn [fst snd negb]. rewrite He, app_nil_r.
      repeat split; auto; congruence. }
  assert (Hplay : forall w1 : World,
            same_host w w1 -> isProcessing w1 = isProcessing w ->
            effects w1 = effects w ->
            let r := (let '(freqs, ms, e') :=
                        emit pattern config (audioTime w1 (awaits w1)) e in
                      (true,
                       log (await (Qfloor ms)
                              (setEmitterRef (Some e')
                                 (perform [Emitted pattern config freqs]
                                    (log (log (log w1)))))))) in
            fst r = true
            /\ same_host w (snd r)
            /\ isProcessing (snd r) = isProcessing w
            /\ (emitterRef (snd r) = None <-> Some e = None)
            /\ (fst r = true ->
                forall e0, emitterRef (snd r) = Some e0 -> audioContext e0 <> None)
            /\ effects (snd r)
               = effects w
                 ++ (if fst r
                     then [Emitted pattern config (map (pulse_frequency config) pattern)]
                     else [])).
  { intros w1 Hhost Hproc Heff.
    pose proof (emit_freqs pattern config (audioTime w1 (awaits w1)) e) as Hfreqs.
    pose proof (emit_context pattern config (audioTime w1 (awaits w1)) e) as Hctx.
    destruct (emit pattern config (audioTime w1 (awaits w1)) e) as [[freqs ms] e'].
    cbn [fst snd] in Hfreqs, Hctx. subst freqs. cbn zeta.
    cbn [fst snd effects emitterRef isProcessing log setRandom await setEmitterRef
         perform].
    destruct Hhost. rewrite Heff.
    repeat split; auto; try discriminate.
    intros _ e0 [= <-]. exact Hctx. }
  destruct (audioContext e) as [ctx|] eqn:Hctx.
  - apply (Hplay w); [apply same_host_refl | reflexivity | reflexivity].
  - destruct (initFails w (awaits w)) eqn:Hinit.
    + cbn [fst snd negb]. rewrite app_nil_r.
      split; [reflexivity|]. split; [now split|]. split; [reflexivity|].
      split; [cbn [emitterRef await]; now rewrite He|].
      split; [discriminate | reflexivity].
    + apply (Hplay (await 0 (log (log w)))); [now split | reflexivity | reflexivity].
Qed.

Example comparePatterns_doc_example_1 :
  matchCount (comparePatterns [PH;PH;PH;PH;PH] [PL;PH;PH;PH;PH;PH;PH;PL]) = 5%nat.
Proof. reflexivity. Qed.

Example generatePattern_example :
  fst (generatePattern (Some 3%Q) {| draws := fun n => if Nat.even n then 0.2%Q else 0.7%Q; next_draw := 0 |})
  = [PH; PL; PH].
Proof. reflexivity. Qed.

Lemma processBatch_catch_trace (students : list QueueEntry) (w : World) :
  let r := processBatch_catch students w in
  same_host w (snd r)
  /\ isProcessing (snd r) = isProcessing w
  /\ emitterRef (snd r) = emitterRef w
  /\ effects (snd r)
     = effects w
       ++ map (fun student => Wrote (Firebase.id student) Firebase.failed None None)
            students
  /\ fst r = if writeFails w (awaits w) then Threw else Returned.
Proof.
  unfold processBatch_catch, updateQueueStatus_all.
  cbn [writeFails awaits log setRandom].
  destruct (writeFails w (awaits w)); simpl; repeat split.
Qed.

Lemma processBatch_after_handshake_trace (students : list QueueEntry)
    (pattern : list PulseType) (config : EmitterConfig) (w : World) :
  let r := processBatch_after_handshake students pattern config w in
  let emitted := negb (emit_rejects (sleep 100 w)) in
  exists caught : bool,
    same_host w (snd r)
    /\ isProcessing (snd r) = isProcessing w
    /\ (emitterRef (snd r) = None <-> emitterRef w = None)
    /\ (emitted = true ->
        forall e, emitterRef (snd r) = Some e -> audioContext e <> None)
    /\ effects (snd r)
       = effects w ++ [Slept 100]
         ++ (if emitted
             then match emitterRef w with
                  | Some _ =>
                      [Emitted pattern config (map (pulse_frequency config) pattern)]
                  | None => []
                  end
                  ++ [Slept 150]
                  ++ map (fun student =>
                            Wrote (Firebase.id student) Firebase.submitted None None)
                       students
             else [])
         ++ (if caught
             then map (fun student =>
                         Wrote (Firebase.id student) Firebase.failed None None)
                    students
             else [])
    /\ (emitted = false -> caught = true)
    /\ (caught = false -> fst r = Returned)
    /\ (fst r = Threw -> caught = true)
    /\ (fst r = Returned \/ fst r = Threw)
    /\ ((forall k, writeFails w k = false) -> emitted = true -> caught = false)
    /\ ((forall k, writeFails w k = false) -> fst r = Returned).
Proof.
  unfold processBatch_after_handshake.
  destruct (emit_if_present_spec pattern config (sleep 100 w))
    as (Hemitted & Hhost & Hproc & Href & Hctx & Heffects).
  cbv zeta in Hemitted, Hhost, Hproc, Href, Hctx, Heffects.
  rewrite sleep_effects in Heffects.
  change (emitterRef (sleep 100 w)) with (emitterRef w) in Href, Heffects.
  change (isProcessing (sleep 100 w)) with (isProcessing w) in Hproc.
  assert (Hhost0 : same_host w (sleep 100 w)) by now split.
  pose proof (same_host_trans _ _ _ Hhost0 Hhost) as Hhost2. clear Hhost Hhost0.
  destruct (emit_if_present pattern config (sleep 100 w)) as [emitted w2].
  cbn [fst snd] in *. rewrite <- Hemitted. clear Hemitted.
  destruct emitted.
  - unfold updateQueueStatus_all.
    set (w3 := sleep 150 w2).
    assert (Hw3 : writeFails w3 = writeFails w) by (destruct Hhost2; assumption).
    destruct (writeFails w3 (awaits w3)) eqn:Hrejected; cbn [negb].
    + exists true.
      match goal with
      | |- context [processBatch_catch students ?w4] =>
          destruct (processBatch_catch_trace students w4)
            as (Chost & Cproc & Cref & Ceffects & Cout);
          cbv zeta in Chost, Cproc, Cref, Ceffects, Cout;
          assert (Hhost4 : same_host w w4) by (destruct Hhost2; now split)
      end.
      pose proof (same_host_trans _ _ _ Hhost4 Chost) as Hhost5.
      rewrite Cproc, Cref, Ceffects, Cout.
      cbn [writeFails isProcessing emitterRef effects await perform sleep w3 awaits].
      rewrite Heffects, <- !app_assoc.
      split; [exact Hhost5|]. split; [exact Hproc|]. split; [exact Href|].
      split; [exact Hctx|]. split; [reflexivity|]. split; [discriminate|].
      split; [discriminate|]. split; [reflexivity|].
      split; [destruct (writeFails w2 _); auto|].
      split; intros Hnever; rewrite Hw3, Hnever in Hrejected; discriminate.
    + exists false.
      cbn [fst snd writeFails isProcessing emitterRef effects await perform sleep w3
           log setRandom].
      rewrite Heffects, <- !app_assoc, app_nil_r.
      split; [destruct Hhost2; now split|]. split; [exact Hproc|].
      split; [exact Href|]. split; [exact Hctx|]. split; [reflexivity|].
      split; [discriminate|]. split; [reflexivity|]. split; [discriminate|].
      split; [auto|]. split; reflexivity.
  - exists true.
    destruct (processBatch_catch_trace students w2)
      as (Chost & Cproc & Cref & Ceffects & Cout).
    cbv zeta in Chost, Cproc, Cref, Ceffects, Cout.
    rewrite app_nil_r in Heffects.
    split; [exact (same_host_trans _ _ _ Hhost2 Chost)|].
    split; [now rewrite Cproc|]. split; [now rewrite Cref|].
    split; [discriminate|].
    split; [now rewrite Ceffects, Heffects, <- !app_assoc|].
    split; [reflexivity|]. split; [discriminate|]. split; [reflexivity|].
    split; [rewrite Cout; destruct (writeFails w2 _); auto|].
    split; [discriminate|].
    intros Hnever. destruct Hhost2 as [_ Hfails _ _ _ _].
    now rewrite Cout, Hfails, Hnever.
Qed.

(** ** [processBatch]: one batch from end to end *)

Lemma processBatch_run :
  forall (first : QueueEntry) (others : list QueueEntry) (configKey : string)
         (w : World),
    let students := first :: others in
    let ids := map Firebase.id students in
    let config := Firebase.config first in
    let pattern := fst (generatePattern None (random (log w))) in
    let batchId := ("batch_" +:+ pretty (Date_now w))%string in
    let marks := map (fun student => Wrote (Firebase.id student) Firebase.emitting
                                       (Some batchId) (Some pattern)) students in
    let submits := map (fun student => Wrote (Firebase.id student) Firebase.submitted
                                         None None) students in
    let fails := map (fun student => Wrote (Firebase.id student) Firebase.failed
                                       None None) students in
    let emission :=
      match emitterRef w with
      | Some _ => [Emitted pattern config (map (pulse_frequency config) pattern)]
      | None => []
      end in
    let marked := processBatch_mark_emitting students w in
    let w0 := log (snd marked) in
    let startTime := Date_now (snd marked) in
    let r := processBatch students configKey w in
    same_host w (snd r)
    /\ isProcessing (snd r) = isProcessing w
    /\ (emitterRef (snd r) = None <-> emitterRef w = None)
    /\ (fst r = Returned \/ fst r = Threw)
    /\ ((forall k, writeFails w k = false) -> fst r = Returned)
    /\ (writeFails w (awaits w) = true ->
        effects (snd r) = effects w ++ marks ++ fails)
    /\ (writeFails w (awaits w) = false ->
        exists (polls : nat) (allReady emitted caught : bool),
          let w1 := Nat.iter polls (sleep 50) w0 in
          handshake_loop 61 ids (length students) startTime w0
          = Some (allReady, if allReady then log w1 else w1)
          /\ (forall j, (j < polls)%nat ->
                (Date_now (Nat.iter j (sleep 50) w0) - startTime < HANDSHAKE_TIMEOUT)%Z
                /\ readyCount ids (Nat.iter j (sleep 50) w0) <> length students)
          /\ (if allReady
              then (Date_now w1 - startTime < HANDSHAKE_TIMEOUT)%Z
                   /\ readyCount ids w1 = length students
              else (HANDSHAKE_TIMEOUT <= Date_now w1 - startTime)%Z)
          /\ (polls <= 60)%nat
          /\ emitted
             = negb match emitterRef w with
                    | Some e =>
                        match audioContext e with
                        | None => initFails w (awaits w + polls + 2)
                        | Some _ => false
                        end
                    | None => false
                    end
          /\ effects (snd r)
             = effects w ++ marks ++ replicate polls (Slept 50) ++ [Slept 100]
               ++ (if emitted then emission ++ [Slept 150] ++ submits else [])
               ++ (if caught then fails else [])
          /\ (emitted = false -> caught = true)
          /\ (caught = false -> fst r = Returned)
          /\ (fst r = Threw -> caught = true)
          /\ ((forall k, writeFails w k = false) -> emitted = true -> caught = false)
          /\ (emitted = true ->
              forall e, emitterRef (snd r) = Some e -> audioContext e <> None)).
Proof.
  intros first others configKey w students ids config pattern batchId marks submits
    fails emission marked w0 startTime r.
  pose proof (processBatch_cons first others configKey w) as Hr.
  cbv zeta in Hr. fold students in Hr. fold r in Hr. fold marked in Hr.
  fold ids in Hr. fold startTime in Hr. fold w0 in Hr. clearbody r. subst r.
  destruct (processBatch_mark_emitting_spec students w)
    as (Hok & Hpattern & Heffects0 & Hhost0 & Hawaits0 & Hclock0 & Href0 & Hproc0).
  cbv zeta in Hok, Hpattern, Heffects0, Hhost0, Hawaits0, Hclock0, Href0, Hproc0.
  fold marked in Hok, Hpattern, Heffects0, Hhost0, Hawaits0, Hclock0, Href0, Hproc0.
  rewrite Hok, Hpattern. fold pattern. fold pattern batchId marks in Heffects0.
  destruct (writeFails w (awaits w)) eqn:Hrejected; cbn [negb].
  - destruct (processBatch_catch_trace students (snd marked))
      as (Chost & Cproc & Cref & Ceffects & Cout).
    cbv zeta in Chost, Cproc, Cref, Ceffects, Cout.
    rewrite Cproc, Cref, Ceffects, Cout, Hproc0, Href0, Heffects0.
    fold fails. rewrite <- app_assoc.
    split; [exact (same_host_trans _ _ _ Hhost0 Chost)|].
    split; [reflexivity|]. split; [reflexivity|].
    split; [destruct (writeFails (snd marked) (awaits (snd marked))); auto|].
    split; [intros Hnever; rewrite Hnever in Hrejected; discriminate|].
    split; [reflexivity | discriminate].
  - destruct (handshake_loop_exit 61 ids (length students) startTime w0)
      as (polls & allReady & Hloop & Hbefore & Hexit).
    { lia. }
    { unfold startTime, w0, HANDSHAKE_TIMEOUT, Date_now. cbn [clock log setRandom]. lia. }
    rewrite Hloop.
    assert (Hpolls : (polls <= 60)%nat).
    { apply (handshake_polls_bound polls startTime w0).
      - unfold startTime, w0, Date_now. cbn [clock log setRandom]. lia.
      - intros j Hj. now apply Hbefore. }
    set (w1 := Nat.iter polls (sleep 50) w0) in *. fold config.
    destruct (sleeps_world polls w0) as (Hhost1 & Hawaits1 & Href1 & Hproc1).
    pose proof (sleeps_effects polls w0) as Heffects1.
    cbv zeta in Hhost1, Hawaits1, Href1, Hproc1. fold w1 in Hhost1, Hawaits1, Href1, Hproc1, Heffects1.
    assert (Hw2 : (if allReady
                   then if allReady then log w1 else w1
                   else log (if allReady then log w1 else w1)) = log w1)
      by now destruct allReady.
    destruct (processBatch_after_handshake_trace students pattern config (log w1))
      as (caught & Ahost & Aproc & Aref & Actx & Aeffects & Anone & Aok & Athrew
          & Aout & Anever & Areturns).
    rewrite Hw2.
    set (r := processBatch_after_handshake students pattern config (log w1)) in *.
    assert (Hhost : same_host w (log w1)).
    { apply (same_host_trans _ (snd marked)); [exact Hhost0|].
      apply (same_host_trans _ w0); [now split|].
      apply (same_host_trans _ w1); [exact Hhost1 | now split]. }
    change (emitterRef (log w1)) with (emitterRef w1) in Aref, Aeffects.
    change (isProcessing (log w1)) with (isProcessing w1) in Aproc.
    change (effects (log w1)) with (effects w1) in Aeffects.
    change (emitterRef w0) with (emitterRef (snd marked)) in Href1.
    change (isProcessing w0) with (isProcessing (snd marked)) in Hproc1.
    change (effects w0) with (effects (snd marked)) in Heffects1.
    change (awaits w0) with (awaits (snd marked)) in Hawaits1.
    rewrite Href1, Href0 in Aref, Aeffects.
    fold submits fails emission in Aeffects.
    assert (Hemitted : negb (emit_rejects (sleep 100 (log w1)))
                       = negb match emitterRef w with
                              | Some e =>
                                  match audioContext e with
                                  | None => initFails w (awaits w + polls + 2)
                                  | Some _ => false
                                  end
                              | None => false
                              end).
    { unfold emit_rejects.
      change (emitterRef (sleep 100 (log w1))) with (emitterRef w1).
      change (awaits (sleep 100 (log w1))) with (S (awaits w1)).
      change (initFails (sleep 100 (log w1))) with (initFails (log w1)).
      destruct Hhost as [_ _ _ _ -> _].
      rewrite Href1, Href0, Hawaits1, Hawaits0.
      now replace (S (S (awaits w) + polls)) with (awaits w + polls + 2)%nat by lia. }
    rewrite Hemitted in Actx, Aeffects, Anone, Anever.
    split; [exact (same_host_trans _ _ _ Hhost Ahost)|].
    split; [now rewrite Aproc, Hproc1|].
    assert (Hfails1 : forall k, writeFails (log w1) k = writeFails w k).
    { intros k. destruct Hhost as [_ Hfails _ _ _ _]. now rewrite Hfails. }
    split; [exact Aref|]. split; [exact Aout|].
    split; [intros Hnever; apply Areturns; intros k; now rewrite Hfails1|].
    split; [discriminate|].
    intros _. exists polls, allReady. eexists. exists caught. cbv zeta.
    split; [reflexivity|]. split; [exact Hbefore|]. split; [exact Hexit|].
    split; [exact Hpolls|]. split; [reflexivity|].
    split; [now rewrite Aeffects, Heffects1, Heffects0, <- !app_assoc|].
    split; [exact Anone|]. split; [exact Aok|]. split; [exact Athrew|].
    split; [|exact Actx].
    intros Hnever. apply Anever. intros k. now rewrite Hfails1.
Qed.

(** ** [processBatch], [processQueue]: the fuel of the handshake is enough *)

Lemma processBatch_outcome (students : list QueueEntry) (configKey : string)
    (w : World) :
  fst (processBatch students configKey w) <> OutOfFuel.
Proof.
  destruct students as [|first others]; [simpl; discriminate|].
  destruct (processBatch_run first others configKey w) as (_ & _ & _ & [H | H] & _);
    rewrite H; discriminate.
Qed.

Lemma processBatches_loop_outcome (configGroups : ConfigGroups) (w : World) :
  fst (processBatches_loop configGroups w) <> OutOfFuel.
Proof.
  revert w. induction configGroups as [|[configKey group] rest IH]; intros w; simpl.
  - discriminate.
  - pose proof (processBatch_outcome group configKey w) as Hbatch.
    destruct (processBatch group configKey w) as [[] w']; simpl in *;
      [apply IH | discriminate | congruence].
Qed.

Lemma processBatches_outcome (configGroups : ConfigGroups) (w : World) :
  fst (processBatches configGroups w) <> OutOfFuel.
Proof. apply processBatches_loop_outcome. Qed.

Lemma processQueue_outcome (numToString : Q -> string)
    (students : list QueueEntry) (w : World) :
  fst (processQueue numToString students w) <> OutOfFuel.
Proof.
  unfold processQueue.
  destruct (isProcessing w || (length students =? 0)%nat); [simpl; discriminate|].
  pose proof (processBatches_outcome
                (groupByConfig numToString students) (setIsProcessing true w)) as Hout.
  destruct (processBatches (groupByConfig numToString students)
              (setIsProcessing true w)) as [outcome w'].
  exact Hout.
Qed.

(* ===================================================================== *)
(** * Part III: the claims *)
(* ===================================================================== *)

(** C1. [comparePatterns] returns as [matchCount] the greedy earliest-match
    count of one forward pass with two pointers, whatever the two lists are
    (and the loop has left its [while] test false: any larger fuel gives the
    same state); [passed] is true exactly when [matchCount >= N - 1] for the
    deployed [N = 6]; and the documented example
    [HLHHL] against [LHHLHHLLL] yields [matchCount = 5]. *)
Theorem C1_comparePatterns_greedy_count :
  forall emitted detected : list PulseType,
    let init := {| emitIndex := 0; detectIndex := 0; matchedPositions := [] |} in
    matchCount (comparePatterns emitted detected) = greedy_match emitted detected
    /\ (forall fuel, (length detected <= fuel)%nat ->
          comparePatterns_loop fuel emitted detected init
          = comparePatterns_loop (length detected) emitted detected init)
    /\ (passed (comparePatterns emitted detected) = true
        <-> (6 - 1 <= matchCount (comparePatterns emitted detected))%nat)
    /\ matchCount (comparePatterns [PH; PL; PH; PH; PL]
                                   [PL; PH; PH; PL; PH; PH; PL; PL; PL]) = 5%nat.
Proof.
  intros emitted detected init. split; [apply comparePatterns_matchCount|].
  split; [|split; [|reflexivity]].
  - intros fuel Hfuel. apply comparePatterns_loop_fuel; simpl; lia.
  - rewrite comparePatterns_passed, PASS_THRESHOLD_value. apply Nat.leb_le.
Qed.

Lemma C1_comparePatterns_greedy_count_witness :
  (length [PL; PH; PH; PL; PH; PH; PL; PL; PL] <= 12)%nat
  /\ comparePatterns_loop 12 [PH; PL; PH; PH; PL] [PL; PH; PH; PL; PH; PH; PL; PL; PL]
       {| emitIndex := 0; detectIndex := 0; matchedPositions := [] |}
     = comparePatterns_loop 9 [PH; PL; PH; PH; PL] [PL; PH; PH; PL; PH; PH; PL; PL; PL]
         {| emitIndex := 0; detectIndex := 0; matchedPositions := [] |}.
Proof.
  split; [simpl; lia|].
  apply (C1_comparePatterns_greedy_count [PH; PL; PH; PH; PL]
           [PL; PH; PH; PL; PH; PH; PL; PL; PL]).
  simpl. lia.
Defined.

(** C2. Whatever peaks were retained, [stopAndAnalyze] returns
    [min(peaks.length, MAX_PEAKS)] of them, so at most [MAX_PEAKS] and exactly
    [MAX_PEAKS] when more were retained; the retained peaks are the returned
    ones together with dropped ones, none of which is stronger than a returned
    one; and the returned list is in non-decreasing order of [timestamp]. *)
Theorem C2_stopAndAnalyze_strongest_in_time_order :
  forall l : UltrasonicListener,
    let finalPeaks := fst (stopAndAnalyze l) in
    (length finalPeaks <= AUDIO_CONFIG.MAX_PEAKS)%nat
    /\ length finalPeaks = Nat.min (length (peaks l)) AUDIO_CONFIG.MAX_PEAKS
    /\ (exists dropped : list DetectedPeak,
          peaks l ≡ₚ finalPeaks ++ dropped
          /\ forall kept weak : DetectedPeak,
               kept ∈ finalPeaks -> weak ∈ dropped ->
               (amplitude weak <= amplitude kept)%Q)
    /\ StronglySorted (fun a b => (timestamp a <= timestamp b)%Q) finalPeaks.
Proof.
  intros l finalPeaks.
  set (byAmplitude := fun a b : DetectedPeak => (amplitude b - amplitude a)%Q).
  set (byTime := fun a b : DetectedPeak => (timestamp a - timestamp b)%Q).
  assert (Hamp : forall a b, (byAmplitude a b <= 0)%Q
                   <-> (- amplitude a <= - amplitude b)%Q).
  { intros a b. unfold byAmplitude. split; intros; lra. }
  assert (Htime : forall a b, (byTime a b <= 0)%Q <-> (timestamp a <= timestamp b)%Q).
  { intros a b. unfold byTime. split; intros; lra. }
  assert (Hlen : length finalPeaks = Nat.min (length (peaks l)) AUDIO_CONFIG.MAX_PEAKS).
  { subst finalPeaks. unfold stopAndAnalyze. simpl. rewrite js_sort_length.
    destruct (Nat.ltb_spec AUDIO_CONFIG.MAX_PEAKS (length (peaks l))).
    - rewrite length_take, js_sort_length. lia.
    - lia. }
  split; [lia|]. split; [exact Hlen|]. split.
  - subst finalPeaks. unfold stopAndAnalyze. simpl.
    fold byAmplitude byTime.
    destruct (AUDIO_CONFIG.MAX_PEAKS <? length (peaks l))%nat.
    + exists (drop AUDIO_CONFIG.MAX_PEAKS (js_sort byAmplitude (peaks l))). split.
      * rewrite js_sort_Permutation, take_drop. symmetry. apply js_sort_Permutation.
      * intros kept weak Hkept Hweak.
        rewrite js_sort_Permutation in Hkept.
        pose proof (js_sort_take_drop byAmplitude (fun p => (- amplitude p)%Q) Hamp
                      _ _ kept weak Hkept Hweak) as Hle.
        simpl in Hle. lra.
    + exists []. split.
      * rewrite app_nil_r. symmetry. apply js_sort_Permutation.
      * intros kept weak _ Hweak. inversion Hweak.
  - subst finalPeaks. unfold stopAndAnalyze. simpl. fold byTime.
    exact (js_sort_sorted byTime timestamp Htime _).
Qed.

Lemma C2_stopAndAnalyze_strongest_in_time_order_witness :
  let l := sample_listener true (sample_peaks 22) (-90) in
  let finalPeaks := fst (stopAndAnalyze l) in
  let kept := sample_peak 19000 (-19) 19 PH in
  let weak := sample_peak 19000 (-21) 21 PH in
  length finalPeaks = 20%nat
  /\ (kept ∈ finalPeaks)
  /\ (weak ∈ peaks l)
  /\ (weak ∉ finalPeaks)
  /\ (amplitude weak <= amplitude kept)%Q.
Proof.
  intros l finalPeaks kept weak.
  destruct (C2_stopAndAnalyze_strongest_in_time_order l)
    as (_ & Hlength & (dropped & Hperm & Hweaker) & _).
  assert (Hkept : kept ∈ finalPeaks).
  { apply list_elem_of_In. vm_compute. tauto. }
  assert (Hweak : weak ∈ peaks l).
  { apply list_elem_of_In. vm_compute. tauto. }
  assert (Hout : weak ∉ finalPeaks).
  { intros Hin. apply list_elem_of_In in Hin. vm_compute in Hin.
    repeat (destruct Hin as [Hin | Hin]; [discriminate Hin|]). exact Hin. }
  split; [exact Hlength|]. split; [exact Hkept|]. split; [exact Hweak|].
  split; [exact Hout|].
  apply Hweaker; [exact Hkept|].
  rewrite Hperm in Hweak. apply elem_of_app in Hweak as [Hin | Hin];
    [contradiction | exact Hin].
Defined.

(** Three peaks come back in the order of their timestamps, which is not
    the order of their amplitudes. *)
Example stopAndAnalyze_example :
  map timestamp
      (fst (stopAndAnalyze
              (sample_listener true
                 [sample_peak 19000 (-30) 300 PH;
                  sample_peak 17500 (-50) 100 PL;
                  sample_peak 19000 (-20) 200 PH] (-90))))
  = [100%Q; 200%Q; 300%Q].
Proof. reflexivity. Qed.

(** C3, as the code has it.  The estimate is changed only by a frame analysed
    while recording whose [medianAmplitude] exceeds it: frames whose median
    does not exceed it leave it as it is, however many of them.  The update
    replaces it with [old * 0.9 + median * 0.1] as double arithmetic computes
    it, the two products and the sum each rounded to the nearest double.  The
    result lies between the old estimate and the median up to a rounding
    error of relative size 2^-51, and it is not always above the old
    estimate.  [stopAndAnalyze] leaves the estimate alone.  [clearPeaks]
    resets it to -100.  [startRecording] resets it to -100 only on a listener
    that is not yet recording, and then feeds the first frame to
    [analyzeLoop]; on a listener that is recording it returns at once and
    resets nothing. *)
Theorem C3_noiseFloor_ratchet :
  forall (Math_log10 : Q -> Q) (l : UltrasonicListener) (f : AnalyserFrame)
         (frames : list AnalyserFrame),
    let old := noiseFloor l in
    let median := medianAmplitude f in
    let new := noiseFloor (analyzeLoop Math_log10 f l) in
    let rounding := ((Qabs old + Qabs median) * 2 ^ (-51) + 2 ^ (-1073))%Q in
    (Forall (fun g => Qltb old (medianAmplitude g) = false) frames ->
     noiseFloor (analyzeFrames Math_log10 frames l) = old)
    /\ (Qltb old median = false -> new = old)
    /\ (isRecording l = true -> analyser_ready l = true ->
        Qltb old median = true ->
        new = binary64 (binary64 (old * binary64 0.9)
                        + binary64 (median * binary64 0.1))
        /\ (old - rounding <= new <= median + rounding)%Q)
    /\ noiseFloor (snd (stopAndAnalyze l)) = old
    /\ noiseFloor (clearPeaks l) = (-100)%Q
    /\ (isRecording l = false ->
        exists fresh : UltrasonicListener,
          noiseFloor fresh = (-100)%Q /\ peaks fresh = [] /\ isRecording fresh = true
          /\ startRecording Math_log10 f l = analyzeLoop Math_log10 f fresh)
    /\ (isRecording l = true -> startRecording Math_log10 f l = l).
Proof.
  intros Math_log10 l f frames old median new rounding. subst old median new rounding.
  split; [apply analyzeFrames_noiseFloor_kept|].
  split; [|split; [|split; [reflexivity|split; [reflexivity|split]]]].
  - intros Hle. rewrite analyzeLoop_noiseFloor.
    destruct (isRecording l && analyser_ready l); [|reflexivity].
    now apply adapt_noiseFloor_unchanged.
  - intros Hrec Hready Hlt. rewrite analyzeLoop_noiseFloor, Hrec, Hready.
    cbn [andb]. split; [now apply adapt_noiseFloor_raised|].
    now apply adapt_noiseFloor_near.
  - intros Hidle.
    exists {| analyser_ready := analyser_ready l;
              isRecording := true;
              peaks := [];
              animationFrameId := animationFrameId l;
              noiseFloor := -100 |}.
    unfold startRecording. rewrite Hidle. auto.
  - intros Hrec. unfold startRecording. now rewrite Hrec.
Qed.

Lemma C3_noiseFloor_ratchet_witness :
  let l := sample_listener true [] (-100) in
  let f := sample_frame (-80) (-30) 3243 1000 in
  let new := noiseFloor (analyzeLoop sample_log10 f l) in
  new = binary64 (binary64 (-100 * binary64 0.9)
                  + binary64 (medianAmplitude f * binary64 0.1))
  /\ (-100 - ((Qabs (-100) + Qabs (medianAmplitude f)) * 2 ^ (-51) + 2 ^ (-1073))
      <= new
      <= medianAmplitude f
         + ((Qabs (-100) + Qabs (medianAmplitude f)) * 2 ^ (-51) + 2 ^ (-1073)))%Q.
Proof.
  intros l f new.
  apply (C3_noiseFloor_ratchet sample_log10 l f []); vm_compute; reflexivity.
Defined.

(** C3 as worded fails twice.  In double arithmetic the update can lower the
    estimate: in a recording started on a frame with median -99.375 and
    continued with frames of median -96.5 and -99.59375, the third median
    exceeds the estimate, the update fires and puts the estimate lower than
    it was.  And [startRecording], called on a listener that is already
    recording, leaves an estimate of -50 at -50. *)
Lemma C3_estimate_lowered_and_not_reset :
  let frame m := sample_frame m (-30) 3243 1000 in
  let l1 := startRecording sample_log10 (frame (-99.375)%Q)
              (sample_listener false [] (-100)) in
  let l2 := analyzeLoop sample_log10 (frame (-96.5)%Q) l1 in
  let l3 := analyzeLoop sample_log10 (frame (-99.59375)%Q) l2 in
  let l := sample_listener true [] (-50) in
  let l' := startRecording sample_log10 (frame (-80)%Q) l in
  (noiseFloor l2 < medianAmplitude (frame (-99.59375)%Q))%Q
  /\ (noiseFloor l3 < noiseFloor l2)%Q
  /\ noiseFloor l2 = (-7008287115444225 # 70368744177664)%Q
  /\ noiseFloor l3 = (-3504143557722113 # 35184372088832)%Q
  /\ noiseFloor l' = (-50)%Q /\ ~ (noiseFloor l' == -100)%Q.
Proof.
  intros frame l1 l2 l3 l l'.
  assert (H2 : noiseFloor l2 = (-7008287115444225 # 70368744177664)%Q)
    by (vm_compute; reflexivity).
  assert (H3 : noiseFloor l3 = (-3504143557722113 # 35184372088832)%Q)
    by (vm_compute; reflexivity).
  split; [rewrite H2; vm_compute; reflexivity|].
  split; [rewrite H2, H3; reflexivity|].
  split; [exact H2|]. split; [exact H3|].
  split; [reflexivity|]. vm_compute. discriminate.
Qed.

(** C4, as the code has it.  A frame analysed while recording yields a
    classified detection that lies within the merge windows of a retained
    peak [near].  Then [find] returns the first retained peak, in the order
    of retention, that is within both windows: [near] itself when no earlier
    peak is, an earlier one otherwise.  The number of retained peaks stays
    the same; that first peak is overwritten, in its place and in all five
    fields, by the detection when the detection's amplitude is strictly
    greater, and the detection is dropped otherwise, so the peak at that
    place afterwards carries the greater of the two amplitudes; every other
    retained peak, within the windows or not, is left as it was. *)
Theorem C4_merge_into_first_peak_within_windows :
  forall (Math_log10 : Q -> Q) (f : AnalyserFrame) (l : UltrasonicListener)
         (detection near : DetectedPeak),
    isRecording l = true ->
    analyser_ready l = true ->
    classify_frame Math_log10 f (adapt_noiseFloor (noiseFloor l) (medianAmplitude f))
    = Some detection ->
    near ∈ peaks l ->
    same_pulse (frequency detection) (timestamp detection) near = true ->
    let within := same_pulse (frequency detection) (timestamp detection) in
    let after := peaks (analyzeLoop Math_log10 f l) in
    exists (i k : nat) (existingPeak survivor : DetectedPeak),
      peaks l !! i = Some existingPeak
      /\ within existingPeak = true
      /\ (forall j p, (j < i)%nat -> peaks l !! j = Some p -> within p = false)
      /\ peaks l !! k = Some near
      /\ (i <= k)%nat
      /\ ((forall j p, (j < k)%nat -> peaks l !! j = Some p -> within p = false) ->
          i = k /\ existingPeak = near)
      /\ length after = length (peaks l)
      /\ (Qltb (amplitude existingPeak) (amplitude detection) = true ->
          after = <[i := detection]> (peaks l) /\ survivor = detection)
      /\ (Qltb (amplitude existingPeak) (amplitude detection) = false ->
          after = peaks l /\ survivor = existingPeak)
      /\ (forall j, j <> i -> after !! j = peaks l !! j)
      /\ after !! i = Some survivor
      /\ (amplitude existingPeak <= amplitude survivor)%Q
      /\ (amplitude detection <= amplitude survivor)%Q.
Proof.
  intros Math_log10 f l detection near Hrec Hready Hclass Hnear Hwindow within after.
  destruct (js_find_is_Some _ _ _ Hnear Hwindow) as (i & existingPeak & Hfind).
  destruct (js_find_Some _ _ _ _ Hfind) as (Hi & Hsame & Hfirst).
  apply list_elem_of_lookup in Hnear as [k Hk].
  assert (Hik : (i <= k)%nat).
  { destruct (Nat.le_gt_cases i k) as [Hle | Hgt]; [exact Hle|].
    specialize (Hfirst k near Hgt Hk). congruence. }
  assert (Honly : (forall j p, (j < k)%nat -> peaks l !! j = Some p -> within p = false) ->
                  i = k /\ existingPeak = near).
  { intros Hnone.
    destruct (Nat.eq_dec i k) as [-> | Hne]; [split; [reflexivity | congruence]|].
    assert (Hlt : (i < k)%nat) by lia.
    specialize (Hnone i existingPeak Hlt Hi). unfold within in Hnone. congruence. }
  subst after. rewrite (analyzeLoop_peaks Math_log10 f l detection Hrec Hready Hclass).
  rewrite (merge_peak_found _ _ _ _ Hfind).
  pose proof (lookup_lt_Some _ _ _ Hi) as Hlt.
  destruct (Qltb (amplitude existingPeak) (amplitude detection)) eqn:Hamp.
  - exists i, k, existingPeak, detection.
    pose proof (proj1 (Qltb_lt _ _) Hamp) as Hstronger.
    split; [exact Hi|]. split; [exact Hsame|]. split; [exact Hfirst|].
    split; [exact Hk|]. split; [exact Hik|]. split; [exact Honly|].
    split; [apply length_insert|].
    split; [intros _; split; reflexivity|]. split; [intros; congruence|].
    split; [intros j Hj; apply list_lookup_insert_ne; congruence|].
    split; [now apply list_lookup_insert_eq|].
    split; [now apply Qlt_le_weak | apply Qle_refl].
  - exists i, k, existingPeak, existingPeak.
    pose proof (proj1 (Qltb_ge _ _) Hamp) as Hweaker.
    split; [exact Hi|]. split; [exact Hsame|]. split; [exact Hfirst|].
    split; [exact Hk|]. split; [exact Hik|]. split; [exact Honly|].
    split; [reflexivity|].
    split; [intros; congruence|]. split; [intros _; split; reflexivity|].
    split; [reflexivity|].
    split; [exact Hi|].
    split; [apply Qle_refl | exact Hweaker].
Qed.

Lemma C4_merge_into_first_peak_within_windows_witness :
  let f := sample_frame (-80) (-30) 3243 1000 in
  let l := sample_listener true [sample_peak 19000 (-40) 950 PH] (-100) in
  classify_frame sample_log10 f (adapt_noiseFloor (noiseFloor l) (medianAmplitude f))
  = Some sample_detection
  /\ same_pulse (frequency sample_detection) (timestamp sample_detection)
       (sample_peak 19000 (-40) 950 PH) = true
  /\ length (peaks (analyzeLoop sample_log10 f l)) = length (peaks l)
  /\ peaks (analyzeLoop sample_log10 f l) = [sample_detection].
Proof.
  intros f l.
  assert (Hclass : classify_frame sample_log10 f
                     (adapt_noiseFloor (noiseFloor l) (medianAmplitude f))
                   = Some sample_detection) by (vm_compute; reflexivity).
  assert (Hwindow : same_pulse (frequency sample_detection) (timestamp sample_detection)
                      (sample_peak 19000 (-40) 950 PH) = true) by (vm_compute; reflexivity).
  split; [exact Hclass|]. split; [exact Hwindow|].
  destruct (C4_merge_into_first_peak_within_windows sample_log10 f l sample_detection
              (sample_peak 19000 (-40) 950 PH) eq_refl eq_refl Hclass
              (list_elem_of_here _ _) Hwindow)
    as (i & k & existingPeak & survivor & _ & _ & _ & _ & _ & _ & Hlength & _).
  split; [exact Hlength|]. vm_compute. reflexivity.
Defined.

(** C4 as worded fails when two retained peaks are within the windows.  The
    retained peaks are 18761.7 Hz at -25 dB, from 960 ms, and 19236.3 Hz at
    -40 dB, from 990 ms; the detection is 19001.95 Hz at -30 dB at 1000 ms.
    It is within both windows of the second peak, and stronger than it; but
    [find] returns the first peak, which is stronger than the detection, so
    the detection is dropped and the second peak keeps its -40 dB. *)
Lemma C4_detection_dropped_beside_weaker_peak :
  let f := sample_frame (-80) (-30) 3243 1000 in
  let first := sample_peak 18761.7 (-25) 960 PH in
  let second := sample_peak 19236.3 (-40) 990 PH in
  let l := sample_listener true [first; second] (-100) in
  classify_frame sample_log10 f (adapt_noiseFloor (noiseFloor l) (medianAmplitude f))
  = Some sample_detection
  /\ same_pulse (frequency sample_detection) (timestamp sample_detection) second = true
  /\ (amplitude second < amplitude sample_detection)%Q
  /\ peaks (analyzeLoop sample_log10 f l) = [first; second].
Proof.
  intros f first second l.
  split; [vm_compute; reflexivity|]. split; [vm_compute; reflexivity|].
  split; [reflexivity|]. vm_compute. reflexivity.
Qed.

(** C5. [matchCount] never exceeds the length of the emitted pattern, and once
    the match has used up the whole emitted pattern, symbols appended to the
    end of [detected] leave [matchCount] as it is. *)
Theorem C5_matchCount_bounded_and_stable :
  forall emitted detected : list PulseType,
    (matchCount (comparePatterns emitted detected) <= length emitted)%nat
    /\ forall noise : list PulseType,
         matchCount (comparePatterns emitted detected) = length emitted ->
         matchCount (comparePatterns emitted (detected ++ noise))
         = matchCount (comparePatterns emitted detected).
Proof.
  intros emitted detected. rewrite comparePatterns_matchCount. split.
  - apply greedy_match_le.
  - intros noise Hfull. rewrite comparePatterns_matchCount, Hfull.
    now apply greedy_match_exhausted.
Qed.

Lemma C5_matchCount_bounded_and_stable_witness :
  matchCount (comparePatterns [PH; PL] [PL; PH; PH; PL]) = length [PH; PL]
  /\ matchCount (comparePatterns [PH; PL] ([PL; PH; PH; PL] ++ [PUnknown; PH; PL]))
     = matchCount (comparePatterns [PH; PL] [PL; PH; PH; PL]).
Proof.
  split; [reflexivity|].
  apply (C5_matchCount_bounded_and_stable [PH; PL] [PL; PH; PH; PL]).
  reflexivity.
Defined.

(** C6. [Number::toString] is a function of the host; what is used of it is
    that two numbers have the same text exactly when they are the same number,
    that its text holds no underscore, and that it is never the text
    "undefined".  Then two students handed to [processQueue] are put in the
    same batch when all seven fields of their configurations have the same
    values, and in different batches as soon as one field differs: the keys
    [getConfigKey] builds are equal exactly for configurations with the same
    values; and the batches [processQueue] hands to [processBatch], one after
    the other, are these groups. *)
Theorem C6_batches_follow_exact_config :
  forall numToString : Q -> string,
    (forall a b : Q, numToString a = numToString b <-> (a == b)%Q) ->
    (forall a : Q, ~ occurs "_" (numToString a)) ->
    (forall a : Q, numToString a <> "undefined") ->
    forall (students : list QueueEntry) (s1 s2 : QueueEntry),
      s1 ∈ students -> s2 ∈ students ->
      let c1 := Firebase.config s1 in
      let c2 := Firebase.config s2 in
      let batches := groupByConfig numToString students in
      (getConfigKey numToString c1 = getConfigKey numToString c2 <-> same_config c1 c2)
      /\ (same_config c1 c2 ->
          exists configKey group,
            (configKey, group) ∈ batches /\ s1 ∈ group /\ s2 ∈ group)
      /\ (~ same_config c1 c2 ->
          forall configKey group,
            (configKey, group) ∈ batches -> ~ (s1 ∈ group /\ s2 ∈ group))
      /\ (forall w : World,
            isProcessing w = false ->
            processQueue numToString students w
            = let (outcome, w') := processBatches batches (setIsProcessing true w) in
              (outcome, processQueue_finally w')).
Proof.
  intros numToString Hsame Hsep Hdef students s1 s2 H1 H2 c1 c2 batches.
  pose proof (getConfigKey_same_config numToString Hsame Hsep Hdef c1 c2) as Hkey.
  split; [exact Hkey|]. split; [|split].
  - intros Hconfig. apply groupByConfig_same_key; auto. now apply Hkey.
  - intros Hdiffer configKey group Hbatch [Hin1 Hin2]. apply Hdiffer, Hkey.
    exact (groupByConfig_other_key numToString students s1 s2 configKey group
             Hbatch Hin1 Hin2).
  - intros w Hidle. unfold processQueue. rewrite Hidle.
    destruct students as [|s students]; [inversion H1|]. reflexivity.
Qed.

Lemma C6_batches_follow_exact_config_witness :
  let ann := sample_student "ann" Firebase.ready 0.5 in
  let bob := sample_student "bob" Firebase.ready (1 # 2) in
  let cy := sample_student "cy" Firebase.ready 0.8 in
  exists configKey group,
    (configKey, group) ∈ groupByConfig sample_numToString [ann; cy; bob]
    /\ ann ∈ group /\ bob ∈ group.
Proof.
  intros ann bob cy.
  apply (C6_batches_follow_exact_config sample_numToString
           sample_numToString_same sample_numToString_no_underscore
           sample_numToString_not_undefined [ann; cy; bob] ann bob).
  - apply list_elem_of_In. simpl. tauto.
  - apply list_elem_of_In. simpl. tauto.
  - repeat split; reflexivity.
Defined.

(** C7. Once the batch is marked 'emitting', the coordinator polls
    [queueRef.current], sleeping 50 ms between polls.  The timeout is 3000
    ms.  The loop is left at the first poll at which either the count of
    listening entries equals the size of the batch (with unique ids: every
    student of the batch is listening) or 3000 ms have passed on the clock
    since the handshake started; at every earlier poll neither was the case.
    Timers never fire early, so there are at most 60 sleeps, whatever the
    students do, and no amount of extra fuel changes the result; and the loop
    is left less than 3000 ms, one sleep of 50 ms and the overrun of that
    sleep's timer after the handshake started.  In both cases [processBatch]
    itself goes on the same way: after the sleeps of the loop it sleeps 100
    ms and then, with an emitter that has an audio context or is granted
    one, emits the pattern of the batch with the configuration of the first
    student. *)
Theorem C7_handshake_ends_ready_or_timed_out :
  forall (first : QueueEntry) (others : list QueueEntry) (configKey : string)
         (w : World),
    let students := first :: others in
    let ids := map Firebase.id students in
    let config := Firebase.config first in
    let marked := processBatch_mark_emitting students w in
    let pattern := snd (fst marked) in
    let w0 := log (snd marked) in
    let startTime := Date_now (snd marked) in
    let run := processBatch students configKey w in
    writeFails w (awaits w) = false ->
    HANDSHAKE_TIMEOUT = 3000%Z
    /\ exists (polls : nat) (allReady : bool),
         let w1 := Nat.iter polls (sleep 50) w0 in
         (polls <= 60)%nat
         /\ (forall fuel, (61 <= fuel)%nat ->
               handshake_loop fuel ids (length students) startTime w0
               = Some (allReady, if allReady then log w1 else w1))
         /\ (forall j, (j < polls)%nat ->
               (Date_now (Nat.iter j (sleep 50) w0) - startTime < 3000)%Z
               /\ readyCount ids (Nat.iter j (sleep 50) w0) <> length students)
         /\ (allReady = true ->
               (Date_now w1 - startTime < 3000)%Z
               /\ readyCount ids w1 = length students
               /\ (NoDup ids -> NoDup (map Firebase.id (queueRef w1)) ->
                   forall student, student ∈ students ->
                     exists e, e ∈ queueRef w1
                               /\ Firebase.id e = Firebase.id student
                               /\ Firebase.status e = Firebase.listening))
         /\ (allReady = false -> (3000 <= Date_now w1 - startTime)%Z)
         /\ (Date_now w1 - startTime
             < 3000 + 50 + Z.of_nat (lateness w (awaits w + polls)))%Z
         /\ exists rest : list Effect,
              effects (snd run)
              = effects (snd marked) ++ replicate polls (Slept 50)
                ++ [Slept 100] ++ rest
              /\ (forall e, emitterRef w = Some e ->
                    audioContext e <> None
                    \/ initFails w (awaits w + polls + 2) = false ->
                    exists rest',
                      rest = Emitted pattern config
                               (map (pulse_frequency config) pattern) :: rest').
Proof.
  intros first others configKey w students ids config marked pattern w0 startTime
    run Hwrite.
  split; [reflexivity|].
  destruct (processBatch_mark_emitting_spec students w)
    as (_ & Hpattern & Heffects0 & Hhost0 & Hawaits0 & _).
  cbv zeta in Hpattern, Heffects0, Hhost0, Hawaits0.
  fold marked in Hpattern, Heffects0, Hhost0, Hawaits0. fold pattern in Hpattern.
  destruct (processBatch_run first others configKey w)
    as (_ & _ & _ & _ & _ & _ & Hrun).
  destruct (Hrun Hwrite)
    as (polls & allReady & emitted & caught & Hloop & Hbefore & Hexit & Hpolls
        & Hemitted & Heffects & _).
  fold students ids marked w0 startTime run in Hloop, Hbefore, Hexit, Heffects.
  fold config in Heffects. rewrite <- Hpattern in Heffects.
  exists polls, allReady. cbv zeta.
  split; [exact Hpolls|].
  split; [intros fuel Hfuel; now apply (handshake_loop_more_fuel 61)|].
  split; [exact Hbefore|].
  split; [|split; [|split]].
  - intros ->. destruct Hexit as [Hin Hcount]. split; [exact Hin|].
    split; [exact Hcount|].
    intros Hids Hqueue. now apply readyCount_all_listening.
  - intros ->. exact Hexit.
  - pose proof (handshake_exit_time polls startTime w0) as Htime.
    destruct Hhost0 as [Hlate _ _ _ _ _].
    change (lateness w0) with (lateness (snd marked)) in Htime.
    change (awaits w0) with (awaits (snd marked)) in Htime.
    rewrite Hlate, Hawaits0 in Htime.
    replace (S (awaits w) + polls - 1)%nat with (awaits w + polls)%nat in Htime by lia.
    apply Htime.
    + unfold startTime, w0, HANDSHAKE_TIMEOUT, Date_now. cbn [clock log setRandom]. lia.
    + intros j Hj. now apply Hbefore.
  - eexists. split.
    + rewrite Heffects, Heffects0, <- !app_assoc. reflexivity.
    + intros e He Hplays.
      assert (Hyes : emitted = true).
      { rewrite Hemitted, He.
        destruct (audioContext e) as [ctx|]; [reflexivity|].
        destruct Hplays as [Hctx | ->]; [congruence | reflexivity]. }
      rewrite Hyes, He. eexists. reflexivity.
Qed.

Lemma C7_handshake_ends_ready_or_timed_out_witness :
  writeFails sample_world (awaits sample_world) = false
  /\ exists polls : nat,
       (polls <= 60)%nat
       /\ handshake_loop 61 ["ann"] 1
            (Date_now (snd (processBatch_mark_emitting
                              [sample_student "ann" Firebase.ready 0.5] sample_world)))
            (log (snd (processBatch_mark_emitting
                         [sample_student "ann" Firebase.ready 0.5] sample_world)))
          = Some (true,
                  log (Nat.iter polls (sleep 50)
                         (log (snd (processBatch_mark_emitting
                                      [sample_student "ann" Firebase.ready 0.5]
                                      sample_world))))).
Proof.
  split; [reflexivity|].
  destruct (C7_handshake_ends_ready_or_timed_out
              (sample_student "ann" Firebase.ready 0.5) [] "key" sample_world)
    as (_ & polls & allReady & Hpolls & Hloop & _);
    [reflexivity|].
  exists polls. split; [exact Hpolls|].
  destruct allReady.
  - apply (Hloop 61%nat). lia.
  - exfalso. specialize (Hloop 61%nat (Nat.le_refl _)).
    vm_compute in Hloop. discriminate Hloop.
Defined.

(** C8. For every length [n >= 0], [generatePattern(n)] returns exactly [n]
    symbols, each of them 'H' or 'L' and never '?'; without an argument it
    returns [NUM_PULSES = 6] symbols. *)
Theorem C8_generatePattern_length_and_alphabet :
  forall (n : nat) (r : Random),
    let pattern := fst (generatePattern (Some (inject_Z (Z.of_nat n))) r) in
    let default := fst (generatePattern None r) in
    length pattern = n
    /\ Forall (fun s => (s = PH \/ s = PL) /\ s <> PUnknown) pattern
    /\ length default = AUDIO_CONFIG.NUM_PULSES
    /\ AUDIO_CONFIG.NUM_PULSES = 6%nat
    /\ Forall (fun s => (s = PH \/ s = PL) /\ s <> PUnknown) default.
Proof.
  intros n r pattern default.
  assert (Hnot : forall l, Forall high_or_low l ->
                   Forall (fun s => (s = PH \/ s = PL) /\ s <> PUnknown) l).
  { intros l Hl. eapply Forall_impl; [exact Hl|].
    intros s [-> | ->]; split; auto; discriminate. }
  destruct (generatePattern_spec n r) as (Hlen & Hsym & _).
  destruct (generatePattern_spec AUDIO_CONFIG.NUM_PULSES r) as (Hlen6 & Hsym6 & _).
  repeat split; auto.
Qed.

(** C9. [emit(pattern, config)] returns one frequency per symbol of the
    pattern, in the pattern's order: [config.freqHigh] for 'H' and
    [config.freqLow] for 'L'.  The oscillators it schedules are the warm-up
    pulse at 17500 Hz followed by one oscillator per returned frequency: the
    warm-up's frequency is scheduled but is no element of the list returned. *)
Theorem C9_emit_echoes_pattern :
  forall (pattern : list PulseType) (config : EmitterConfig) (t : Q)
         (e : UltrasonicEmitter),
    let result := emit pattern config t e in
    let freqs := fst (fst result) in
    let before :=
      match audioContext e with
      | Some ctx => oscillators ctx
      | None => []
      end in
    length freqs = length pattern
    /\ freqs = map (fun sym => match sym with
                               | PH => freqHigh config
                               | _ => freqLow config
                               end) pattern
    /\ (forall i : nat,
          freqs !! i
          = match pattern !! i with
            | Some PH => Some (freqHigh config)
            | Some PL => Some (freqLow config)
            | Some PUnknown => Some (freqLow config)
            | None => None
            end)
    /\ exists ctx : AudioContext,
         audioContext (snd result) = Some ctx
         /\ map osc_frequency (oscillators ctx)
            = map osc_frequency before ++ WAKE_UP_FREQ :: freqs
         /\ WAKE_UP_FREQ = 17500%Q.
Proof.
  intros pattern config t e result freqs before.
  assert (Hmap : map (pulse_frequency config) pattern
                 = map (fun sym => match sym with
                                   | PH => freqHigh config
                                   | _ => freqLow config
                                   end) pattern).
  { apply map_ext. now intros []. }
  assert (Hshape : freqs = map (pulse_frequency config) pattern
            /\ exists ctx, audioContext (snd result) = Some ctx
                 /\ map osc_frequency (oscillators ctx)
                    = map osc_frequency before ++ WAKE_UP_FREQ :: freqs).
  { subst result freqs before. unfold emit, emitter_init.
    destruct (audioContext e) as [ctx|] eqn:Hctx; simpl; [rewrite Hctx|].
    - match goal with
      | |- context [emit_loop ?c ?u ?h ?n ?i ?r ?s] =>
          destruct (emit_loop_spec c u h n i r s) as [Hf Ho]
      end.
      simpl in *. split; [exact Hf|]. eexists. split; [reflexivity|].
      rewrite Ho, Hf, map_app. simpl. now rewrite <- app_assoc.
    - match goal with
      | |- context [emit_loop ?c ?u ?h ?n ?i ?r ?s] =>
          destruct (emit_loop_spec c u h n i r s) as [Hf Ho]
      end.
      simpl in *. split; [exact Hf|]. eexists. split; [reflexivity|].
      rewrite Ho, Hf. reflexivity. }
  destruct Hshape as [Hfreqs (ctx & Hctx & Hosc)].
  split; [rewrite Hfreqs; apply length_map|].
  split; [now rewrite Hfreqs|].
  split.
  - intros i. rewrite Hfreqs, list_lookup_fmap.
    destruct (pattern !! i) as [[]|]; reflexivity.
  - exists ctx. auto.
Qed.

(** C10. [passed] compares [matchCount] with the global
    [PASS_THRESHOLD = NUM_PULSES - 1 = 5], whatever the length of [emitted];
    so an emitted pattern shorter than 5 never passes, not even against a
    detected list equal to it, where every emitted symbol is matched. *)
Theorem C10_short_pattern_never_passes :
  forall emitted detected : list PulseType,
    (length emitted < 5)%nat ->
    PASS_THRESHOLD = 5%nat
    /\ passed (comparePatterns emitted detected)
       = (PASS_THRESHOLD <=? matchCount (comparePatterns emitted detected))%nat
    /\ passed (comparePatterns emitted detected) = false
    /\ matchCount (comparePatterns emitted emitted) = length emitted
    /\ passed (comparePatterns emitted emitted) = false.
Proof.
  intros emitted detected Hshort.
  assert (Hfail : forall d, passed (comparePatterns emitted d) = false).
  { intros d. rewrite comparePatterns_passed, PASS_THRESHOLD_value.
    apply Nat.leb_gt. rewrite comparePatterns_matchCount.
    pose proof (greedy_match_le emitted d). lia. }
  split; [apply PASS_THRESHOLD_value|].
  split; [apply comparePatterns_passed|].
  split; [apply Hfail|].
  split; [|apply Hfail].
  rewrite comparePatterns_matchCount. apply greedy_match_same.
Qed.

Lemma C10_short_pattern_never_passes_witness :
  passed (comparePatterns [PH; PL; PH; PL] [PH; PL; PH; PL]) = false.
Proof.
  apply (C10_short_pattern_never_passes [PH; PL; PH; PL] [PH; PL; PH; PL]).
  simpl. lia.
Defined.

(* ===================================================================== *)
(** * Part IV: further properties of the code *)
(* ===================================================================== *)

(** ** [comparePatterns]: what the greedy count measures *)

Lemma greedy_match_prefix (emitted detected : list PulseType) (k : nat) :
  (k <= length emitted)%nat ->
  ((k <= greedy_match emitted detected)%nat <-> take k emitted `sublist_of` detected).
Proof.
  revert emitted k. induction detected as [|d ds IH]; intros emitted k Hk.
  - simpl. rewrite sublist_nil_r. split.
    + intros Hle. assert (k = 0%nat) as -> by lia. reflexivity.
    + intros Hnil. apply (f_equal length) in Hnil.
      rewrite length_take in Hnil. simpl in Hnil. lia.
  - destruct emitted as [|e es].
    + simpl in *. assert (k = 0%nat) as -> by lia. simpl.
      split; [intros _; apply sublist_nil_l | lia].
    + destruct k as [|k]; [simpl; split; [intros _; apply sublist_nil_l | lia]|].
      simpl in Hk. simpl take. simpl greedy_match.
      rewrite sublist_cons_r.
      destruct (PulseType_eqb e d) eqn:Heq.
      * apply PulseType_eqb_eq in Heq. subst d.
        rewrite <- Nat.succ_le_mono, (IH es k) by lia. split.
        -- intros Hsub. right. eauto.
        -- intros [Hsub | (l' & [= <-] & Hsub)]; [|exact Hsub].
           eapply sublist_cons_l in Hsub as (k1 & k2 & -> & Hsub).
           etransitivity; [exact Hsub|]. apply sublist_inserts_l, sublist_cons.
           reflexivity.
      * rewrite (IH (e :: es) (S k)) by (simpl; lia). simpl take. split.
        -- intros Hsub. now left.
        -- intros [Hsub | (l' & [= -> _] & _)]; [exact Hsub|].
           rewrite PulseType_eqb_refl in Heq. discriminate.
Qed.

Lemma greedy_match_sublist (emitted detected detected' : list PulseType) :
  detected `sublist_of` detected' ->
  (greedy_match emitted detected <= greedy_match emitted detected')%nat.
Proof.
  intros Hsub.
  apply (greedy_match_prefix emitted detected' (greedy_match emitted detected)).
  - apply greedy_match_le.
  - etransitivity; [|exact Hsub].
    apply (greedy_match_prefix emitted detected); [apply greedy_match_le | lia].
Qed.

Lemma greedy_match_le_detected (emitted detected : list PulseType) :
  (greedy_match emitted detected <= length detected)%nat.
Proof.
  revert emitted. induction detected as [|d ds IH]; intros [|e es]; simpl; try lia.
  destruct (PulseType_eqb e d).
  - specialize (IH es). lia.
  - specialize (IH (e :: es)). lia.
Qed.

Lemma alternating_length (n : nat) : length (alternating n) = (2 * n)%nat.
Proof. induction n as [|n IH]; simpl; lia. Qed.

Lemma alternating_contains (emitted : list PulseType) (n : nat) :
  Forall high_or_low emitted ->
  (length emitted <= n)%nat ->
  emitted `sublist_of` alternating n.
Proof.
  intros Hsym. revert n. induction Hsym as [|e es He Hes IH]; intros n Hn.
  - apply sublist_nil_l.
  - destruct n as [|n]; [simpl in Hn; lia|]. simpl in *.
    specialize (IH n ltac:(lia)).
    destruct He as [-> | ->].
    + apply sublist_skip, sublist_cons, IH.
    + apply sublist_cons, sublist_skip, IH.
Qed.

Lemma comparePatterns_loop_positions fuel emitted detected s :
  positions_ok emitted detected s ->
  positions_ok emitted detected (comparePatterns_loop fuel emitted detected s).
Proof.
  revert s. induction fuel as [|fuel IH]; intros [ei di mp] Hs; [exact Hs|].
  simpl.
  destruct (Nat.ltb_spec ei (length emitted)) as [He | He]; simpl; [|exact Hs].
  destruct (Nat.ltb_spec di (length detected)) as [Hd | Hd]; simpl; [|exact Hs].
  destruct Hs as (Hidx & Hpos & Hinc). simpl in *.
  destruct (lookup_lt_is_Some_2 emitted ei He) as [e Hei].
  destruct (lookup_lt_is_Some_2 detected di Hd) as [d Hdi].
  unfold same_symbol. simpl. rewrite Hei, Hdi.
  destruct (PulseType_eqb e d) eqn:Heq; apply IH; unfold positions_ok; simpl.
  - apply PulseType_eqb_eq in Heq. subst d.
    assert (Hnew : forall i p, (mp ++ [di]) !! i = Some p ->
                     (p < S di)%nat
                     /\ exists e0, emitted !! i = Some e0 /\ detected !! p = Some e0).
    { intros i p Hi. apply lookup_app_Some in Hi as [Hi | [Hlen Hi]].
      - destruct (Hpos i p Hi) as [Hlt Hsym]. split; [lia | exact Hsym].
      - apply list_lookup_singleton_Some in Hi as [Hi <-].
        split; [lia|]. exists e. split; [|exact Hdi].
        replace i with ei by lia. exact Hei. }
    split; [rewrite length_app; simpl; lia|]. split; [exact Hnew|].
    intros i j p q Hij Hi Hj.
    apply lookup_app_Some in Hj as [Hj | [Hlen Hj]].
    + apply lookup_app_Some in Hi as [Hi | [Hlen' _]].
      * exact (Hinc i j p q Hij Hi Hj).
      * apply lookup_lt_Some in Hj. lia.
    + apply list_lookup_singleton_Some in Hj as [Hj <-].
      apply lookup_app_Some in Hi as [Hi | [Hlen' _]]; [|lia].
      now destruct (Hpos i p Hi).
  - split; [exact Hidx|]. split; [|exact Hinc].
    intros i p Hi. destruct (Hpos i p Hi) as [Hlt Hsym]. split; [lia | exact Hsym].
Qed.

(** ** [generatePattern]: any length *)

Lemma Qltb_nat_ceiling (i : nat) (length : Q) :
  Qltb (inject_Z (Z.of_nat i)) length = (Z.of_nat i <? Qceiling length)%Z.
Proof.
  destruct (Z.ltb_spec (Z.of_nat i) (Qceiling length)) as [Hlt | Hge].
  - apply Qltb_lt. eapply Qle_lt_trans; [|apply (Qceiling_lt length)].
    rewrite <- Zle_Qle. lia.
  - apply Qltb_ge. eapply Qle_trans; [apply Qle_ceiling|]. now rewrite <- Zle_Qle.
Qed.

Lemma generatePattern_loop_draws fuel (length : Q) (i : nat) pattern r :
  (Qceiling length - Z.of_nat i <= Z.of_nat fuel)%Z ->
  let n := Z.to_nat (Qceiling length - Z.of_nat i) in
  let out := generatePattern_loop fuel length i pattern r in
  fst out = pattern ++ map (fun k => symbol_of_draw (draws r (next_draw r + k))) (seq 0 n)
  /\ next_draw (snd out) = (next_draw r + n)%nat
  /\ draws (snd out) = draws r.
Proof.
  revert i pattern r. induction fuel as [|fuel IH]; intros i pattern r Hfuel; simpl.
  - replace (Z.to_nat (Qceiling length - Z.of_nat i)) with 0%nat by lia.
    simpl. rewrite app_nil_r, Nat.add_0_r. auto.
  - rewrite Qltb_nat_ceiling.
    destruct (Z.ltb_spec (Z.of_nat i) (Qceiling length)) as [Hlt | Hge].
    + destruct (IH (S i) (pattern ++ [if Qltb (draws r (next_draw r)) 0.5 then PH else PL])
                  {| draws := draws r; next_draw := S (next_draw r) |})
        as (Hout & Hnext & Hdraws); [lia|].
      simpl in *. rewrite Hout, Hnext, Hdraws.
      replace (Z.to_nat (Qceiling length - Z.of_nat i))
        with (S (Z.to_nat (Qceiling length - Z.pos (Pos.of_succ_nat i)))) by lia.
      simpl. rewrite <- app_assoc. simpl. rewrite Nat.add_0_r.
      split; [|split; [lia | reflexivity]].
      do 2 f_equal. rewrite <- seq_shift, map_map.
      apply map_ext. intros k. now rewrite Nat.add_succ_r.
    + replace (Z.to_nat (Qceiling length - Z.of_nat i)) with 0%nat by lia.
      simpl. rewrite app_nil_r, Nat.add_0_r. auto.
Qed.

(** X1. [matchCount] is the length of the longest prefix of the emitted pattern
    that occurs, in order, inside the detected list: for [k] up to
    [emitted.length], at least [k] symbols are matched exactly when the first
    [k] emitted symbols are a subsequence of [detected]. *)
Theorem X1_matchCount_is_longest_embedded_prefix :
  forall (emitted detected : list PulseType) (k : nat),
    (k <= length emitted)%nat ->
    ((k <= matchCount (comparePatterns emitted detected))%nat
     <-> take k emitted `sublist_of` detected).
Proof.
  intros emitted detected k Hk. rewrite comparePatterns_matchCount.
  now apply greedy_match_prefix.
Qed.

Lemma X1_matchCount_is_longest_embedded_prefix_witness :
  (3 <= length [PH; PL; PL; PH])%nat
  /\ ((3 <= matchCount (comparePatterns [PH; PL; PL; PH] [PL; PH; PH; PL; PL]))%nat
      <-> take 3 [PH; PL; PL; PH] `sublist_of` [PL; PH; PH; PL; PL]).
Proof.
  split; [simpl; lia|].
  apply (X1_matchCount_is_longest_embedded_prefix [PH; PL; PL; PH]
           [PL; PH; PH; PL; PL] 3).
  simpl. lia.
Defined.

(** X2. [passed] is true exactly when the emitted pattern has at least five
    symbols and its first five occur, in order, inside the detected list.  For
    the six-symbol patterns in use the sixth symbol has no part in the verdict,
    and a detection that lacks one of the first five symbols fails. *)
Theorem X2_passed_iff_first_five_embedded :
  forall emitted detected : list PulseType,
    passed (comparePatterns emitted detected) = true
    <-> ((5 <= length emitted)%nat /\ take 5 emitted `sublist_of` detected).
Proof.
  intros emitted detected.
  rewrite comparePatterns_passed, PASS_THRESHOLD_value, Nat.leb_le,
    comparePatterns_matchCount.
  split.
  - intros Hpass. pose proof (greedy_match_le emitted detected).
    split; [lia|]. apply greedy_match_prefix; lia.
  - intros [Hlen Hsub]. now apply greedy_match_prefix.
Qed.

(** X3. Detections inserted anywhere never lower the score: if [detected] is a
    subsequence of [detected'], the match count against [detected'] is at
    least the one against [detected].  The count is at most
    [detected.length], so an empty detection scores 0 and fails; and when the
    whole emitted pattern occurs in order inside [detected], every emitted
    symbol is matched. *)
Theorem X3_spurious_detections_never_lower_the_score :
  forall emitted detected detected' : list PulseType,
    (matchCount (comparePatterns emitted detected) <= length detected)%nat
    /\ matchCount (comparePatterns emitted []) = 0%nat
    /\ passed (comparePatterns emitted []) = false
    /\ (detected `sublist_of` detected' ->
        (matchCount (comparePatterns emitted detected)
         <= matchCount (comparePatterns emitted detected'))%nat)
    /\ (emitted `sublist_of` detected ->
        matchCount (comparePatterns emitted detected) = length emitted).
Proof.
  intros emitted detected detected'. rewrite !comparePatterns_matchCount.
  split; [apply greedy_match_le_detected|].
  split; [reflexivity|]. split; [reflexivity|]. split.
  - apply greedy_match_sublist.
  - intros Hsub. pose proof (greedy_match_le emitted detected) as Hle.
    apply Nat.le_antisymm; [exact Hle|].
    apply greedy_match_prefix; [lia|]. now rewrite firstn_all.
Qed.

Lemma X3_spurious_detections_never_lower_the_score_witness :
  [PH; PL; PH] `sublist_of` [PL; PH; PH; PL; PL; PH]
  /\ matchCount (comparePatterns [PH; PL; PH] [PL; PH; PH; PL; PL; PH])
     = length [PH; PL; PH].
Proof.
  assert (Hsub : [PH; PL; PH] `sublist_of` [PL; PH; PH; PL; PL; PH]).
  { apply sublist_cons, sublist_skip, sublist_cons, sublist_skip, sublist_cons,
      sublist_skip, sublist_nil_l. }
  split; [exact Hsub|].
  now apply (X3_spurious_detections_never_lower_the_score [PH; PL; PH]
               [PL; PH; PH; PL; PL; PH] []).
Defined.

(** X4. The [details] of a comparison have one entry per emitted symbol and two
    closing entries.  The first [matchCount] entries report a position of
    [detected] that really holds the emitted symbol, these positions increase
    strictly, and every later emitted symbol is reported as not found. *)
Theorem X4_details_report_real_positions :
  forall emitted detected : list PulseType,
    let r := comparePatterns emitted detected in
    length (details r) = (length emitted + 2)%nat
    /\ details r !! length emitted = Some (DetectedTotal (length detected) detected)
    /\ details r !! S (length emitted)
       = Some (FoundInOrder (matchCount r) (length emitted))
    /\ exists positions : list nat,
         length positions = matchCount r
         /\ (forall i p, positions !! i = Some p ->
               exists e, emitted !! i = Some e /\ detected !! p = Some e
                         /\ details r !! i = Some (PulseFound (i + 1) e (p + 1)))
         /\ (forall i j p q, (i < j)%nat ->
               positions !! i = Some p -> positions !! j = Some q -> (p < q)%nat)
         /\ (forall i e, (matchCount r <= i)%nat -> emitted !! i = Some e ->
               details r !! i = Some (PulseNotFound (i + 1) e)).
Proof.
  intros emitted detected r.
  set (s := comparePatterns_loop (length detected) emitted detected
              {| emitIndex := 0; detectIndex := 0; matchedPositions := [] |}).
  assert (Hs : positions_ok emitted detected s).
  { apply comparePatterns_loop_positions. split; [reflexivity|].
    split; intros; simpl in *; discriminate. }
  destruct Hs as (_ & Hpos & Hinc).
  assert (Hdetails : details r
            = imap (fun i e =>
                      if (i <? length (matchedPositions s))%nat
                      then PulseFound (i + 1) e (nth i (matchedPositions s) 0%nat + 1)
                      else PulseNotFound (i + 1) e) emitted
              ++ [DetectedTotal (length detected) detected;
                  FoundInOrder (length (matchedPositions s)) (length emitted)])
    by reflexivity.
  assert (Hcount : matchCount r = length (matchedPositions s)) by reflexivity.
  assert (Himap : forall i e, emitted !! i = Some e ->
            details r !! i
            = Some (if (i <? length (matchedPositions s))%nat
                    then PulseFound (i + 1) e (nth i (matchedPositions s) 0%nat + 1)
                    else PulseNotFound (i + 1) e)).
  { intros i e Hi. rewrite Hdetails, lookup_app_l.
    - now rewrite list_lookup_imap, Hi.
    - rewrite length_imap. now apply lookup_lt_Some in Hi. }
  split; [rewrite Hdetails, length_app, length_imap; simpl; lia|].
  split; [rewrite Hdetails, lookup_app_r, length_imap, Nat.sub_diag
            by (rewrite length_imap; lia); reflexivity|].
  split.
  { rewrite Hdetails, lookup_app_r, length_imap by (rewrite length_imap; lia).
    replace (S (length emitted) - length emitted)%nat with 1%nat by lia.
    rewrite Hcount. reflexivity. }
  exists (matchedPositions s). split; [now rewrite Hcount|]. split; [|split].
  - intros i p Hi. destruct (Hpos i p Hi) as (_ & e & He & Hd).
    exists e. split; [exact He|]. split; [exact Hd|].
    rewrite (Himap i e He).
    pose proof (lookup_lt_Some _ _ _ Hi) as Hlt.
    apply Nat.ltb_lt in Hlt. rewrite Hlt.
    now rewrite (nth_lookup_Some _ _ 0%nat _ Hi).
  - exact Hinc.
  - intros i e Hge He. rewrite (Himap i e He).
    rewrite Hcount in Hge. apply Nat.ltb_ge in Hge. now rewrite Hge.
Qed.

Lemma X4_details_report_real_positions_witness :
  exists (p : nat) (e : PulseType),
    [PH; PL] !! 0%nat = Some e /\ [PL; PH; PL] !! p = Some e
    /\ details (comparePatterns [PH; PL] [PL; PH; PL]) !! 0%nat
       = Some (PulseFound 1 e (p + 1)).
Proof.
  destruct (X4_details_report_real_positions [PH; PL] [PL; PH; PL])
    as (_ & _ & _ & positions & Hlen & Hfound & _).
  destruct (lookup_lt_is_Some_2 positions 0%nat) as [p Hp].
  { rewrite Hlen. vm_compute. lia. }
  destruct (Hfound 0%nat p Hp) as (e & He & Hd & Hdetail).
  exists p, e. auto.
Defined.

(** X5. A detected list of ten alternating symbols, 'H','L' five times, fewer
    than [MAX_PEAKS], passes against every six-symbol pattern of 'H' and 'L':
    whatever was emitted, its first five symbols are found in order. *)
Theorem X5_alternating_detection_passes_every_pattern :
  forall emitted : list PulseType,
    length emitted = 6%nat ->
    Forall (fun s => s = PH \/ s = PL) emitted ->
    passed (comparePatterns emitted (alternating 5)) = true
    /\ (5 <= matchCount (comparePatterns emitted (alternating 5)))%nat
    /\ (length (alternating 5) <= AUDIO_CONFIG.MAX_PEAKS)%nat.
Proof.
  intros emitted Hlen Hsym.
  assert (Hfive : (5 <= greedy_match emitted (alternating 5))%nat).
  { apply greedy_match_prefix; [lia|].
    apply alternating_contains.
    - now apply Forall_take.
    - rewrite length_take. lia. }
  split; [|split].
  - rewrite comparePatterns_passed, PASS_THRESHOLD_value, comparePatterns_matchCount.
    now apply Nat.leb_le.
  - now rewrite comparePatterns_matchCount.
  - unfold AUDIO_CONFIG.MAX_PEAKS. simpl. lia.
Qed.

Lemma X5_alternating_detection_passes_every_pattern_witness :
  passed (comparePatterns [PL; PL; PL; PH; PH; PH] (alternating 5)) = true.
Proof.
  refine (proj1 (X5_alternating_detection_passes_every_pattern
                   [PL; PL; PL; PH; PH; PH] _ _)).
  - reflexivity.
  - repeat (apply List.Forall_cons; [auto|]). apply List.Forall_nil.
Defined.

(** X6. [generatePattern(length)] for any number: it makes [ceil(length)]
    draws of [Math.random], none when [length <= 0], and its i-th symbol is 'H'
    exactly when the i-th of these draws is below 0.5. *)
Theorem X6_generatePattern_follows_the_draws :
  forall (length : Q) (r : Random),
    let n := Z.to_nat (Qceiling length) in
    let out := generatePattern (Some length) r in
    fst out = map (fun k => if Qltb (draws r (next_draw r + k)) 0.5 then PH else PL)
                  (seq 0 n)
    /\ List.length (fst out) = n
    /\ next_draw (snd out) = (next_draw r + n)%nat
    /\ ((length <= 0)%Q -> fst out = []).
Proof.
  intros length r n out.
  destruct (generatePattern_loop_draws n length 0 [] r) as (Hout & Hnext & _).
  { subst n. simpl. lia. }
  simpl in Hout, Hnext. rewrite Z.sub_0_r in Hout, Hnext.
  fold n in Hout, Hnext.
  assert (Hpattern : fst out
            = map (fun k => if Qltb (draws r (next_draw r + k)) 0.5 then PH else PL)
                  (seq 0 n)) by exact Hout.
  split; [exact Hpattern|]. split; [|split; [exact Hnext|]].
  - now rewrite Hpattern, length_map, length_seq.
  - intros Hneg. rewrite Hpattern.
    assert (n = 0%nat) as ->; [|reflexivity].
    subst n. assert (Qceiling length <= Qceiling 0)%Z
      by now apply Qceiling_resp_le.
    change (Qceiling 0) with 0%Z in *. lia.
Qed.

Lemma X6_generatePattern_follows_the_draws_witness :
  (-2 <= 0)%Q /\ fst (generatePattern (Some (-2)%Q) (random sample_world)) = [].
Proof.
  split; [vm_compute; discriminate|].
  apply (X6_generatePattern_follows_the_draws (-2) (random sample_world)).
  vm_compute. discriminate.
Defined.

(** ** [getSecurityStats]: the guess rate it reports *)




(** ** [UltrasonicListener]: what a retained peak is *)

Lemma merge_peak_Forall (P : DetectedPeak -> Prop) (detection : DetectedPeak)
    (retained : list DetectedPeak) :
  P detection -> Forall P retained -> Forall P (merge_peak detection retained).
Proof.
  intros Hd Hall. unfold merge_peak.
  destruct (js_find _ retained) as [[i existing]|].
  - destruct (Qltb (amplitude existing) (amplitude detection)); [|exact Hall].
    now apply Forall_insert.
  - apply Forall_app. split; [exact Hall|]. now constructor.
Qed.

Lemma js_sort_Forall {A : Type} (compareFn : A -> A -> Q) (P : A -> Prop)
    (l : list A) :
  Forall P l -> Forall P (js_sort compareFn l).
Proof. intros Hall. now rewrite js_sort_Permutation. Qed.

Lemma stopAndAnalyze_Forall (P : DetectedPeak -> Prop) (l : UltrasonicListener) :
  Forall P (peaks l) -> Forall P (fst (stopAndAnalyze l)).
Proof.
  intros Hall. unfold stopAndAnalyze. simpl.
  apply js_sort_Forall.
  destruct (AUDIO_CONFIG.MAX_PEAKS <? length (peaks l))%nat; [|exact Hall].
  apply Forall_take. now apply js_sort_Forall.
Qed.

Section ListenerInvariant.

Variable Math_log10 : Q -> Q.

Lemma classify_frame_carrier (f : AnalyserFrame) (floor : Q)
    (detection : DetectedPeak) :
  classify_frame Math_log10 f floor = Some detection ->
  carrier_peak (minSNRdB Math_log10) detection
  /\ type detection = classifyFrequency (frequency detection) None
  /\ timestamp detection = now f
  /\ (snr detection == amplitude detection - floor)%Q.
Proof.
  unfold classify_frame.
  destruct (maxAmplitude (band_scan f)) as [m|]; [|discriminate].
  destruct (Qle_bool (minSNRdB Math_log10) (m - floor)) eqn:Hsnr; [|discriminate].
  set (freq := (inject_Z (Z.of_nat (maxBin (band_scan f))) * binSize f)%Q).
  destruct (Qle_bool (Qabs (freq - AUDIO_CONFIG.FREQ_HIGH)) AUDIO_CONFIG.FREQ_TOLERANCE)
    eqn:HH;
    destruct (Qle_bool (Qabs (freq - AUDIO_CONFIG.FREQ_LOW)) AUDIO_CONFIG.FREQ_TOLERANCE)
      eqn:HL; simpl; try discriminate;
    intros [= <-]; unfold carrier_peak, classifyFrequency; simpl;
    apply Qle_bool_iff in Hsnr.
  - apply Qle_bool_iff in HH. split; [split; [exact Hsnr | left; auto]|].
    split; [|split; [reflexivity | apply Qeq_refl]].
    apply Qabs_Qle_condition in HH.
    unfold AUDIO_CONFIG.FREQ_HIGH, AUDIO_CONFIG.FREQ_TOLERANCE in HH.
    replace (Qltb AUDIO_CONFIG.FREQ_THRESHOLD freq) with true; [reflexivity|].
    symmetry. apply Qltb_lt. unfold AUDIO_CONFIG.FREQ_THRESHOLD. lra.
  - apply Qle_bool_iff in HH. split; [split; [exact Hsnr | left; auto]|].
    split; [|split; [reflexivity | apply Qeq_refl]].
    apply Qabs_Qle_condition in HH.
    unfold AUDIO_CONFIG.FREQ_HIGH, AUDIO_CONFIG.FREQ_TOLERANCE in HH.
    replace (Qltb AUDIO_CONFIG.FREQ_THRESHOLD freq) with true; [reflexivity|].
    symmetry. apply Qltb_lt. unfold AUDIO_CONFIG.FREQ_THRESHOLD. lra.
  - apply Qle_bool_iff in HL.
    assert (HnotH : ~ (Qabs (freq - AUDIO_CONFIG.FREQ_HIGH)
                       <= AUDIO_CONFIG.FREQ_TOLERANCE)%Q).
    { intros Hle. apply Qle_bool_iff in Hle. congruence. }
    split; [split; [exact Hsnr | right; auto]|].
    split; [|split; [reflexivity | apply Qeq_refl]].
    apply Qabs_Qle_condition in HL.
    unfold AUDIO_CONFIG.FREQ_LOW, AUDIO_CONFIG.FREQ_TOLERANCE in HL.
    replace (Qltb AUDIO_CONFIG.FREQ_THRESHOLD freq) with false; [reflexivity|].
    symmetry. apply Qltb_ge. unfold AUDIO_CONFIG.FREQ_THRESHOLD. lra.
Qed.

Lemma analyzeLoop_Forall (P : DetectedPeak -> Prop) (f : AnalyserFrame)
    (l : UltrasonicListener) :
  (forall g floor d, classify_frame Math_log10 g floor = Some d -> P d) ->
  Forall P (peaks l) -> Forall P (peaks (analyzeLoop Math_log10 f l)).
Proof.
  intros Hclass Hall. unfold analyzeLoop.
  destruct (negb (isRecording l) || negb (analyser_ready l)); [exact Hall|].
  simpl.
  destruct (classify_frame Math_log10 f _) as [d|] eqn:Hd; [|exact Hall].
  apply merge_peak_Forall; [|exact Hall]. eapply Hclass, Hd.
Qed.

Lemma analyzeFrames_Forall (P : DetectedPeak -> Prop) (frames : list AnalyserFrame)
    (l : UltrasonicListener) :
  (forall g floor d, classify_frame Math_log10 g floor = Some d -> P d) ->
  Forall P (peaks l) -> Forall P (peaks (analyzeFrames Math_log10 frames l)).
Proof.
  intros Hclass. revert l.
  induction frames as [|f frames IH]; intros l Hall; simpl; [exact Hall|].
  apply IH. now apply analyzeLoop_Forall.
Qed.

Lemma startRecording_Forall (P : DetectedPeak -> Prop) (f : AnalyserFrame)
    (l : UltrasonicListener) :
  (forall g floor d, classify_frame Math_log10 g floor = Some d -> P d) ->
  isRecording l = false ->
  Forall P (peaks (startRecording Math_log10 f l)).
Proof.
  intros Hclass Hrec. unfold startRecording. rewrite Hrec.
  apply analyzeLoop_Forall; [exact Hclass|]. simpl. constructor.
Qed.

End ListenerInvariant.

(** X8. From [startRecording] on a listener that was not recording, through
    any number of analysed frames, every retained peak is a carrier
    detection: its [snr] is at least [20 * log10(SNR_THRESHOLD)], its type is
    'H' with a frequency within 250 Hz of 19000 Hz, or 'L' with a frequency
    within 250 Hz of 17500 Hz, and this type is the one [classifyFrequency]
    gives its frequency.  So [getDetectedPattern] and the peaks
    [stopAndAnalyze] returns hold only 'H' and 'L', never '?'. *)
Theorem X8_retained_peaks_are_carrier_detections :
  forall (Math_log10 : Q -> Q) (first : AnalyserFrame)
         (frames : list AnalyserFrame) (l : UltrasonicListener),
    isRecording l = false ->
    let l' := analyzeFrames Math_log10 frames (startRecording Math_log10 first l) in
    let valid p :=
      carrier_peak (minSNRdB Math_log10) p
      /\ type p = classifyFrequency (frequency p) None in
    Forall valid (peaks l')
    /\ Forall valid (fst (stopAndAnalyze l'))
    /\ Forall high_or_low (getDetectedPattern l')
    /\ Forall high_or_low (map type (fst (stopAndAnalyze l'))).
Proof.
  intros Math_log10 first frames l Hrec l' valid.
  assert (Hclass : forall g floor d,
            classify_frame Math_log10 g floor = Some d -> valid d).
  { intros g floor d Hd.
    destruct (classify_frame_carrier Math_log10 g floor d Hd) as (H1 & H2 & _).
    now split. }
  assert (Hpeaks : Forall valid (peaks l')).
  { apply analyzeFrames_Forall; [exact Hclass|].
    now apply startRecording_Forall. }
  assert (Hsym : forall p, valid p -> high_or_low (type p)).
  { intros p [[_ [[HH _] | [HL _]]] _]; [left | right]; assumption. }
  split; [exact Hpeaks|].
  split; [now apply stopAndAnalyze_Forall|].
  split.
  - unfold getDetectedPattern. apply Forall_fmap.
    eapply Forall_impl; [exact Hpeaks | exact Hsym].
  - apply Forall_fmap.
    eapply Forall_impl; [apply stopAndAnalyze_Forall, Hpeaks | exact Hsym].
Qed.

Lemma X8_retained_peaks_are_carrier_detections_witness :
  let l' := analyzeFrames sample_log10 [sample_frame (-80) (-30) 2987 1200]
              (startRecording sample_log10 (sample_frame (-80) (-30) 3243 1000)
                 (sample_listener false [] (-50))) in
  Forall high_or_low (getDetectedPattern l').
Proof.
  refine (proj1 (proj2 (proj2
            (X8_retained_peaks_are_carrier_detections sample_log10
               (sample_frame (-80) (-30) 3243 1000)
               [sample_frame (-80) (-30) 2987 1200]
               (sample_listener false [] (-50)) _)))).
  reflexivity.
Defined.

(** ** [analyzeLoop]: the scan returns the band and its first loudest bin *)

Lemma scanned_step (data : list Q) (lo i : nat) (s : BandScan) (x : Q) :
  (lo <= i)%nat ->
  data !! i = Some x ->
  scanned data lo i s ->
  let louder := match maxAmplitude s with
                | None => true
                | Some m => Qltb m x
                end in
  scanned data lo (S i)
    {| maxAmplitude := if louder then Some x else maxAmplitude s;
       maxBin := if louder then i else maxBin s;
       amplitudes := amplitudes s ++ [x] |}.
Proof.
  intros Hlo Hx (Hamp & Hnone & Hsome) louder.
  assert (Hamp' : amplitudes s ++ [x] = take (S i - lo) (drop lo data)).
  { rewrite Hamp. replace (S i - lo)%nat with (S (i - lo)) by lia.
    symmetry. apply take_S_r. rewrite lookup_drop.
    now replace (lo + (i - lo))%nat with i by lia. }
  split; [exact Hamp'|]. simpl.
  destruct (maxAmplitude s) as [m|] eqn:Hmax.
  - destruct (Hsome m eq_refl) as (Hbin & Hat & Hle & Hlt).
    subst louder. destruct (Qltb m x) eqn:Hcmp.
    + apply Qltb_lt in Hcmp. split; [discriminate|].
      intros m' [= <-]. split; [lia|]. split; [exact Hx|]. split.
      * intros j y Hj Hy. destruct (decide (j = i)) as [-> | Hne].
        -- rewrite Hx in Hy. injection Hy as <-. apply Qle_refl.
        -- apply Qlt_le_weak. eapply Qle_lt_trans; [|exact Hcmp].
           apply (Hle j); [lia | exact Hy].
      * intros j y Hj Hy. eapply Qle_lt_trans; [|exact Hcmp].
        apply (Hle j); [lia | exact Hy].
    + apply Qltb_ge in Hcmp. split; [discriminate|].
      intros m' [= <-]. split; [lia|]. split; [exact Hat|]. split.
      * intros j y Hj Hy. destruct (decide (j = i)) as [-> | Hne].
        -- rewrite Hx in Hy. now injection Hy as <-.
        -- apply (Hle j); [lia | exact Hy].
      * exact Hlt.
  - destruct (Hnone eq_refl) as [Hnil Hbin]. subst louder.
    split; [discriminate|].
    assert (Hi : i = lo).
    { rewrite Hamp in Hnil. apply (f_equal length) in Hnil.
      rewrite length_take, length_drop in Hnil. simpl in Hnil.
      apply lookup_lt_Some in Hx. lia. }
    subst i.
    intros m' [= <-]. split; [lia|]. split; [exact Hx|]. split.
    + intros j y Hj Hy. assert (j = lo) as -> by lia.
      rewrite Hx in Hy. injection Hy as <-. apply Qle_refl.
    + intros j y Hj. lia.
Qed.

Lemma band_scan_loop_scanned (data : list Q) (lo hi : nat) (fuel i : nat)
    (s : BandScan) :
  (lo <= i)%nat ->
  (S hi - i <= fuel)%nat ->
  scanned data lo i s ->
  scanned data lo (Nat.max i (Nat.min (S hi) (length data)))
    (band_scan_loop fuel data hi i s).
Proof.
  revert i s.
  induction fuel as [|fuel IH]; intros i s Hlo Hfuel Hs; cbn [band_scan_loop].
  - now replace (Nat.max i (Nat.min (S hi) (length data))) with i by lia.
  - destruct ((i <=? hi)%nat && (i <? length data)%nat) eqn:Htest.
    + apply andb_true_iff in Htest as [Hhi Hlen].
      apply Nat.leb_le in Hhi. apply Nat.ltb_lt in Hlen.
      destruct (data !! i) as [x|] eqn:Hx.
      * replace (Nat.max i (Nat.min (S hi) (length data)))
          with (Nat.max (S i) (Nat.min (S hi) (length data))) by lia.
        apply IH; [lia | lia |]. now apply scanned_step.
      * apply lookup_ge_None in Hx. lia.
    + replace (Nat.max i (Nat.min (S hi) (length data))) with i; [exact Hs|].
      apply andb_false_iff in Htest as [Hhi | Hlen].
      * apply Nat.leb_gt in Hhi. lia.
      * apply Nat.ltb_ge in Hlen. lia.
Qed.

(** X9. The scan of [analyzeLoop] over the ultrasonic band: [amplitudes] is
    the slice of the frame from [lowBin] to [highBin] (cut at the end of the
    frame); when the slice is empty [maxAmplitude] is still [-Infinity] and
    [maxBin] is [lowBin]; otherwise [maxAmplitude] is the value of bin
    [maxBin], no bin of the slice is louder, every bin of the slice before
    [maxBin] is strictly quieter (ties go to the lowest bin), and [maxBin]
    lies in the band. *)
Theorem X9_band_scan_finds_first_loudest_bin :
  forall f : AnalyserFrame,
    let s := band_scan f in
    amplitudes s = take (S (highBin f) - lowBin f) (drop (lowBin f) (dataArray f))
    /\ (maxAmplitude s = None <-> amplitudes s = [])
    /\ (maxAmplitude s = None -> maxBin s = lowBin f)
    /\ (forall m, maxAmplitude s = Some m ->
          (lowBin f <= maxBin s <= highBin f)%nat
          /\ dataArray f !! maxBin s = Some m
          /\ Forall (fun x => (x <= m)%Q) (amplitudes s)
          /\ (forall j x, (lowBin f <= j < maxBin s)%nat ->
                dataArray f !! j = Some x -> (x < m)%Q)).
Proof.
  intros f s.
  set (lo := lowBin f). set (hi := highBin f). set (data := dataArray f).
  set (i' := Nat.max lo (Nat.min (S hi) (length data))).
  assert (Hs : scanned data lo i' s).
  { apply band_scan_loop_scanned; [lia | lia |].
    split; [|split]; simpl.
    - now rewrite Nat.sub_diag.
    - auto.
    - discriminate. }
  destruct Hs as (Hamp & Hnone & Hsome).
  assert (Hslice : amplitudes s = take (S hi - lo) (drop lo data)).
  { rewrite Hamp. subst i'.
    destruct (Nat.le_gt_cases (S hi) (length data)) as [Hle | Hgt].
    - destruct (Nat.le_gt_cases (S hi) lo) as [Hle' | Hgt'].
      + now replace (Nat.max lo (Nat.min (S hi) (length data)) - lo)%nat
          with (S hi - lo)%nat by lia.
      + now replace (Nat.max lo (Nat.min (S hi) (length data)) - lo)%nat
          with (S hi - lo)%nat by lia.
    - rewrite !take_ge; [reflexivity | |]; rewrite length_drop; lia. }
  split; [exact Hslice|]. split; [|split].
  - split; [intros Hmax; now apply Hnone|].
    intros Hnil. destruct (maxAmplitude s) as [m|] eqn:Hmax; [|reflexivity].
    destruct (Hsome m eq_refl) as (Hbin & Hat & _).
    exfalso. rewrite Hamp in Hnil. apply (f_equal length) in Hnil.
    rewrite length_take, length_drop in Hnil. simpl in Hnil.
    apply lookup_lt_Some in Hat. lia.
  - intros Hmax. now apply Hnone.
  - intros m Hmax. destruct (Hsome m Hmax) as (Hbin & Hat & Hle & Hlt).
    split; [subst i'; lia|]. split; [exact Hat|]. split; [|exact Hlt].
    rewrite Hamp. apply Forall_lookup. intros k x Hk.
    apply lookup_take_Some in Hk as [Hk Hlen].
    rewrite lookup_drop in Hk. apply (Hle (lo + k)%nat); [lia | exact Hk].
Qed.

Lemma X9_band_scan_finds_first_loudest_bin_witness :
  let f := sample_frame (-80) (-30) 3243 1000 in
  maxAmplitude (band_scan f) = Some (-30)%Q
  /\ maxBin (band_scan f) = 3243%nat
  /\ dataArray f !! 3243%nat = Some (-30)%Q.
Proof.
  intros f.
  assert (Hmax : maxAmplitude (band_scan f) = Some (-30)%Q) by (vm_compute; reflexivity).
  split; [exact Hmax|]. split; [vm_compute; reflexivity|].
  pose proof (proj2 (proj2 (proj2 (X9_band_scan_finds_first_loudest_bin f)))
                (-30)%Q Hmax) as (_ & Hat & _).
  replace 3243%nat with (maxBin (band_scan f)) by (vm_compute; reflexivity).
  exact Hat.
Defined.

(** ** [analyzeLoop]: the median of the band *)

Lemma js_sort_numbers_sorted (l : list Q) :
  StronglySorted Qle (js_sort (fun a b => (a - b)%Q) l).
Proof.
  apply (js_sort_sorted (fun a b => (a - b)%Q) (fun a => a)).
  intros a b. cbv beta. split; intros H; lra.
Qed.

(** X10. [medianAmplitude] is the upper median of the band: when the band
    holds [n > 0] amplitudes, they are, up to order, [n / 2] values no
    greater than some [m], then [m], then values no smaller than [m], and
    [medianAmplitude] is [m]; except that a median of exactly 0 dB is falsy
    and gives -100.  It is -100 too when the band is empty, and it is never
    0. *)
Theorem X10_medianAmplitude_is_upper_median :
  forall f : AnalyserFrame,
    let band := amplitudes (band_scan f) in
    (band = [] -> medianAmplitude f = (-100)%Q)
    /\ ~ (medianAmplitude f == 0)%Q
    /\ (band <> [] ->
        exists (below above : list Q) (m : Q),
          band ≡ₚ below ++ m :: above
          /\ length below = (length band / 2)%nat
          /\ Forall (fun x => (x <= m)%Q) below
          /\ Forall (fun x => (m <= x)%Q) above
          /\ medianAmplitude f = if Qeq_bool m 0 then (-100)%Q else m).
Proof.
  intros f band. unfold medianAmplitude. fold band.
  set (sorted := js_sort (fun a b => (a - b)%Q) band).
  assert (Hlen : length sorted = length band) by apply js_sort_length.
  split; [|split].
  - intros Hnil. subst sorted. rewrite Hnil. reflexivity.
  - destruct (sorted !! (length sorted / 2)%nat) as [m|]; [|discriminate].
    destruct (Qeq_bool m 0) eqn:Hzero; [discriminate|].
    intros Heq. apply Qeq_bool_iff in Heq. congruence.
  - intros Hne.
    assert (Hpos : (0 < length band)%nat).
    { destruct band; [congruence | simpl; lia]. }
    assert (Hmid : (length sorted / 2 < length sorted)%nat).
    { rewrite Hlen. apply Nat.div_lt; lia. }
    destruct (lookup_lt_is_Some_2 sorted _ Hmid) as [m Hm].
    rewrite Hm.
    exists (take (length sorted / 2) sorted), (drop (S (length sorted / 2)) sorted), m.
    pose proof (take_drop_middle sorted _ m Hm) as Hsplit.
    pose proof (js_sort_numbers_sorted band) as Hsorted.
    fold sorted in Hsorted. rewrite <- Hsplit in Hsorted.
    split; [|split; [|split; [|split]]].
    + rewrite Hsplit. symmetry. apply js_sort_Permutation.
    + rewrite length_take, Nat.min_l by (apply Nat.lt_le_incl, Hmid).
      now rewrite Hlen.
    + apply Forall_forall. intros x Hx.
      apply (StronglySorted_app_1_elem_of Qle _ _ x m Hsorted Hx).
      apply list_elem_of_here.
    + apply StronglySorted_app_1_r in Hsorted.
      now apply StronglySorted_inv in Hsorted.
    + reflexivity.
Qed.

Lemma X10_medianAmplitude_is_upper_median_witness :
  let silent := {| sampleRate := 48000; dataArray := []; now := 0; frameRequest := 1 |} in
  let f := sample_frame (-80) (-30) 3243 1000 in
  let band := amplitudes (band_scan f) in
  (amplitudes (band_scan silent) = [] /\ medianAmplitude silent = (-100)%Q)
  /\ band <> []
  /\ exists (below above : list Q) (m : Q),
       band ≡ₚ below ++ m :: above
       /\ length below = (length band / 2)%nat
       /\ Forall (fun x => (x <= m)%Q) below
       /\ Forall (fun x => (m <= x)%Q) above
       /\ medianAmplitude f = if Qeq_bool m 0 then (-100)%Q else m.
Proof.
  intros silent f band.
  assert (Hsilent : amplitudes (band_scan silent) = []) by (vm_compute; reflexivity).
  assert (Hband : band <> []) by (vm_compute; discriminate).
  split; [split; [exact Hsilent|]|split; [exact Hband|]].
  - exact (proj1 (X10_medianAmplitude_is_upper_median silent) Hsilent).
  - exact (proj2 (proj2 (X10_medianAmplitude_is_upper_median f)) Hband).
Defined.

(** ** [UltrasonicListener]: a stopped listener, and what outlives the stop *)

Lemma analyzeFrames_stopped (Math_log10 : Q -> Q) (frames : list AnalyserFrame)
    (l : UltrasonicListener) :
  isRecording l && analyser_ready l = false ->
  analyzeFrames Math_log10 frames l = l.
Proof.
  intros Hoff. induction frames as [|f frames IH]; simpl; [reflexivity|].
  replace (analyzeLoop Math_log10 f l) with l; [exact IH|].
  unfold analyzeLoop.
  destruct (isRecording l), (analyser_ready l); simpl in *;
    reflexivity || discriminate.
Qed.

(** X12. [stopAndAnalyze] stops the listener for good and keeps what it
    retained: frames that still arrive afterwards change nothing, neither
    does [clearPeaks] start the analysis again (it only empties the peaks);
    [this.peaks] and the noise floor, and so [getDiagnostics] and
    [getDetectedPattern], are as before the stop, uncapped and in insertion
    order; and a second [stopAndAnalyze] returns the same list as the first.
    A listener whose analyser is missing ignores every frame as well. *)
Theorem X12_stopped_listener_ignores_frames :
  forall (Math_log10 : Q -> Q) (frames : list AnalyserFrame)
         (l : UltrasonicListener),
    let stopped := snd (stopAndAnalyze l) in
    analyzeFrames Math_log10 frames stopped = stopped
    /\ analyzeFrames Math_log10 frames (clearPeaks stopped) = clearPeaks stopped
    /\ getDiagnostics stopped = getDiagnostics l
    /\ getDetectedPattern stopped = getDetectedPattern l
    /\ fst (stopAndAnalyze (analyzeFrames Math_log10 frames stopped))
       = fst (stopAndAnalyze l)
    /\ (analyser_ready l = false -> analyzeFrames Math_log10 frames l = l).
Proof.
  intros Math_log10 frames l stopped.
  assert (Hstopped : analyzeFrames Math_log10 frames stopped = stopped)
    by now apply analyzeFrames_stopped.
  split; [exact Hstopped|].
  split; [now apply analyzeFrames_stopped|].
  split; [reflexivity|]. split; [reflexivity|].
  split; [now rewrite Hstopped|].
  intros Hready. apply analyzeFrames_stopped. rewrite Hready.
  apply andb_false_r.
Qed.

Lemma X12_stopped_listener_ignores_frames_witness :
  let l := {| analyser_ready := false; isRecording := true; peaks := [];
              animationFrameId := None; noiseFloor := -100 |} in
  analyser_ready l = false
  /\ analyzeFrames sample_log10 [sample_frame (-80) (-30) 3243 1000] l = l.
Proof.
  intros l. split; [reflexivity|].
  refine (proj2 (proj2 (proj2 (proj2 (proj2
            (X12_stopped_listener_ignores_frames sample_log10
               [sample_frame (-80) (-30) 3243 1000] l))))) _).
  reflexivity.
Defined.

(** ** [UltrasonicListener]: retained peaks stay, and only grow louder *)

Lemma merge_peak_keeps (detection : DetectedPeak) (retained : list DetectedPeak)
    (i : nat) (p : DetectedPeak) :
  retained !! i = Some p ->
  exists p', merge_peak detection retained !! i = Some p'
             /\ (amplitude p <= amplitude p')%Q.
Proof.
  intros Hp. unfold merge_peak.
  destruct (js_find _ retained) as [[k existing]|] eqn:Hfind.
  - destruct (Qltb (amplitude existing) (amplitude detection)) eqn:Hamp.
    + destruct (decide (k = i)) as [-> | Hne].
      * exists detection. split.
        -- apply list_lookup_insert_eq. now apply lookup_lt_Some in Hp.
        -- apply js_find_Some in Hfind as (Hk & _).
           rewrite Hp in Hk. injection Hk as ->.
           apply Qltb_lt in Hamp. lra.
      * exists p. split; [|apply Qle_refl].
        now rewrite list_lookup_insert_ne.
    + exists p. split; [exact Hp | apply Qle_refl].
  - exists p. split; [|apply Qle_refl]. now apply lookup_app_l_Some.
Qed.

Lemma merge_peak_length (detection : DetectedPeak) (retained : list DetectedPeak) :
  (length retained <= length (merge_peak detection retained) <= S (length retained))%nat.
Proof.
  unfold merge_peak.
  destruct (js_find _ retained) as [[k existing]|].
  - destruct (Qltb (amplitude existing) (amplitude detection));
      rewrite ?length_insert; lia.
  - rewrite length_app. simpl. lia.
Qed.

(** X13. While frames are analysed no retained peak is ever removed or moved:
    the peak at each place of [this.peaks] is still there after any number of
    frames, with an amplitude at least as great; and [this.peaks] grows by at
    most one peak per frame. *)
Theorem X13_retained_peaks_only_grow_louder :
  forall (Math_log10 : Q -> Q) (frames : list AnalyserFrame)
         (l : UltrasonicListener),
    let l' := analyzeFrames Math_log10 frames l in
    (length (peaks l) <= length (peaks l') <= length (peaks l) + length frames)%nat
    /\ forall (i : nat) (p : DetectedPeak),
         peaks l !! i = Some p ->
         exists p', peaks l' !! i = Some p' /\ (amplitude p <= amplitude p')%Q.
Proof.
  intros Math_log10 frames. induction frames as [|f frames IH]; intros l; simpl.
  - split; [lia|]. intros i p Hp. exists p. split; [exact Hp | apply Qle_refl].
  - assert (Hstep : (length (peaks l) <= length (peaks (analyzeLoop Math_log10 f l))
                     <= S (length (peaks l)))%nat
                    /\ forall i p, peaks l !! i = Some p ->
                         exists p', peaks (analyzeLoop Math_log10 f l) !! i = Some p'
                                    /\ (amplitude p <= amplitude p')%Q).
    { unfold analyzeLoop.
      destruct (negb (isRecording l) || negb (analyser_ready l)).
      - split; [lia|]. intros i p Hp. exists p. split; [exact Hp | apply Qle_refl].
      - simpl. destruct (classify_frame Math_log10 f _) as [d|].
        + split; [apply merge_peak_length|]. intros i p. apply merge_peak_keeps.
        + split; [lia|]. intros i p Hp. exists p.
          split; [exact Hp | apply Qle_refl]. }
    destruct Hstep as [Hlen Hkeep].
    destruct (IH (analyzeLoop Math_log10 f l)) as [Hlen' Hkeep'].
    split; [lia|].
    intros i p Hp. destruct (Hkeep i p Hp) as (p1 & Hp1 & Hle1).
    destruct (Hkeep' i p1 Hp1) as (p2 & Hp2 & Hle2).
    exists p2. split; [exact Hp2 | lra].
Qed.

Lemma X13_retained_peaks_only_grow_louder_witness :
  let l := sample_listener true [sample_peak 19000 (-40) 990 PH] (-100) in
  let l' := analyzeFrames sample_log10 [sample_frame (-80) (-30) 3243 1000] l in
  peaks l !! 0%nat = Some (sample_peak 19000 (-40) 990 PH)
  /\ exists p', peaks l' !! 0%nat = Some p' /\ (-40 <= amplitude p')%Q.
Proof.
  intros l l'. split; [reflexivity|].
  refine (proj2 (X13_retained_peaks_only_grow_louder sample_log10
                   [sample_frame (-80) (-30) 3243 1000] l)
            0%nat (sample_peak 19000 (-40) 990 PH) _).
  reflexivity.
Defined.

(** ** [UltrasonicEmitter]: the oscillators of one emission *)

Lemma schedulePulse_oscillators hasFilter ctx freq volume durationMs startTime
    useFilter :
  oscillators (schedulePulse hasFilter ctx freq volume durationMs startTime useFilter)
  = oscillators ctx
    ++ [pulse_oscillator hasFilter freq volume durationMs startTime useFilter].
Proof. reflexivity. Qed.

Lemma emit_loop_oscillators config useFilter hasFilter n i rest s :
  n = (i + length rest)%nat ->
  oscillators (emit_ctx (emit_loop config useFilter hasFilter n i rest s))
  = oscillators (emit_ctx s)
    ++ imap (fun k sym =>
               pulse_oscillator hasFilter (pulse_frequency config sym)
                 (volume config) (pulseDuration config)
                 (Nat.iter k (next_start config) (scheduleTime s)) useFilter)
         rest.
Proof.
  revert i s. induction rest as [|sym rest IH]; intros i s Hn.
  - simpl. now rewrite app_nil_r.
  - cbn [emit_loop]. destruct rest as [|sym' rest].
    + simpl. reflexivity.
    + rewrite IH by (simpl in *; lia).
      cbn [emit_ctx scheduleTime]. rewrite schedulePulse_oscillators.
      rewrite <- app_assoc. f_equal.
      replace (i <? n - 1)%nat with true
        by (symmetry; apply Nat.ltb_lt; simpl in *; lia).
      rewrite (imap_cons _ sym (sym' :: rest)).
      refine (f_equal2 cons _ _); [reflexivity|].
      apply imap_ext. intros k x _. unfold compose.
      now rewrite Nat.iter_succ_r.
Qed.

Lemma emit_oscillators (pattern : list PulseType) (config : EmitterConfig) (t : Q)
    (e : UltrasonicEmitter) :
  scheduled (snd (emit pattern config t e))
  = scheduled e ++ emitted_oscillators pattern config t e.
Proof.
  unfold emit, scheduled, emitted_oscillators, filter_present, emitter_init.
  destruct (audioContext e) as [ctx|] eqn:Hctx.
  - rewrite Hctx. cbn [audioContext snd outputFilter].
    rewrite emit_loop_oscillators by reflexivity.
    cbn [emit_ctx scheduleTime]. rewrite schedulePulse_oscillators.
    rewrite <- app_assoc. destruct (outputFilter e); reflexivity.
  - cbn [audioContext snd outputFilter].
    rewrite emit_loop_oscillators by reflexivity.
    cbn [emit_ctx scheduleTime]. rewrite schedulePulse_oscillators.
    reflexivity.
Qed.

Lemma inject_nat_S (k : nat) :
  (inject_Z (Z.of_nat (S k)) == inject_Z (Z.of_nat k) + 1)%Q.
Proof. rewrite Nat2Z.inj_succ. unfold Z.succ. now rewrite inject_Z_plus. Qed.

Lemma next_start_iter (config : EmitterConfig) (k : nat) (t : Q) :
  (Nat.iter k (next_start config) t
   == t + inject_Z (Z.of_nat k) * ((pulseDuration config + pulseGap config) / 1000))%Q.
Proof.
  induction k as [|k IH].
  - simpl. unfold inject_Z. field.
  - rewrite inject_nat_S, Nat.iter_succ. unfold next_start at 1.
    rewrite IH. field.
Qed.

(** Linear arithmetic with milliseconds turned into seconds. *)
Ltac lra_ms :=
  unfold Qdiv in *; change (/ 1000)%Q with (1 # 1000)%Q in *; lra.

Lemma emitted_oscillators_pulse (pattern : list PulseType) (config : EmitterConfig)
    (t : Q) (e : UltrasonicEmitter) (i : nat) (o : Oscillator) :
  emitted_oscillators pattern config t e !! S i = Some o ->
  exists sym,
    pattern !! i = Some sym
    /\ o = pulse_oscillator (filter_present e) (pulse_frequency config sym)
             (volume config) (pulseDuration config)
             (Nat.iter i (next_start config) (t + 0.01 + 0.16)%Q)
             (filter_wanted config).
Proof.
  unfold emitted_oscillators. rewrite lookup_cons. cbv beta iota.
  rewrite list_lookup_imap.
  destruct (pattern !! i) as [sym|]; [|discriminate].
  simpl. intros [= <-]. eauto.
Qed.

Lemma inject_nat_le (i n : nat) :
  (i <= n)%nat -> (inject_Z (Z.of_nat i) <= inject_Z (Z.of_nat n))%Q.
Proof. intros Hle. rewrite <- Zle_Qle. lia. Qed.

(** X14. The oscillators one [emit] schedules, after those the context already
    had: a warm-up pulse from 10 ms to 50 ms after [ctx.currentTime], then one
    pulse per symbol, pulse [i] with the carrier of symbol [i] and the volume
    of the configuration, starting [170 + i * (pulseDuration + pulseGap)] ms
    after [ctx.currentTime], ending [pulseDuration] ms later and stopped 10 ms
    after that.  The first pulse starts 120 ms after the warm-up ends, and each
    further pulse [pulseGap] ms after the end of the one before. *)
Theorem X14_emit_schedule_is_evenly_spaced :
  forall (pattern : list PulseType) (config : EmitterConfig) (t : Q)
         (e : UltrasonicEmitter),
    let d := pulseDuration config in
    let g := pulseGap config in
    exists (warmup : Oscillator) (pulses : list Oscillator),
      scheduled (snd (emit pattern config t e)) = scheduled e ++ warmup :: pulses
      /\ length pulses = length pattern
      /\ osc_frequency warmup = 17500%Q
      /\ (osc_startTime warmup == t + 0.01)%Q
      /\ (osc_endTime warmup == t + 0.05)%Q
      /\ (forall i sym, pattern !! i = Some sym ->
            exists o, pulses !! i = Some o
              /\ osc_frequency o = pulse_frequency config sym
              /\ osc_volume o = volume config
              /\ (osc_startTime o
                  == t + 0.17 + inject_Z (Z.of_nat i) * ((d + g) / 1000))%Q
              /\ (osc_endTime o == osc_startTime o + d / 1000)%Q
              /\ (osc_stopTime o == osc_endTime o + 0.01)%Q)
      /\ (forall o, pulses !! 0%nat = Some o ->
            (osc_startTime o == osc_endTime warmup + 0.12)%Q)
      /\ (forall i o o', pulses !! i = Some o -> pulses !! S i = Some o' ->
            (osc_startTime o' == osc_endTime o + g / 1000)%Q).
Proof.
  intros pattern config t e d g.
  pose proof (emit_oscillators pattern config t e) as Hosc.
  unfold emitted_oscillators in Hosc.
  eexists _, _. split; [exact Hosc|].
  split; [apply length_imap|]. split; [reflexivity|].
  split; [reflexivity|]. split; [simpl; field|].
  split; [|split].
  - intros i sym Hsym. eexists. rewrite list_lookup_imap, Hsym.
    split; [reflexivity|]. split; [reflexivity|]. split; [reflexivity|].
    cbn [pulse_oscillator osc_startTime osc_endTime osc_stopTime].
    split; [|split; [reflexivity | reflexivity]].
    rewrite next_start_iter. fold d g. field.
  - intros o Ho. rewrite list_lookup_imap in Ho.
    destruct (pattern !! 0%nat) as [sym|]; [|discriminate].
    simpl in Ho. injection Ho as <-. simpl. field.
  - intros i o o' Ho Ho'. rewrite list_lookup_imap in Ho, Ho'.
    destruct (pattern !! i) as [sym|]; [|discriminate].
    destruct (pattern !! S i) as [sym'|]; [|discriminate].
    cbn [fmap option_fmap option_map] in Ho, Ho'.
    injection Ho as <-. injection Ho' as <-.
    cbn [pulse_oscillator osc_startTime osc_endTime].
    unfold next_start at 1. fold d g. field.
Qed.

Lemma X14_emit_schedule_is_evenly_spaced_witness :
  exists (warmup : Oscillator) (pulses : list Oscillator),
    scheduled (snd (emit [PH; PL] (sample_config 0.5) 2 (emitter_init
                      {| audioContext := None; outputFilter := None |})))
    = warmup :: pulses
    /\ length pulses = 2%nat.
Proof.
  destruct (X14_emit_schedule_is_evenly_spaced [PH; PL] (sample_config 0.5) 2
              (emitter_init {| audioContext := None; outputFilter := None |}))
    as (warmup & pulses & Hosc & Hlen & _).
  exists warmup, pulses. split; [exact Hosc | exact Hlen].
Defined.

(** X15. [emit] sleeps [210 + pulseDuration * n + pulseGap * (n - 1)] ms for a
    pattern of [n] symbols.  With a pattern that is not empty and a duration
    and a gap that are not negative, every oscillator it scheduled has been
    stopped at least 30 ms before that time has passed since
    [ctx.currentTime] was read. *)
Theorem X15_emit_sleeps_past_every_oscillator :
  forall (pattern : list PulseType) (config : EmitterConfig) (t : Q)
         (e : UltrasonicEmitter) (new : list Oscillator),
    let d := pulseDuration config in
    let g := pulseGap config in
    let n := inject_Z (Z.of_nat (length pattern)) in
    let slept := snd (fst (emit pattern config t e)) in
    scheduled (snd (emit pattern config t e)) = scheduled e ++ new ->
    (slept == 210 + d * n + g * (n - 1))%Q
    /\ (pattern <> [] -> (0 <= d)%Q -> (0 <= g)%Q ->
        Forall (fun o => (osc_stopTime o <= t + (slept - 30) / 1000)%Q) new).
Proof.
  intros pattern config t e new d g n slept Hnew.
  rewrite emit_oscillators in Hnew. apply app_inv_head in Hnew. subst new.
  assert (Hslept : (slept == 210 + d * n + g * (n - 1))%Q).
  { subst slept. unfold emit.
    destruct (audioContext (emitter_init e)) eqn:Hctx.
    - cbn [fst snd]. fold d g n. field.
    - exfalso. unfold emitter_init in Hctx.
      destruct (audioContext e) eqn:He; simpl in Hctx; congruence. }
  split; [exact Hslept|].
  intros Hne Hd Hg.
  assert (Hn : (1 <= n)%Q).
  { subst n. change 1%Q with (inject_Z (Z.of_nat 1)). apply inject_nat_le.
    destruct pattern; [congruence | simpl; lia]. }
  apply Forall_lookup. intros k o Ho. rewrite Hslept.
  destruct k as [|i].
  - unfold emitted_oscillators in Ho. simpl in Ho. injection Ho as <-.
    cbn [pulse_oscillator osc_stopTime].
    assert (Hdn : (0 <= d * n)%Q) by (apply Qmult_le_0_compat; lra).
    assert (Hgn : (0 <= g * (n - 1))%Q) by (apply Qmult_le_0_compat; lra).
    clear - Hdn Hgn. clearbody d g n.
    set (dn := (d * n)%Q) in *. set (gn := (g * (n - 1))%Q) in *. lra_ms.
  - apply emitted_oscillators_pulse in Ho as (sym & Hsym & ->).
    cbn [pulse_oscillator osc_stopTime]. rewrite next_start_iter. fold d g.
    set (k := inject_Z (Z.of_nat i)).
    assert (Hk : (k + 1 <= n)%Q).
    { subst k n. rewrite <- inject_nat_S. apply inject_nat_le.
      apply lookup_lt_Some in Hsym. lia. }
    assert (Hprod : (0 <= (n - 1 - k) * (d + g))%Q)
      by (apply Qmult_le_0_compat; lra).
    assert (Hexpand : ((n - 1 - k) * (d + g)
                       == d * n + g * (n - 1) - d - k * (d + g))%Q) by field.
    rewrite Hexpand in Hprod.
    assert (Hdiv : (k * ((d + g) / 1000) == k * (d + g) / 1000)%Q) by field.
    rewrite Hdiv. clear - Hprod. clearbody d g n k.
    set (dn := (d * n)%Q) in *. set (gn := (g * (n - 1))%Q) in *.
    set (kdg := (k * (d + g))%Q) in *. lra_ms.
Qed.

Lemma X15_emit_sleeps_past_every_oscillator_witness :
  let e := {| audioContext := None; outputFilter := None |} in
  let config := sample_config 0.5 in
  Forall (fun o => (osc_stopTime o
                    <= 2 + (snd (fst (emit [PH; PL] config 2 e)) - 30) / 1000)%Q)
    (emitted_oscillators [PH; PL] config 2 e).
Proof.
  intros e config.
  refine (proj2 (X15_emit_sleeps_past_every_oscillator [PH; PL] config 2 e
                   (emitted_oscillators [PH; PL] config 2 e) _) _ _ _).
  - reflexivity.
  - discriminate.
  - vm_compute. discriminate.
  - vm_compute. discriminate.
Defined.



Lemma filter_present_init (e : UltrasonicEmitter) :
  (outputFilter e = None -> audioContext e = None) -> filter_present e = true.
Proof.
  intros Hinv. unfold filter_present, emitter_init.
  destruct (audioContext e) eqn:Hctx; [|reflexivity].
  destruct (outputFilter e); [reflexivity|].
  specialize (Hinv eq_refl). congruence.
Qed.

(** X17. An emitter has a highpass filter whenever it has a context: [init]
    creates both, [cleanup] drops both, and [emit] keeps it so.  On such an
    emitter [emit] leaves the filter's cutoff at [config.filterCutoff], 15000
    Hz when that is undefined, also when the filter is not to be used; every
    oscillator it schedules goes through the filter exactly when
    [config.useOutputFilter] is not [false]; and after [cleanup] the same
    [emit] runs on a fresh context that holds its own oscillators only. *)
Theorem X17_emit_filter_cutoff_and_routing :
  forall (pattern : list PulseType) (config : EmitterConfig) (t : Q)
         (e : UltrasonicEmitter) (new : list Oscillator),
    (outputFilter e = None -> audioContext e = None) ->
    let e' := snd (emit pattern config t e) in
    scheduled e' = scheduled e ++ new ->
    outputFilter e' = Some (match filterCutoff config with
                            | Some cutoff => cutoff
                            | None => 15000%Q
                            end)
    /\ Forall (fun o => osc_through_filter o
                        = match useOutputFilter config with
                          | Some false => false
                          | _ => true
                          end) new
    /\ audioContext e' <> None
    /\ emitter_cleanup e' = {| audioContext := None; outputFilter := None |}
    /\ scheduled (snd (emit pattern config t (emitter_cleanup e'))) = new.
Proof.
  intros pattern config t e new Hinv e' Hnew.
  pose proof (filter_present_init e Hinv) as Hpresent.
  unfold e' in Hnew. rewrite emit_oscillators in Hnew. apply app_inv_head in Hnew. subst new.
  assert (Hctx : exists ctx, audioContext (emitter_init e) = Some ctx).
  { unfold emitter_init. destruct (audioContext e) eqn:He; simpl; eauto. }
  destruct Hctx as [ctx Hctx].
  assert (Hfilter : exists c, outputFilter (emitter_init e) = Some c).
  { unfold filter_present in Hpresent.
    destruct (outputFilter (emitter_init e)); [eauto | discriminate]. }
  destruct Hfilter as [c Hfilter].
  assert (He' : exists ctx', audioContext e' = Some ctx'
                  /\ outputFilter e' = Some (match filterCutoff config with
                                             | Some cutoff => cutoff
                                             | None => 15000%Q
                                             end)).
  { subst e'. unfold emit. rewrite Hctx, Hfilter. cbn [snd audioContext outputFilter].
    eauto. }
  destruct He' as (ctx' & Hctx' & Hcut).
  split; [exact Hcut|]. split; [|split; [|split]].
  - apply Forall_lookup. intros k o Ho. destruct k as [|i].
    + unfold emitted_oscillators in Ho. simpl in Ho. injection Ho as <-.
      cbn [pulse_oscillator osc_through_filter]. rewrite Hpresent.
      unfold filter_wanted. now rewrite andb_true_r.
    + apply emitted_oscillators_pulse in Ho as (sym & _ & ->).
      cbn [pulse_oscillator osc_through_filter]. rewrite Hpresent.
      unfold filter_wanted. now rewrite andb_true_r.
  - congruence.
  - unfold emitter_cleanup. now rewrite Hctx'.
  - rewrite emit_oscillators. unfold emitter_cleanup. rewrite Hctx'.
    unfold scheduled at 1. cbn [audioContext app].
    unfold emitted_oscillators. rewrite Hpresent. reflexivity.
Qed.

Lemma X17_emit_filter_cutoff_and_routing_witness :
  let e := {| audioContext := None; outputFilter := None |} in
  outputFilter (snd (emit [PH; PL] (sample_config 0.5) 2 e)) = Some 15000%Q.
Proof.
  intros e.
  refine (proj1 (X17_emit_filter_cutoff_and_routing [PH; PL] (sample_config 0.5) 2 e
                   (emitted_oscillators [PH; PL] (sample_config 0.5) 2 e) _ _)).
  - reflexivity.
  - reflexivity.
Defined.

(** ** [processQueue]: what the groups are *)

Lemma Map_set_concat_fresh (key : string) (v : list QueueEntry) (m : ConfigGroups) :
  Map_get key m = None ->
  concat (map snd (Map_set key v m)) = concat (map snd m) ++ v.
Proof.
  induction m as [|[k v0] m IH]; simpl; intros Hget.
  - now rewrite app_nil_r.
  - destruct (String.eqb k key); [discriminate|].
    simpl. now rewrite IH, app_assoc.
Qed.

Lemma Map_set_concat_push (key : string) (g : list QueueEntry) (x : QueueEntry)
    (m : ConfigGroups) :
  Map_get key m = Some g ->
  concat (map snd (Map_set key (g ++ [x]) m)) ≡ₚ concat (map snd m) ++ [x].
Proof.
  induction m as [|[k v0] m IH]; simpl; intros Hget; [discriminate|].
  destruct (String.eqb k key); simpl.
  - injection Hget as ->. rewrite <- !app_assoc.
    apply Permutation_app_head, Permutation_app_comm.
  - rewrite IH by exact Hget. now rewrite app_assoc.
Qed.

Section GroupingOrder.

Variable numToString : Q -> string.

Let key_of (student : QueueEntry) : string :=
  getConfigKey numToString (Firebase.config student).

Let with_key (k : string) (students : list QueueEntry) : list QueueEntry :=
  List.filter (fun student => String.eqb (key_of student) k) students.

Let stored (g : list QueueEntry) : option (list QueueEntry) :=
  match g with
  | [] => None
  | _ => Some g
  end.

Lemma group_fold_with_key (students seen : list QueueEntry) (m : ConfigGroups) :
  (forall k, Map_get k m = stored (with_key k seen)) ->
  forall k, Map_get k (fold_left (group_student numToString) students m)
            = stored (with_key k (seen ++ students)).
Proof.
  revert seen m. induction students as [|student students IH]; intros seen m Hm k.
  - simpl. rewrite app_nil_r. apply Hm.
  - simpl. replace (seen ++ student :: students)
      with ((seen ++ [student]) ++ students) by now rewrite <- app_assoc.
    apply IH. clear k. intros k. rewrite group_student_get, Hm.
    unfold with_key. rewrite List.filter_app. simpl. fold (key_of student).
    destruct (String.eqb (key_of student) k).
    + fold (with_key k seen). destruct (with_key k seen); reflexivity.
    + now rewrite app_nil_r.
Qed.

Lemma groupByConfig_get (students : list QueueEntry) (k : string) :
  Map_get k (groupByConfig numToString students) = stored (with_key k students).
Proof. apply (group_fold_with_key students [] []). reflexivity. Qed.

Lemma group_student_concat (m : ConfigGroups) (student : QueueEntry) :
  concat (map snd (group_student numToString m student))
  ≡ₚ concat (map snd m) ++ [student].
Proof.
  unfold group_student, Map_push. fold (key_of student).
  rewrite Map_has_get.
  destruct (Map_get (key_of student) m) as [g|] eqn:Hget; simpl.
  - rewrite Hget. now apply Map_set_concat_push.
  - rewrite Map_get_set, String.eqb_refl.
    rewrite (Map_set_concat_push (key_of student) [] student)
      by now rewrite Map_get_set, String.eqb_refl.
    rewrite Map_set_concat_fresh by exact Hget. now rewrite app_nil_r.
Qed.

Lemma group_fold_concat (students : list QueueEntry) (m : ConfigGroups) :
  concat (map snd (fold_left (group_student numToString) students m))
  ≡ₚ concat (map snd m) ++ students.
Proof.
  revert m. induction students as [|student students IH]; intros m; simpl.
  - now rewrite app_nil_r.
  - rewrite IH, group_student_concat, <- app_assoc. reflexivity.
Qed.

Lemma group_fold_keys_prefix (students : list QueueEntry) (m : ConfigGroups) :
  map fst m `prefix_of` map fst (fold_left (group_student numToString) students m).
Proof.
  revert m. induction students as [|student students IH]; intros m; simpl.
  - reflexivity.
  - etransitivity; [|apply IH]. rewrite group_student_keys.
    destruct (Map_has _ m); [reflexivity | now apply prefix_app_r].
Qed.

Lemma groupByConfig_batches (students : list QueueEntry) :
  let batches := groupByConfig numToString students in
  NoDup (map fst batches)
  /\ concat (map snd batches) ≡ₚ students
  /\ (forall configKey group, (configKey, group) ∈ batches ->
        group = with_key configKey students /\ group <> [])
  /\ (forall first others, students = first :: others ->
        exists along rest,
          batches = (key_of first, first :: along) :: rest).
Proof.
  intros batches.
  pose proof (groupByConfig_grouped numToString students) as [Hkeys _ _].
  fold batches in Hkeys.
  assert (Hgroup : forall configKey group, (configKey, group) ∈ batches ->
            group = with_key configKey students /\ group <> []).
  { intros k g Hin. apply Map_get_elem_of in Hin; [|exact Hkeys].
    unfold batches in Hin. rewrite groupByConfig_get in Hin.
    destruct (with_key k students) as [|x l]; simpl in Hin; [discriminate|].
    injection Hin as <-. split; [reflexivity | discriminate]. }
  split; [exact Hkeys|]. split; [apply (group_fold_concat students [])|].
  split; [exact Hgroup|].
  intros first others ->.
  pose proof (group_fold_keys_prefix others
                (group_student numToString [] first)) as [ks Hprefix].
  change (fold_left (group_student numToString) others
            (group_student numToString [] first)) with batches in Hprefix.
  replace (map fst (group_student numToString [] first)) with [key_of first]
    in Hprefix by (now rewrite group_student_keys).
  destruct batches as [|[k g] rest] eqn:Hbatches; [discriminate|].
  - assert (Hk : k = key_of first) by (simpl in Hprefix; congruence).
    subst k. destruct (Hgroup (key_of first) g) as [Hg _]; [now left|].
    unfold with_key in Hg. simpl in Hg. rewrite String.eqb_refl in Hg.
    rewrite Hg. eauto.
Qed.

End GroupingOrder.

(** X18. The batches [processQueue] forms.  Each batch holds, in their order
    of arrival, exactly the students whose configuration has the batch's key,
    and is never empty, so that [students[0]] is defined in [processBatch]; the
    keys of the batches are distinct; the batches together hold every student
    handed in once, none twice and none left out; and the first batch is the
    one of the first student, who is first in it. *)
Theorem X18_batches_partition_students_in_order :
  forall (numToString : Q -> string) (students : list QueueEntry),
    let key_of student := getConfigKey numToString (Firebase.config student) in
    let batches := groupByConfig numToString students in
    NoDup (map fst batches)
    /\ concat (map snd batches) ≡ₚ students
    /\ (forall configKey group, (configKey, group) ∈ batches ->
          group = List.filter (fun student => String.eqb (key_of student) configKey)
                    students
          /\ group <> [])
    /\ (forall first others, students = first :: others ->
          exists along rest, batches = (key_of first, first :: along) :: rest).
Proof.
  intros numToString students. apply groupByConfig_batches.
Qed.

Lemma X18_batches_partition_students_in_order_witness :
  let ann := sample_student "ann" Firebase.ready 0.5 in
  let bob := sample_student "bob" Firebase.ready 0.8 in
  let cat := sample_student "cat" Firebase.ready 0.5 in
  exists along rest,
    groupByConfig sample_numToString [ann; bob; cat]
    = (getConfigKey sample_numToString (Firebase.config ann), ann :: along) :: rest.
Proof.
  intros ann bob cat.
  refine (proj2 (proj2 (proj2
            (X18_batches_partition_students_in_order sample_numToString
               [ann; bob; cat]))) ann [bob; cat] _).
  reflexivity.
Defined.

(** ** [processBatch]: the whole protocol of one batch *)



(** ** [processQueue]: every student handed in is served *)

Lemma written_app (status : QueueStatus) (t1 t2 : list Effect) :
  written status (t1 ++ t2) = written status t1 ++ written status t2.
Proof. apply flat_map_app. Qed.

Lemma emissions_app (t1 t2 : list Effect) :
  emissions (t1 ++ t2) = emissions t1 ++ emissions t2.
Proof. apply flat_map_app. Qed.

Lemma written_writes (status status' : QueueStatus) (batchId : option string)
    (pattern : option (list PulseType)) (students : list QueueEntry) :
  written status
    (map (fun student => Wrote (Firebase.id student) status' batchId pattern) students)
  = if Firebase.QueueStatus_eqb status' status then map Firebase.id students else [].
Proof.
  induction students as [|student students IH]; simpl.
  - now destruct (Firebase.QueueStatus_eqb status' status).
  - fold (written status
            (map (fun student => Wrote (Firebase.id student) status' batchId pattern)
               students)).
    rewrite IH. now destruct (Firebase.QueueStatus_eqb status' status).
Qed.

Lemma emissions_writes (status : QueueStatus) (batchId : option string)
    (pattern : option (list PulseType)) (students : list QueueEntry) :
  emissions
    (map (fun student => Wrote (Firebase.id student) status batchId pattern) students)
  = [].
Proof. induction students as [|student students IH]; simpl; auto. Qed.

Lemma written_sleeps (status : QueueStatus) (polls : nat) (ms : Z) :
  written status (replicate polls (Slept ms)) = [].
Proof. induction polls as [|polls IH]; simpl; auto. Qed.

Lemma emissions_sleeps (polls : nat) (ms : Z) :
  emissions (replicate polls (Slept ms)) = [].
Proof. induction polls as [|polls IH]; simpl; auto. Qed.

(** An emitter that [emit] can use: it has an audio context, or the browser
    grants one whenever it is asked. *)
Lemma processBatch_served (first : QueueEntry) (others : list QueueEntry)
    (configKey : string) (w : World) (e : UltrasonicEmitter) :
  (forall k, writeFails w k = false) ->
  emitterRef w = Some e ->
  audioContext e <> None \/ (forall k, initFails w k = false) ->
  let r := processBatch (first :: others) configKey w in
  fst r = Returned
  /\ isProcessing (snd r) = isProcessing w
  /\ same_host w (snd r)
  /\ (exists e', emitterRef (snd r) = Some e' /\ audioContext e' <> None)
  /\ exists new,
       effects (snd r) = effects w ++ new
       /\ served (first :: others) (fst (generatePattern None (random (log w))))
            (Firebase.config first) new.
Proof.
  intros Hnever He Hplays r.
  destruct (processBatch_run first others configKey w)
    as (Hhost & Hproc & Href & _ & Hreturns & _ & Htrace).
  destruct (Htrace (Hnever _))
    as (polls & allReady & emitted & caught & _ & _ & _ & _ & Hemitted & Heffects
        & _ & _ & _ & Hcaught & Hctx).
  assert (Hyes : emitted = true).
  { rewrite Hemitted, He. destruct (audioContext e) as [ctx|]; [reflexivity|].
    destruct Hplays as [Hsome | Hgrant]; [congruence | now rewrite Hgrant]. }
  specialize (Hcaught Hnever Hyes). specialize (Hctx Hyes). clear Hemitted.
  subst emitted caught. rewrite He in Heffects.
  split; [now apply Hreturns|]. split; [exact Hproc|]. split; [exact Hhost|].
  split.
  { fold r in Href, Hctx. destruct (emitterRef (snd r)) as [e'|] eqn:He'.
    - exists e'. split; [reflexivity | now apply Hctx].
    - exfalso. destruct Href as [Href _]. specialize (Href eq_refl). congruence. }
  set (pattern := fst (generatePattern None (random (log w)))) in *.
  clearbody pattern.
  eexists. split; [exact Heffects|].
  split; rewrite ?written_app, ?emissions_app, ?written_writes, ?emissions_writes,
           ?written_sleeps, ?emissions_sleeps; simpl; now rewrite ?app_nil_r.
Qed.

Lemma processBatches_loop_served (configGroups : ConfigGroups) (w : World)
    (e : UltrasonicEmitter) :
  Forall (fun batch => snd batch <> []) configGroups ->
  (forall k, writeFails w k = false) ->
  emitterRef w = Some e ->
  audioContext e <> None \/ (forall k, initFails w k = false) ->
  let r := processBatches_loop configGroups w in
  fst r = Returned
  /\ isProcessing (snd r) = isProcessing w
  /\ exists new,
       effects (snd r) = effects w ++ new
       /\ written Firebase.emitting new
          = map Firebase.id (concat (map snd configGroups))
       /\ written Firebase.submitted new
          = map Firebase.id (concat (map snd configGroups))
       /\ written Firebase.failed new = []
       /\ Forall2 (fun emission batch =>
                     length (fst emission) = AUDIO_CONFIG.NUM_PULSES
                     /\ Forall high_or_low (fst emission)
                     /\ exists first, head (snd batch) = Some first
                                      /\ snd emission = Firebase.config first)
            (emissions new) configGroups.
Proof.
  intros Hgroups. revert w e.
  induction Hgroups as [|[configKey group] rest Hgroup _ IH];
    intros w e Hnever He Hplays.
  - simpl. split; [reflexivity|]. split; [reflexivity|].
    exists []. rewrite app_nil_r. repeat split; constructor.
  - cbn [processBatches_loop]. simpl in Hgroup.
    destruct group as [|first others]; [congruence|].
    destruct (processBatch_served first others configKey w e Hnever He Hplays)
      as (Hout & Hproc & Hhost & (e' & He' & Hctx') & new & Heffects & Hserved).
    destruct (processBatch (first :: others) configKey w) as [outcome w'].
    simpl in Hout, Hproc, Hhost, He', Heffects. subst outcome.
    destruct (IH w' e') as (Hout' & Hproc' & new' & Heffects' & Hem & Hsub & Hfail & Hemis).
    { intros k. destruct Hhost as [_ Hfails _ _ _ _]. now rewrite Hfails. }
    { exact He'. }
    { now left. }
    split; [exact Hout'|]. split; [now rewrite Hproc'|].
    exists (new ++ new'). destruct Hserved as [S1 S2 S3 S4].
    split; [now rewrite Heffects', Heffects, app_assoc|].
    rewrite !written_app, emissions_app, S1, S2, S3, S4, Hem, Hsub, Hfail.
    cbn [map snd concat]. rewrite !map_app.
    split; [reflexivity|]. split; [reflexivity|]. split; [reflexivity|].
    constructor; [|exact Hemis].
    pose proof (generatePattern_spec AUDIO_CONFIG.NUM_PULSES (random (log w)))
      as (Hlen & Hsym & _).
    split; [exact Hlen|]. split; [exact Hsym|].
    exists first. split; reflexivity.
Qed.

(** X20. A run of [processQueue] in which no write is rejected and the
    emitter can be used serves every student handed in.  On a coordinator
    that is not processing, with a list of students that is not empty and an
    emitter that has an audio context or is granted one, it returns with
    [isProcessing] false again; every student is written 'emitting' once and
    'submitted' once, batch after batch, and nobody is written 'failed'; and
    there is one emission per batch, of a pattern of six symbols 'H' and 'L',
    with the configuration of the first student of that batch. *)
Theorem X20_processQueue_serves_every_student :
  forall (numToString : Q -> string) (students : list QueueEntry) (w : World)
         (e : UltrasonicEmitter),
    isProcessing w = false ->
    students <> [] ->
    (forall k, writeFails w k = false) ->
    emitterRef w = Some e ->
    audioContext e <> None \/ (forall k, initFails w k = false) ->
    let r := processQueue numToString students w in
    let batches := groupByConfig numToString students in
    fst r = Returned
    /\ isProcessing (snd r) = false
    /\ exists new,
         effects (snd r) = effects w ++ new
         /\ written Firebase.emitting new ≡ₚ map Firebase.id students
         /\ written Firebase.submitted new = written Firebase.emitting new
         /\ written Firebase.failed new = []
         /\ length (emissions new) = length batches
         /\ Forall2 (fun emission batch =>
                       length (fst emission) = 6%nat
                       /\ Forall high_or_low (fst emission)
                       /\ exists first, head (snd batch) = Some first
                                        /\ snd emission = Firebase.config first)
              (emissions new) batches.
Proof.
  intros numToString students w e Hidle Hne Hnever He Hplays r batches.
  destruct (groupByConfig_batches numToString students)
    as (_ & Hperm & Hgroups & _).
  fold batches in Hperm, Hgroups.
  assert (Hnonempty : Forall (fun batch => snd batch <> []) batches).
  { apply Forall_forall. intros [k g] Hin. now apply (Hgroups k g). }
  destruct (processBatches_loop_served batches (log (setIsProcessing true w)) e
              Hnonempty)
    as (Hout & Hproc & new & Heffects & Hem & Hsub & Hfail & Hemis);
    [exact Hnever | exact He | exact Hplays |].
  subst r. unfold processQueue. rewrite Hidle.
  replace (length students =? 0)%nat with false
    by (destruct students; [congruence | reflexivity]).
  cbn [orb]. fold batches. unfold processBatches.
  destruct (processBatches_loop batches (log (setIsProcessing true w)))
    as [outcome w'].
  simpl in Hout, Hproc, Heffects. subst outcome. cbn [fst snd].
  split; [reflexivity|].
  unfold processQueue_finally.
  set (again := (0 <? length _)%nat).
  split; [now destruct again|].
  exists (new ++ if again then [RecheckArmed 50] else []).
  split; [destruct again; simpl; rewrite Heffects, <- ?app_assoc, ?app_nil_r;
          reflexivity|].
  rewrite !written_app, emissions_app.
  replace (written Firebase.emitting (if again then [RecheckArmed 50] else []))
    with (@nil string) by now destruct again.
  replace (written Firebase.submitted (if again then [RecheckArmed 50] else []))
    with (@nil string) by now destruct again.
  replace (written Firebase.failed (if again then [RecheckArmed 50] else []))
    with (@nil string) by now destruct again.
  replace (emissions (if again then [RecheckArmed 50] else []))
    with (@nil (list PulseType * EmitterConfig)) by now destruct again.
  rewrite !app_nil_r, Hem, Hsub, Hfail.
  split; [now rewrite Hperm|]. split; [reflexivity|]. split; [reflexivity|].
  split; [now apply Forall2_length in Hemis | exact Hemis].
Qed.

Lemma X20_processQueue_serves_every_student_witness :
  let ann := sample_student "ann" Firebase.ready 0.5 in
  let bob := sample_student "bob" Firebase.ready 0.8 in
  let w := setIsProcessing false sample_world in
  fst (processQueue sample_numToString [ann; bob] w) = Returned.
Proof.
  intros ann bob w.
  refine (proj1 (X20_processQueue_serves_every_student sample_numToString
                   [ann; bob] w {| audioContext := None; outputFilter := None |}
                   _ _ _ _ _)).
  - reflexivity.
  - discriminate.
  - reflexivity.
  - reflexivity.
  - right. reflexivity.
Defined.

(** ** [processQueue]: rejected writes *)

Lemma written_any_app (t1 t2 : list Effect) :
  written_any (t1 ++ t2) = written_any t1 ++ written_any t2.
Proof. apply flat_map_app. Qed.

Lemma written_any_writes (status : QueueStatus) (batchId : option string)
    (pattern : option (list PulseType)) (students : list QueueEntry) :
  written_any
    (map (fun student => Wrote (Firebase.id student) status batchId pattern) students)
  = map Firebase.id students.
Proof.
  induction students as [|student students IH]; simpl; [reflexivity|].
  now rewrite <- IH.
Qed.

Lemma written_any_sleeps (polls : nat) (ms : Z) :
  written_any (replicate polls (Slept ms)) = [].
Proof. induction polls as [|polls IH]; simpl; auto. Qed.

Lemma subseteq_app_l {A : Type} (l1 l2 l : list A) :
  l1 ⊆ l -> l2 ⊆ l -> l1 ++ l2 ⊆ l.
Proof. intros H1 H2 x Hx. apply elem_of_app in Hx as [Hx | Hx]; auto. Qed.

Lemma processBatch_writes (first : QueueEntry) (others : list QueueEntry)
    (configKey : string) (w : World) :
  let students := first :: others in
  let r := processBatch students configKey w in
  (fst r = Returned \/ fst r = Threw)
  /\ exists new,
       effects (snd r) = effects w ++ new
       /\ written_any new ⊆ map Firebase.id students
       /\ (fst r = Threw -> written Firebase.failed new = map Firebase.id students).
Proof.
  intros students r.
  destruct (processBatch_run first others configKey w)
    as (_ & _ & _ & Hout & _ & Hrejected & Haccepted).
  fold students r in Hout, Hrejected, Haccepted.
  split; [exact Hout|].
  destruct (writeFails w (awaits w)).
  - eexists. split; [apply Hrejected; reflexivity|]. split.
    + rewrite written_any_app, !written_any_writes.
      intros x Hx. apply elem_of_app in Hx as [Hx | Hx]; exact Hx.
    + intros _. rewrite written_app, !written_writes. reflexivity.
  - destruct (Haccepted eq_refl)
      as (polls & allReady & emitted & caught & _ & _ & _ & _ & _ & Heffects
          & _ & _ & Hthrew & _).
    eexists. split; [exact Heffects|]. split.
    + rewrite !written_any_app, !written_any_writes, written_any_sleeps.
      change (written_any [Slept 100]) with (@nil string).
      assert (Hemit : written_any
                (if emitted
                 then match emitterRef w with
                      | Some _ =>
                          [Emitted (fst (generatePattern None (random (log w))))
                             (Firebase.config first)
                             (map (pulse_frequency (Firebase.config first))
                                (fst (generatePattern None (random (log w)))))]
                      | None => []
                      end
                      ++ [Slept 150]
                      ++ map (fun student =>
                                Wrote (Firebase.id student) Firebase.submitted None None)
                           students
                 else []) ⊆ map Firebase.id students).
      { destruct emitted; [|apply list_subseteq_nil].
        rewrite !written_any_app, written_any_writes.
        change (written_any [Slept 150]) with (@nil string).
        destruct (emitterRef w); simpl; reflexivity. }
      assert (Hcatch : written_any
                (if caught
                 then map (fun student =>
                             Wrote (Firebase.id student) Firebase.failed None None)
                        students
                 else []) ⊆ map Firebase.id students).
      { destruct caught; [|apply list_subseteq_nil].
        rewrite written_any_writes. reflexivity. }
      repeat apply subseteq_app_l;
        try reflexivity; try apply list_subseteq_nil; assumption.
    + intros Hthrown. specialize (Hthrew Hthrown). subst caught.
      rewrite !written_app, !written_writes, written_sleeps.
      cbn [Firebase.QueueStatus_eqb].
      change (written Firebase.failed [Slept 100]) with (@nil string).
      replace (written Firebase.failed
                 (if emitted
                  then match emitterRef w with
                       | Some _ =>
                           [Emitted (fst (generatePattern None (random (log w))))
                              (Firebase.config first)
                              (map (pulse_frequency (Firebase.config first))
                                 (fst (generatePattern None (random (log w)))))]
                       | None => []
                       end
                       ++ [Slept 150]
                       ++ map (fun student =>
                                 Wrote (Firebase.id student) Firebase.submitted None None)
                            students
                  else [])) with (@nil string); [reflexivity|].
      destruct emitted; [|reflexivity].
      rewrite !written_app, written_writes. cbn [Firebase.QueueStatus_eqb].
      now destruct (emitterRef w).
Qed.

Lemma processBatches_loop_writes (configGroups : ConfigGroups) (w : World) :
  Forall (fun batch => snd batch <> []) configGroups ->
  let r := processBatches_loop configGroups w in
  (fst r = Returned \/ fst r = Threw)
  /\ exists new,
       effects (snd r) = effects w ++ new
       /\ written_any new ⊆ map Firebase.id (concat (map snd configGroups))
       /\ (fst r = Threw -> written Firebase.failed new <> []).
Proof.
  intros Hgroups. revert w.
  induction Hgroups as [|[configKey group] rest Hgroup _ IH]; intros w.
  - simpl. split; [auto|]. exists []. rewrite app_nil_r.
    split; [reflexivity|]. split; [reflexivity | discriminate].
  - cbn [processBatches_loop]. simpl in Hgroup.
    destruct group as [|first others]; [congruence|].
    destruct (processBatch_writes first others configKey w)
      as (Hout & new & Heffects & Hids & Hthrew).
    cbv zeta in Hout, Heffects, Hids, Hthrew.
    destruct (processBatch (first :: others) configKey w) as [outcome w'].
    cbn [fst snd] in Hout, Heffects, Hids, Hthrew.
    cbn [map snd concat]. rewrite map_app.
    destruct outcome.
    + destruct (IH w') as (Hout' & new' & Heffects' & Hids' & Hthrew').
      split; [exact Hout'|]. exists (new ++ new').
      split; [now rewrite Heffects', Heffects, app_assoc|]. split.
      * rewrite written_any_app. intros x Hx.
        apply elem_of_app in Hx as [Hx | Hx]; apply elem_of_app;
          [left; now apply Hids | right; now apply Hids'].
      * intros Ht. rewrite written_app. specialize (Hthrew' Ht).
        intros Hnil. apply app_eq_nil in Hnil as [_ Hnil]. contradiction.
    + cbn [fst snd]. split; [auto|]. exists new.
      split; [exact Heffects|]. split.
      * intros x Hx. apply elem_of_app. left. now apply Hids.
      * intros _. rewrite Hthrew by reflexivity. discriminate.
    + destruct Hout; discriminate.
Qed.

(** X21. [processQueue] against rejections and re-entry.  Called while the
    coordinator is processing, or with no student, it does nothing.
    Otherwise, whatever the writes and the emitter do, it ends with
    [isProcessing] false; its promise is fulfilled or rejected; it writes
    only to students it was handed; its promise is rejected only after
    'failed' has been written to a batch; and it arms the 50 ms re-check, as
    its last effect, exactly when an entry of [queueRef.current] is 'ready'
    at that moment. *)
Theorem X21_processQueue_resets_and_stays_in_batch :
  forall (numToString : Q -> string) (students : list QueueEntry) (w : World),
    let r := processQueue numToString students w in
    (isProcessing w = true \/ students = [] -> r = (Returned, w))
    /\ (isProcessing w = false -> students <> [] ->
        isProcessing (snd r) = false
        /\ (fst r = Returned \/ fst r = Threw)
        /\ exists (new : list Effect) (again : bool),
             effects (snd r) = effects w ++ new
                               ++ (if again then [RecheckArmed 50] else [])
             /\ (again = true
                 <-> exists entry, entry ∈ queueRef (snd r)
                                   /\ Firebase.status entry = Firebase.ready)
             /\ written_any new ⊆ map Firebase.id students
             /\ (fst r = Threw -> written Firebase.failed new <> [])).
Proof.
  intros numToString students w r. split.
  - intros [Hbusy | Hnone]; subst r; unfold processQueue.
    + now rewrite Hbusy.
    + subst students. now rewrite orb_true_r.
  - intros Hidle Hne.
    destruct (groupByConfig_batches numToString students)
      as (_ & Hperm & Hgroups & _).
    set (batches := groupByConfig numToString students) in *.
    assert (Hnonempty : Forall (fun batch => snd batch <> []) batches).
    { apply Forall_forall. intros [k g] Hin. now apply (Hgroups k g). }
    destruct (processBatches_loop_writes batches (log (setIsProcessing true w))
                Hnonempty)
      as (Hout & new & Heffects & Hids & Hthrew).
    subst r. unfold processQueue. rewrite Hidle.
    replace (length students =? 0)%nat with false
      by (destruct students; [congruence | reflexivity]).
    cbn [orb]. fold batches. unfold processBatches.
    destruct (processBatches_loop batches (log (setIsProcessing true w)))
      as [outcome w'].
    cbn [fst snd] in *. unfold processQueue_finally.
    set (found := filter _ (queueRef (setIsProcessing false w'))).
    assert (Hfound : (0 <? length found)%nat = true
              <-> exists entry, entry ∈ queueRef (setIsProcessing false w')
                                /\ Firebase.status entry = Firebase.ready).
    { rewrite Nat.ltb_lt. split.
      - intros Hlen. destruct found as [|entry l] eqn:Hf; [simpl in Hlen; lia|].
        assert (Hin : entry ∈ found) by (rewrite Hf; now left).
        unfold found in Hin. apply list_elem_of_filter in Hin as [Hready Hin].
        exists entry. split; [exact Hin|].
        now apply Is_true_true, QueueStatus_eqb_eq in Hready.
      - intros (entry & Hin & Hready).
        assert (Hin' : entry ∈ found).
        { unfold found. apply list_elem_of_filter. split; [|exact Hin].
          apply Is_true_true, QueueStatus_eqb_eq, Hready. }
        destruct found; [inversion Hin' | simpl; lia]. }
    destruct (0 <? length found)%nat eqn:Hagain.
    + split; [reflexivity|]. split; [exact Hout|].
      exists new, true. cbn [effects perform setIsProcessing log setRandom].
      split; [now rewrite Heffects, app_assoc|].
      split; [exact Hfound|]. split; [|exact Hthrew].
      intros x Hx. apply Hids in Hx. now rewrite <- Hperm.
    + split; [reflexivity|]. split; [exact Hout|].
      exists new, false. cbn [effects setIsProcessing].
      split; [now rewrite Heffects, app_nil_r|].
      split; [exact Hfound|]. split; [|exact Hthrew].
      intros x Hx. apply Hids in Hx. now rewrite <- Hperm.
Qed.

Lemma X21_processQueue_resets_and_stays_in_batch_witness :
  let ann := sample_student "ann" Firebase.ready 0.5 in
  let idle := setIsProcessing false sample_world in
  processQueue sample_numToString [ann] sample_world = (Returned, sample_world)
  /\ isProcessing (snd (processQueue sample_numToString [ann] idle)) = false
  /\ (fst (processQueue sample_numToString [ann] idle) = Returned
      \/ fst (processQueue sample_numToString [ann] idle) = Threw).
Proof.
  intros ann idle.
  split.
  - refine (proj1 (X21_processQueue_resets_and_stays_in_batch sample_numToString
                     [ann] sample_world) _).
    left. reflexivity.
  - destruct (proj2 (X21_processQueue_resets_and_stays_in_batch sample_numToString
                       [ann] idle) eq_refl)
      as (Hreset & Hout & _); [discriminate|].
    split; [exact Hreset | exact Hout].
Defined.

(** ** [TeacherView.tsx]: verification of the submissions *)

(** X22. The verdict [verifyStudent] writes for an entry.  It is 'verified'
    exactly when the entry has an emitted and a detected pattern, the emitted
    one has at least five symbols and its first five occur in order in the
    detected one; in every other case it is 'failed'.  [passed] is written
    true exactly with 'verified'; the score written with it is at most the
    length of the emitted pattern and at most that of the detected one; and
    without one of the two patterns 'failed' is written with no score. *)
Theorem X22_verifyStudent_verdict :
  forall entry : QueueEntry,
    let verdict := verifyStudent entry in
    verdict_id verdict = Firebase.id entry
    /\ (verdict_status verdict = Firebase.verified
        \/ verdict_status verdict = Firebase.failed)
    /\ (verdict_status verdict = Firebase.verified
        <-> exists emitted detected,
              Firebase.emittedPattern entry = Some emitted
              /\ Firebase.detectedPattern entry = Some detected
              /\ (5 <= length emitted)%nat
              /\ take 5 emitted `sublist_of` detected)
    /\ (verdict_passed verdict = Some true
        <-> verdict_status verdict = Firebase.verified)
    /\ (forall emitted detected,
          Firebase.emittedPattern entry = Some emitted ->
          Firebase.detectedPattern entry = Some detected ->
          exists score,
            verdict_matchCount verdict = Some score
            /\ (score <= length emitted)%nat /\ (score <= length detected)%nat)
    /\ (Firebase.emittedPattern entry = None
        \/ Firebase.detectedPattern entry = None ->
        verdict_status verdict = Firebase.failed
        /\ verdict_matchCount verdict = None
        /\ verdict_passed verdict = None).
Proof.
  intros entry verdict. subst verdict. unfold verifyStudent.
  destruct (Firebase.emittedPattern entry) as [emitted|];
    [destruct (Firebase.detectedPattern entry) as [detected|]|].
  - cbn [verdict_id verdict_status verdict_matchCount verdict_passed].
    assert (Hpass : passed (comparePatterns emitted detected) = true
              <-> (5 <= length emitted)%nat /\ take 5 emitted `sublist_of` detected).
    { rewrite comparePatterns_passed, PASS_THRESHOLD_value, Nat.leb_le,
        comparePatterns_matchCount.
      split.
      - intros H5. pose proof (greedy_match_le emitted detected).
        split; [lia|]. apply greedy_match_prefix; lia.
      - intros [Hlen Hsub]. now apply greedy_match_prefix. }
    split; [reflexivity|].
    destruct (passed (comparePatterns emitted detected)) eqn:Hp.
    + split; [now left|]. split.
      * split; [|reflexivity]. intros _. exists emitted, detected.
        destruct (proj1 Hpass eq_refl). auto.
      * split; [split; reflexivity|]. split.
        -- intros e d [= <-] [= <-]. eexists. split; [reflexivity|].
           rewrite comparePatterns_matchCount.
           split; [apply greedy_match_le | apply greedy_match_le_detected].
        -- intros [H | H]; discriminate.
    + split; [now right|]. split.
      * split; [discriminate|].
        intros (e & d & [= <-] & [= <-] & Hlen & Hsub).
        assert (false = true) by (apply Hpass; auto). discriminate.
      * split; [split; discriminate|]. split.
        -- intros e d [= <-] [= <-]. eexists. split; [reflexivity|].
           rewrite comparePatterns_matchCount.
           split; [apply greedy_match_le | apply greedy_match_le_detected].
        -- intros [H | H]; discriminate.
  - cbn [verdict_id verdict_status verdict_matchCount verdict_passed].
    split; [reflexivity|]. split; [now right|]. split.
    + split; [discriminate|]. intros (e & d & _ & H & _). discriminate.
    + split; [split; discriminate|]. split; [discriminate | auto].
  - cbn [verdict_id verdict_status verdict_matchCount verdict_passed].
    split; [reflexivity|]. split; [now right|]. split.
    + split; [discriminate|]. intros (e & d & H & _). discriminate.
    + split; [split; discriminate|]. split; [discriminate | auto].
Qed.

Lemma X22_verifyStudent_verdict_witness :
  let entry := sample_student "ann" Firebase.submitted 0.5 in
  verdict_status (verifyStudent entry) = Firebase.failed
  /\ verdict_matchCount (verifyStudent entry) = None
  /\ verdict_passed (verifyStudent entry) = None.
Proof.
  intros entry.
  refine (proj2 (proj2 (proj2 (proj2 (proj2 (X22_verifyStudent_verdict entry))))) _).
  left. reflexivity.
Defined.

Lemma verify_each_spec (entries : list QueueEntry) (verifying : gset string) :
  let result := verify_each entries verifying in
  snd result = verifying ∪ list_to_set (map Firebase.id entries)
  /\ NoDup (map verdict_id (fst result))
  /\ (forall verdict, verdict ∈ fst result ->
        (verdict_id verdict ∉ verifying)
        /\ exists entry, entry ∈ entries /\ verdict = verifyStudent entry)
  /\ (forall entry, entry ∈ entries -> Firebase.id entry ∉ verifying ->
        Firebase.id entry ∈ map verdict_id (fst result)).
Proof.
  revert verifying.
  induction entries as [|entry rest IH]; intros verifying; cbn [verify_each].
  - cbn [fst snd map list_to_set]. split; [now rewrite union_empty_r_L|].
    split; [constructor|]. split; intros x Hx; inversion Hx.
  - destruct (decide (Firebase.id entry ∈ verifying)) as [Hin | Hout].
    + destruct (IH verifying) as (Hset & Hnodup & Hsound & Hcomplete).
      split; [|split; [exact Hnodup|split]].
      * rewrite Hset. cbn [map list_to_set].
        apply set_eq. intros x. rewrite !elem_of_union, elem_of_singleton.
        split; [tauto|]. intros [H | [-> | H]]; auto.
      * intros verdict Hv. destruct (Hsound verdict Hv) as (Hid & e & He & Hve).
        split; [exact Hid|]. exists e. split; [now right | exact Hve].
      * intros e He Hid. apply elem_of_cons in He as [-> | He]; [contradiction|].
        now apply Hcomplete.
    + destruct (IH ({[Firebase.id entry]} ∪ verifying))
        as (Hset & Hnodup & Hsound & Hcomplete).
      destruct (verify_each rest ({[Firebase.id entry]} ∪ verifying))
        as [started verifying'].
      cbn [fst snd] in *.
      split; [|split; [|split]].
      * rewrite Hset. cbn [map list_to_set].
        apply set_eq. intros x. rewrite !elem_of_union, elem_of_singleton. tauto.
      * cbn [map]. apply NoDup_cons. split; [|exact Hnodup].
        replace (verdict_id (verifyStudent entry)) with (Firebase.id entry)
          by (unfold verifyStudent;
              destruct (Firebase.emittedPattern entry),
                (Firebase.detectedPattern entry); reflexivity).
        intros Hdup. apply list_elem_of_fmap in Hdup as (v & Hid & Hv).
        destruct (Hsound v Hv) as (Hnotin & _). apply Hnotin.
        rewrite <- Hid. apply elem_of_union. left. now apply elem_of_singleton.
      * intros verdict Hv. apply elem_of_cons in Hv as [-> | Hv].
        -- split; [|exists entry; split; [now left | reflexivity]].
           replace (verdict_id (verifyStudent entry)) with (Firebase.id entry)
             by (unfold verifyStudent;
                 destruct (Firebase.emittedPattern entry),
                   (Firebase.detectedPattern entry); reflexivity).
           exact Hout.
        -- destruct (Hsound verdict Hv) as (Hid & e & He & Hve).
           split; [|exists e; split; [now right | exact Hve]].
           intros Hin. apply Hid, elem_of_union. now right.
      * intros e He Hid. cbn [map].
        replace (verdict_id (verifyStudent entry)) with (Firebase.id entry)
          by (unfold verifyStudent;
              destruct (Firebase.emittedPattern entry),
                (Firebase.detectedPattern entry); reflexivity).
        destruct (decide (Firebase.id e = Firebase.id entry)) as [Heq | Hne].
        -- rewrite Heq. now left.
        -- right. apply elem_of_cons in He as [-> | He]; [congruence|].
           apply Hcomplete; [exact He|].
           intros Hin. apply elem_of_union in Hin as [Hin | Hin]; [|contradiction].
           apply elem_of_singleton in Hin. contradiction.
Qed.

(** X23. One run of the effect that verifies submissions.  [verifyStudent] is
    started only for entries of the queue that are 'submitted' with a detected
    pattern that is not empty and whose id is not being verified already, and
    at most once per id; every such entry of the queue has its verification
    started; the ids started are added to [verifyingRef.current].  An entry
    that is 'submitted' with an empty detected pattern, or none, is not
    verified. *)
Theorem X23_verification_starts_once_per_submission :
  forall (queue : list QueueEntry) (verifying : gset string),
    let result := verify_submitted queue verifying in
    let started := fst result in
    NoDup (map verdict_id started)
    /\ (forall verdict, verdict ∈ started ->
          (verdict_id verdict ∉ verifying)
          /\ exists entry detected,
               entry ∈ queue
               /\ verdict = verifyStudent entry
               /\ Firebase.status entry = Firebase.submitted
               /\ Firebase.detectedPattern entry = Some detected
               /\ detected <> [])
    /\ (forall entry detected,
          entry ∈ queue ->
          Firebase.status entry = Firebase.submitted ->
          Firebase.detectedPattern entry = Some detected ->
          detected <> [] ->
          Firebase.id entry ∉ verifying ->
          Firebase.id entry ∈ map verdict_id started)
    /\ (forall id, id ∈ snd result
                   <-> id ∈ verifying \/ id ∈ map verdict_id started)
    /\ (forall entry,
          (forall other, other ∈ queue -> Firebase.id other = Firebase.id entry ->
             other = entry) ->
          entry ∈ queue ->
          Firebase.detectedPattern entry = None
          \/ Firebase.detectedPattern entry = Some [] ->
          Firebase.id entry ∉ map verdict_id started).
Proof.
  intros queue verifying result started.
  destruct (verify_each_spec (List.filter has_submission queue) verifying)
    as (Hset & Hnodup & Hsound & Hcomplete).
  fold (verify_submitted queue verifying) in Hset, Hnodup, Hsound, Hcomplete.
  fold result in Hset, Hnodup, Hsound, Hcomplete. fold started in Hnodup, Hsound, Hcomplete.
  assert (Hfilter : forall entry,
            entry ∈ List.filter has_submission queue
            <-> entry ∈ queue
                /\ Firebase.status entry = Firebase.submitted
                /\ exists detected, Firebase.detectedPattern entry = Some detected
                                    /\ detected <> []).
  { intros entry. rewrite !list_elem_of_In, filter_In. unfold has_submission.
    rewrite andb_true_iff, QueueStatus_eqb_eq.
    destruct (Firebase.detectedPattern entry) as [[|x d]|]; simpl.
    - split; [intros (_ & _ & H); discriminate|].
      intros (_ & _ & d & [= <-] & H). congruence.
    - split; [intros (H1 & H2 & _)|intros (H1 & H2 & _)];
        repeat split; eauto; discriminate.
    - split; [intros (_ & _ & H); discriminate|].
      intros (_ & _ & d & H & _). discriminate. }
  assert (Hstarted : forall verdict, verdict ∈ started ->
            (verdict_id verdict ∉ verifying)
            /\ exists entry detected,
                 entry ∈ queue
                 /\ verdict = verifyStudent entry
                 /\ Firebase.status entry = Firebase.submitted
                 /\ Firebase.detectedPattern entry = Some detected
                 /\ detected <> []).
  { intros verdict Hv. destruct (Hsound verdict Hv) as (Hid & entry & He & Hve).
    split; [exact Hid|].
    apply Hfilter in He as (Hq & Hs & detected & Hd & Hne).
    exists entry, detected. auto. }
  split; [exact Hnodup|]. split; [exact Hstarted|]. split; [|split].
  - intros entry detected Hq Hs Hd Hne Hid. apply Hcomplete; [|exact Hid].
    apply Hfilter. eauto.
  - intros id. rewrite Hset, elem_of_union, elem_of_list_to_set.
    split.
    + intros [H | H]; [now left|].
      destruct (decide (id ∈ verifying)) as [Hin | Hout]; [now left|]. right.
      apply list_elem_of_fmap in H as (entry & -> & He). now apply Hcomplete.
    + intros [H | H]; [now left|]. right.
      apply list_elem_of_fmap in H as (verdict & -> & Hv).
      destruct (Hsound verdict Hv) as (_ & entry & He & ->).
      apply list_elem_of_fmap. exists entry. split; [|exact He].
      unfold verifyStudent.
      destruct (Firebase.emittedPattern entry), (Firebase.detectedPattern entry);
        reflexivity.
  - intros entry Hunique Hq Hnone Hin.
    apply list_elem_of_fmap in Hin as (verdict & Hid & Hv).
    destruct (Hstarted verdict Hv) as (_ & other & detected & Ho & -> & _ & Hd & Hne).
    assert (other = entry).
    { apply Hunique; [exact Ho|]. rewrite Hid. unfold verifyStudent.
      destruct (Firebase.emittedPattern other), (Firebase.detectedPattern other);
        reflexivity. }
    subst other. destruct Hnone as [Hnone | Hnone]; congruence.
Qed.

Lemma X23_verification_starts_once_per_submission_witness :
  let entry := sample_submission "ann" [PH; PL; PH; PH; PL; PL] [PH; PL; PH; PH; PL] in
  Firebase.id entry ∈ map verdict_id (fst (verify_submitted [entry] ∅)).
Proof.
  intros entry.
  refine (proj1 (proj2 (proj2
            (X23_verification_starts_once_per_submission [entry] ∅)))
            entry [PH; PL; PH; PH; PL] _ _ _ _ _).
  - now left.
  - reflexivity.
  - reflexivity.
  - discriminate.
  - apply not_elem_of_empty.
Defined.

(** ** [logger.ts]: the store keeps the latest entries *)

Lemma Logger_addLog_logs (entry : Logger.LogEntry) (l : Logger.t) :
  Logger.logs (Logger.addLog entry l)
  = drop (length (Logger.logs l ++ [entry]) - Logger.maxLogs)
      (Logger.logs l ++ [entry]).
Proof.
  unfold Logger.addLog, Logger.notify, Logger.slice_last. cbn [Logger.logs].
  destruct (Nat.ltb_spec Logger.maxLogs (length (Logger.logs l ++ [entry])))
    as [Hlong | Hshort]; [reflexivity|].
  now replace (length (Logger.logs l ++ [entry]) - Logger.maxLogs)%nat
    with 0%nat by lia.
Qed.

Lemma Logger_addLogs_logs (entries all : list Logger.LogEntry) (l : Logger.t) :
  Logger.logs l = drop (length all - Logger.maxLogs) all ->
  Logger.logs (Logger.addLogs entries l)
  = drop (length (all ++ entries) - Logger.maxLogs) (all ++ entries).
Proof.
  revert all l. induction entries as [|entry entries IH]; intros all l Hl.
  - simpl. now rewrite app_nil_r.
  - cbn [Logger.addLogs fold_left].
    change (fold_left (fun l0 e => Logger.addLog e l0) entries
              (Logger.addLog entry l))
      with (Logger.addLogs entries (Logger.addLog entry l)).
    replace (all ++ entry :: entries) with ((all ++ [entry]) ++ entries)
      by now rewrite <- app_assoc.
    apply IH. rewrite Logger_addLog_logs, Hl.
    rewrite <- drop_app_le by lia.
    rewrite drop_drop. f_equal.
    rewrite length_drop, !length_app. simpl. unfold Logger.maxLogs. lia.
Qed.

(** X24. The log store keeps the latest 500 entries.  From a store that holds
    at most 500, after any number of log calls [getLogs] returns the last 500
    of all the entries, the earlier ones before the new ones, in their order,
    and all of them while there are no more than 500; so it never holds more
    than 500, and the entry logged last is its last one. *)
Theorem X24_logger_keeps_the_latest_500 :
  forall (entries : list Logger.LogEntry) (l : Logger.t),
    (length (Logger.logs l) <= 500)%nat ->
    let all := Logger.logs l ++ entries in
    let kept := Logger.getLogs (Logger.addLogs entries l) in
    kept = drop (length all - 500) all
    /\ length kept = Nat.min 500 (length all)
    /\ (length kept <= 500)%nat
    /\ ((length all <= 500)%nat -> kept = all)
    /\ (forall entry, last entries = Some entry -> last kept = Some entry).
Proof.
  intros entries l Hl all kept.
  assert (Hkept : kept = drop (length all - 500) all).
  { apply Logger_addLogs_logs.
    now replace (length (Logger.logs l) - Logger.maxLogs)%nat with 0%nat
      by (unfold Logger.maxLogs; lia). }
  split; [exact Hkept|].
  assert (Hlen : length kept = Nat.min 500 (length all))
    by (rewrite Hkept, length_drop; lia).
  split; [exact Hlen|]. split; [lia|]. split.
  - intros Hall. rewrite Hkept.
    now replace (length all - 500)%nat with 0%nat by lia.
  - intros entry Hlast. rewrite Hkept.
    assert (Hall : last all = Some entry).
    { subst all. destruct entries as [|e es]; [discriminate|].
      now rewrite last_app, Hlast. }
    rewrite !last_lookup in *. rewrite lookup_drop, length_drop.
    rewrite <- Hall. f_equal.
    assert (0 < length all)%nat.
    { subst all. rewrite length_app.
      destruct entries; [discriminate | simpl; lia]. }
    lia.
Qed.

Lemma X24_logger_keeps_the_latest_500_witness :
  let entry := {| Logger.id := "1-a"; Logger.timestamp := 1;
                  Logger.level := Logger.info; Logger.message := "started" |} in
  Logger.getLogs (Logger.addLogs [entry; entry] Logger.new)
  = drop (length (Logger.logs Logger.new ++ [entry; entry]) - 500)
      (Logger.logs Logger.new ++ [entry; entry]).
Proof.
  intros entry.
  refine (proj1 (X24_logger_keeps_the_latest_500 [entry; entry] Logger.new _)).
  simpl. lia.
Defined.

(** ** [logger.ts]: who is told what *)

Lemma Logger_addLog_subscribers (entry : Logger.LogEntry) (l : Logger.t) :
  Logger.subscribers (Logger.addLog entry l) = Logger.subscribers l.
Proof. reflexivity. Qed.

Lemma Logger_addLogs_subscribers (entries : list Logger.LogEntry) (l : Logger.t) :
  Logger.subscribers (Logger.addLogs entries l) = Logger.subscribers l.
Proof.
  revert l. induction entries as [|entry entries IH]; intros l; [reflexivity|].
  cbn [Logger.addLogs fold_left].
  change (fold_left (fun l0 e => Logger.addLog e l0) entries (Logger.addLog entry l))
    with (Logger.addLogs entries (Logger.addLog entry l)).
  now rewrite IH.
Qed.

Lemma Logger_calls_to (callback : Logger.LogSubscriber)
    (copy : list Logger.LogEntry) (subs : list Logger.LogSubscriber) :
  NoDup subs ->
  map snd (filter (fun call : Logger.LogSubscriber * list Logger.LogEntry =>
                     fst call = callback)
             (map (fun sub => (sub, copy)) subs))
  = if decide (callback ∈ subs) then [copy] else [].
Proof.
  induction 1 as [|sub subs Hfresh Hnodup IH]; [reflexivity|].
  cbn [map]. rewrite filter_cons. cbn [fst].
  destruct (decide (sub = callback)) as [-> | Hne].
  - cbn [map snd]. rewrite IH.
    destruct (decide (callback ∈ subs)) as [Hin | _]; [contradiction|].
    destruct (decide (callback ∈ callback :: subs)) as [_ | Hout]; [reflexivity|].
    exfalso. apply Hout. now left.
  - rewrite IH.
    destruct (decide (callback ∈ subs)) as [Hin | Hout];
      destruct (decide (callback ∈ sub :: subs)) as [Hin' | Hout'];
      try reflexivity.
    + exfalso. apply Hout'. now right.
    + exfalso. apply elem_of_cons in Hin' as [-> | Hin']; [congruence | contradiction].
Qed.

Lemma Logger_received_addLog (callback : Logger.LogSubscriber)
    (entry : Logger.LogEntry) (l : Logger.t) :
  NoDup (Logger.subscribers l) ->
  Logger.received callback (Logger.addLog entry l)
  = Logger.received callback l
    ++ if decide (callback ∈ Logger.subscribers l)
       then [Logger.logs (Logger.addLog entry l)]
       else [].
Proof.
  intros Hnodup. unfold Logger.received, Logger.addLog, Logger.notify.
  cbn [Logger.calls Logger.subscribers Logger.logs].
  rewrite filter_app, map_app. f_equal. now apply Logger_calls_to.
Qed.

Lemma Logger_received_addLogs (callback : Logger.LogSubscriber)
    (entries : list Logger.LogEntry) (l : Logger.t) :
  NoDup (Logger.subscribers l) ->
  Logger.received callback (Logger.addLogs entries l)
  = Logger.received callback l
    ++ if decide (callback ∈ Logger.subscribers l)
       then map (fun k => Logger.logs (Logger.addLogs (take (S k) entries) l))
              (seq 0 (length entries))
       else [].
Proof.
  revert l. induction entries as [|entry entries IH]; intros l Hnodup.
  - simpl. destruct (decide _); now rewrite app_nil_r.
  - cbn [Logger.addLogs fold_left].
    change (fold_left (fun l0 e => Logger.addLog e l0) entries (Logger.addLog entry l))
      with (Logger.addLogs entries (Logger.addLog entry l)).
    rewrite IH by exact Hnodup.
    rewrite Logger_received_addLog by exact Hnodup.
    rewrite Logger_addLog_subscribers, <- app_assoc. f_equal.
    destruct (decide (callback ∈ Logger.subscribers l)); [|reflexivity].
    cbn [length seq map app]. f_equal.
    rewrite <- seq_shift, map_map. reflexivity.
Qed.

(** X25. Who the log store tells.  A callback subscribed twice is in the set
    once: [subscribe] calls it at once each time with the present logs, and
    afterwards every log call tells it exactly once, with the logs as they
    are after that call; once unsubscribed it is told nothing more.  The set
    of subscribers never holds a callback twice, and [clear] empties the logs
    and tells every subscriber the empty list. *)
Theorem X25_logger_tells_each_subscriber_once :
  forall (callback : Logger.LogSubscriber) (entries later : list Logger.LogEntry)
         (l : Logger.t),
    NoDup (Logger.subscribers l) ->
    let l1 := Logger.subscribe callback (Logger.subscribe callback l) in
    let l2 := Logger.addLogs entries l1 in
    let l3 := Logger.addLogs later (Logger.unsubscribe callback l2) in
    NoDup (Logger.subscribers l2)
    /\ NoDup (Logger.subscribers l3)
    /\ Logger.received callback l2
       = Logger.received callback l ++ [Logger.logs l; Logger.logs l]
         ++ map (fun k => Logger.logs (Logger.addLogs (take (S k) entries) l1))
              (seq 0 (length entries))
    /\ Logger.received callback l3 = Logger.received callback l2
    /\ Logger.logs (Logger.clear l2) = []
    /\ Logger.received callback (Logger.clear l2)
       = Logger.received callback l2 ++ [[]].
Proof.
  intros callback entries later l Hnodup l1 l2 l3.
  assert (Hsubs1 : Logger.subscribers l1
                   = if decide (callback ∈ Logger.subscribers l)
                     then Logger.subscribers l
                     else Logger.subscribers l ++ [callback]).
  { subst l1. unfold Logger.subscribe. cbn [Logger.subscribers].
    destruct (decide (callback ∈ Logger.subscribers l)) as [Hin | Hout].
    - now destruct (decide (callback ∈ Logger.subscribers l)).
    - destruct (decide (callback ∈ Logger.subscribers l ++ [callback]))
        as [_ | Hn]; [reflexivity|].
      exfalso. apply Hn, elem_of_app. right. now left. }
  assert (Hin1 : callback ∈ Logger.subscribers l1).
  { rewrite Hsubs1. destruct (decide _) as [Hin | _]; [exact Hin|].
    apply elem_of_app. right. now left. }
  assert (Hnodup1 : NoDup (Logger.subscribers l1)).
  { rewrite Hsubs1. destruct (decide _) as [_ | Hout]; [exact Hnodup|].
    apply NoDup_app. split; [exact Hnodup|]. split; [|apply NoDup_singleton].
    intros x Hx Hx'. apply list_elem_of_singleton in Hx'. now subst x. }
  assert (Hsubs2 : Logger.subscribers l2 = Logger.subscribers l1)
    by apply Logger_addLogs_subscribers.
  assert (Hreceived1 : Logger.received callback l1
                       = Logger.received callback l ++ [Logger.logs l; Logger.logs l]).
  { subst l1. unfold Logger.received, Logger.subscribe. cbn [Logger.calls Logger.logs].
    rewrite !filter_app, !map_app, <- app_assoc. f_equal.
    rewrite !filter_cons. cbn [fst].
    destruct (decide (callback = callback)); [reflexivity | congruence]. }
  assert (Hreceived2 : Logger.received callback l2
            = Logger.received callback l ++ [Logger.logs l; Logger.logs l]
              ++ map (fun k => Logger.logs (Logger.addLogs (take (S k) entries) l1))
                   (seq 0 (length entries))).
  { subst l2. rewrite Logger_received_addLogs by exact Hnodup1.
    rewrite Hreceived1, <- app_assoc.
    destruct (decide (callback ∈ Logger.subscribers l1)); [reflexivity|contradiction]. }
  assert (Hnodup3 : NoDup (Logger.subscribers (Logger.unsubscribe callback l2))).
  { unfold Logger.unsubscribe. cbn [Logger.subscribers]. rewrite Hsubs2.
    now apply NoDup_filter. }
  split; [now rewrite Hsubs2|].
  split; [subst l3; now rewrite Logger_addLogs_subscribers|].
  split; [exact Hreceived2|]. split; [|split].
  - subst l3. rewrite Logger_received_addLogs by exact Hnodup3.
    destruct (decide (callback ∈ Logger.subscribers (Logger.unsubscribe callback l2)))
      as [Hin | _].
    + exfalso. unfold Logger.unsubscribe in Hin. cbn [Logger.subscribers] in Hin.
      apply list_elem_of_filter in Hin as [Hne _]. congruence.
    + now rewrite app_nil_r.
  - reflexivity.
  - unfold Logger.clear, Logger.notify, Logger.received.
    cbn [Logger.calls Logger.subscribers].
    rewrite filter_app, map_app. f_equal.
    rewrite Logger_calls_to by (now rewrite Hsubs2).
    rewrite Hsubs2.
    destruct (decide (callback ∈ Logger.subscribers l1)); [reflexivity|contradiction].
Qed.

Lemma X25_logger_tells_each_subscriber_once_witness :
  let entry := {| Logger.id := "1-a"; Logger.timestamp := 1;
                  Logger.level := Logger.info; Logger.message := "started" |} in
  let l1 := Logger.subscribe 7 (Logger.subscribe 7 Logger.new) in
  Logger.received 7 (Logger.addLogs [entry] l1) = [[]; []; [entry]].
Proof.
  intros entry l1.
  refine (proj1 (proj2 (proj2
            (X25_logger_tells_each_subscriber_once 7 [entry] [] Logger.new _)))).
  constructor.
Defined.

(** ** [runLocalTest]: a test hears only what comes after [clearPeaks] *)

Section LocalTestFacts.

Variable Math_log10 : Q -> Q.







End LocalTestFacts.



(** ** [createSession]: the passcode has six digits *)

Lemma pretty_N_char_digit (x : N) : is_digit (pretty_N_char x).
Proof.
  unfold is_digit, pretty_N_char. repeat case_match; vm_compute; lia.
Qed.

Lemma N_div10_range (x lo hi : N) :
  (10 * lo <= x)%N -> (x < 10 * (hi + 1))%N -> (lo <= x `div` 10 <= hi)%N.
Proof.
  intros Hlo Hhi. split.
  - apply N.div_le_lower_bound; lia.
  - apply N.lt_succ_r. rewrite <- N.add_1_r.
    apply N.Div0.div_lt_upper_bound; lia.
Qed.

Lemma pretty_N_six_digits (x : N) :
  (100000 <= x <= 999999)%N ->
  exists d1 d2 d3 d4 d5 d6 : ascii,
    pretty x = String d1 (String d2 (String d3 (String d4 (String d5
                 (String d6 EmptyString)))))
    /\ is_digit d1 /\ is_digit d2 /\ is_digit d3
    /\ is_digit d4 /\ is_digit d5 /\ is_digit d6
    /\ d1 <> "0"%char.
Proof.
  intros Hx. unfold pretty, pretty_N.
  destruct (decide (x = 0)%N) as [-> | _]; [lia|].
  set (x1 := N.div x 10). set (x2 := N.div x1 10). set (x3 := N.div x2 10).
  set (x4 := N.div x3 10). set (x5 := N.div x4 10).
  assert (H1 : (10000 <= x1 <= 99999)%N) by (apply N_div10_range; lia).
  assert (H2 : (1000 <= x2 <= 9999)%N) by (apply N_div10_range; lia).
  assert (H3 : (100 <= x3 <= 999)%N) by (apply N_div10_range; lia).
  assert (H4 : (10 <= x4 <= 99)%N) by (apply N_div10_range; lia).
  assert (H5 : (1 <= x5 <= 9)%N) by (apply N_div10_range; lia).
  assert (H6 : N.div x5 10 = 0%N) by (apply N.div_small; lia).
  rewrite (pretty_N_go_step x) by lia. fold x1.
  rewrite (pretty_N_go_step x1) by lia. fold x2.
  rewrite (pretty_N_go_step x2) by lia. fold x3.
  rewrite (pretty_N_go_step x3) by lia. fold x4.
  rewrite (pretty_N_go_step x4) by lia. fold x5.
  rewrite (pretty_N_go_step x5) by lia.
  rewrite H6, pretty_N_go_0.
  eexists _, _, _, _, _, _. split; [reflexivity|].
  repeat (split; [apply pretty_N_char_digit|]).
  assert (Hmod : N.modulo x5 10 = x5) by (apply N.mod_small; lia).
  rewrite Hmod. intros Hzero.
  apply (pretty_N_char_inj x5 0) in Hzero; lia.
Qed.

(** X27. The passcode [createSession] makes.  With a draw of [Math.random],
    which is a double in [0, 1), it is the text of a whole number from 100000
    to 999999, also after the rounding of the product and of the sum:
    exactly six characters, all of them decimal digits, the first one not
    '0'; and it uses up one draw. *)
Theorem X27_passcode_has_six_digits :
  forall r : Random,
    (0 <= draws r (next_draw r) < 1)%Q ->
    (binary64 (draws r (next_draw r)) == draws r (next_draw r))%Q ->
    let passcode := fst (createSession_passcode r) in
    String.length passcode = 6%nat
    /\ (exists n : Z, (100000 <= n <= 999999)%Z /\ passcode = pretty n)
    /\ (forall c, occurs c passcode -> is_digit c)
    /\ (exists c rest, passcode = String c rest /\ c <> "0"%char)
    /\ next_draw (snd (createSession_passcode r)) = S (next_draw r).
Proof.
  intros r [Hlo Hhi] Hdouble passcode.
  set (x := draws r (next_draw r)) in *.
  set (n := Qfloor (binary64 (100000 + binary64 (x * 900000)))).
  assert (Hpass : passcode = pretty n) by reflexivity.
  assert (Hn : (100000 <= n <= 999999)%Z).
  { apply passcode_range; [exact Hlo|]. now apply binary64_below_one. }
  assert (Hdigits : exists d1 d2 d3 d4 d5 d6 : ascii,
            passcode = String d1 (String d2 (String d3 (String d4 (String d5
                         (String d6 EmptyString)))))
            /\ is_digit d1 /\ is_digit d2 /\ is_digit d3
            /\ is_digit d4 /\ is_digit d5 /\ is_digit d6
            /\ d1 <> "0"%char).
  { rewrite Hpass. destruct n as [|p|p]; try lia.
    apply (pretty_N_six_digits (N.pos p)). lia. }
  destruct Hdigits as (d1 & d2 & d3 & d4 & d5 & d6 & Htext & D1 & D2 & D3 & D4
                       & D5 & D6 & Hlead).
  split; [now rewrite Htext|]. split; [now exists n|]. split; [|split].
  - rewrite Htext. simpl.
    intros c [<- | [<- | [<- | [<- | [<- | [<- | []]]]]]]; assumption.
  - exists d1. eexists. split; [exact Htext | exact Hlead].
  - reflexivity.
Qed.

Lemma X27_passcode_has_six_digits_witness :
  let r := {| draws := fun _ => binary64 0.7; next_draw := 0 |} in
  String.length (fst (createSession_passcode r)) = 6%nat
  /\ fst (createSession_passcode r) = "730000"%string.
Proof.
  intros r. split; [|vm_compute; reflexivity].
  refine (proj1 (X27_passcode_has_six_digits r _ _)).
  - split; vm_compute; [discriminate | reflexivity].
  - vm_compute. reflexivity.
Defined.

(** ** [calculateSummary]: the groups of results *)

Lemma ConfigMap_get_set (key key' : string) (v : list AutoTest.TestResult)
    (m : AutoTest.ConfigMap) :
  AutoTest.ConfigMap_get key (AutoTest.ConfigMap_set key' v m)
  = if String.eqb key' key then Some v else AutoTest.ConfigMap_get key m.
Proof.
  induction m as [|[k v0] m IH]; simpl; [reflexivity|].
  destruct (String.eqb k key') eqn:Hk; simpl.
  - apply String.eqb_eq in Hk. subst k. now destruct (String.eqb key' key).
  - rewrite IH. destruct (String.eqb k key) eqn:Hkk; [|reflexivity].
    destruct (String.eqb key' key) eqn:Hk'; [|reflexivity].
    apply String.eqb_eq in Hkk, Hk'. subst. now rewrite String.eqb_refl in Hk.
Qed.

Lemma ConfigMap_get_keys (key : string) (m : AutoTest.ConfigMap) :
  AutoTest.ConfigMap_get key m = None <-> key ∉ map fst m.
Proof.
  induction m as [|[k v] m IH]; simpl.
  - split; [intros _ Hin; inversion Hin | reflexivity].
  - rewrite not_elem_of_cons. destruct (String.eqb k key) eqn:Hk.
    + apply String.eqb_eq in Hk. subst k. split; [discriminate | tauto].
    + apply String.eqb_neq in Hk. rewrite IH. split; [split; auto | tauto].
Qed.

Lemma ConfigMap_set_keys (key : string) (v : list AutoTest.TestResult)
    (m : AutoTest.ConfigMap) :
  map fst (AutoTest.ConfigMap_set key v m)
  = match AutoTest.ConfigMap_get key m with
    | Some _ => map fst m
    | None => map fst m ++ [key]
    end.
Proof.
  induction m as [|[k v0] m IH]; simpl; [reflexivity|].
  destruct (String.eqb k key); simpl; [reflexivity|].
  rewrite IH. now destruct (AutoTest.ConfigMap_get key m).
Qed.

Lemma ConfigMap_get_elem_of (k : string) (g : list AutoTest.TestResult)
    (m : AutoTest.ConfigMap) :
  NoDup (map fst m) -> ((k, g) ∈ m <-> AutoTest.ConfigMap_get k m = Some g).
Proof.
  induction m as [|[k0 g0] m IH]; simpl; intros Hnodup.
  - split; [intros Hin; inversion Hin | discriminate].
  - apply NoDup_cons in Hnodup as [Hfresh Hnodup].
    rewrite elem_of_cons, (IH Hnodup).
    destruct (String.eqb k0 k) eqn:Hk.
    + apply String.eqb_eq in Hk. subst k0. split.
      * intros [Heq | Hget]; [congruence|].
        exfalso. apply Hfresh.
        destruct (decide (k ∈ map fst m)) as [Hin | Hout]; [exact Hin|].
        apply ConfigMap_get_keys in Hout. congruence.
      * intros [= ->]. now left.
    + apply String.eqb_neq in Hk. split.
      * intros [Heq | Hget]; [congruence | exact Hget].
      * auto.
Qed.

Lemma ConfigMap_set_concat (key : string) (x : AutoTest.TestResult)
    (m : AutoTest.ConfigMap) :
  concat (map snd (AutoTest.ConfigMap_set key
                     (default [] (AutoTest.ConfigMap_get key m) ++ [x]) m))
  ≡ₚ concat (map snd m) ++ [x].
Proof.
  induction m as [|[k v0] m IH]; simpl; [reflexivity|].
  destruct (String.eqb k key); simpl.
  - rewrite <- !app_assoc. apply Permutation_app_head, Permutation_app_comm.
  - rewrite IH. now rewrite app_assoc.
Qed.

Lemma group_result_get (k : string) (m : AutoTest.ConfigMap)
    (r : AutoTest.TestResult) :
  AutoTest.ConfigMap_get k (AutoTest.group_result m r)
  = if String.eqb (AutoTest.configLabel r) k
    then Some (default [] (AutoTest.ConfigMap_get k m) ++ [r])
    else AutoTest.ConfigMap_get k m.
Proof.
  unfold AutoTest.group_result. rewrite ConfigMap_get_set.
  destruct (String.eqb (AutoTest.configLabel r) k) eqn:Hk; [|reflexivity].
  apply String.eqb_eq in Hk. subst k.
  now destruct (AutoTest.ConfigMap_get (AutoTest.configLabel r) m).
Qed.

Lemma group_result_fold (results seen : list AutoTest.TestResult)
    (m : AutoTest.ConfigMap) :
  NoDup (map fst m) ->
  (forall k, AutoTest.ConfigMap_get k m
             = match with_label k seen with [] => None | g => Some g end) ->
  concat (map snd m) ≡ₚ seen ->
  let m' := fold_left AutoTest.group_result results m in
  NoDup (map fst m')
  /\ (forall k, AutoTest.ConfigMap_get k m'
                = match with_label k (seen ++ results) with
                  | [] => None
                  | g => Some g
                  end)
  /\ concat (map snd m') ≡ₚ seen ++ results.
Proof.
  revert seen m. induction results as [|r results IH]; intros seen m Hkeys Hget Hperm.
  - simpl. rewrite app_nil_r. auto.
  - cbn [fold_left]. replace (seen ++ r :: results)
      with ((seen ++ [r]) ++ results) by now rewrite <- app_assoc.
    apply IH.
    + unfold AutoTest.group_result. rewrite ConfigMap_set_keys.
      destruct (AutoTest.ConfigMap_get (AutoTest.configLabel r) m) eqn:Hr;
        [exact Hkeys|].
      apply NoDup_app. split; [exact Hkeys|]. split; [|apply NoDup_singleton].
      intros x Hx Hx'. apply list_elem_of_singleton in Hx'. subst x.
      now apply ConfigMap_get_keys in Hr.
    + intros k. rewrite group_result_get, Hget.
      unfold with_label. rewrite List.filter_app. simpl.
      destruct (String.eqb (AutoTest.configLabel r) k).
      * now destruct (List.filter _ seen).
      * now rewrite app_nil_r.
    + unfold AutoTest.group_result.
      change (match AutoTest.ConfigMap_get (AutoTest.configLabel r) m with
              | Some tests => tests
              | None => []
              end) with (default [] (AutoTest.ConfigMap_get (AutoTest.configLabel r) m)).
      now rewrite ConfigMap_set_concat, Hperm.
Qed.

Lemma group_results (results : list AutoTest.TestResult) :
  let configMap := fold_left AutoTest.group_result results [] in
  NoDup (map fst configMap)
  /\ concat (map snd configMap) ≡ₚ results
  /\ forall label tests, (label, tests) ∈ configMap ->
       tests = with_label label results /\ tests <> [].
Proof.
  destruct (group_result_fold results [] []) as (Hkeys & Hget & Hperm).
  { constructor. }
  { reflexivity. }
  { reflexivity. }
  cbv zeta in *. simpl in Hget, Hperm.
  split; [exact Hkeys|]. split; [exact Hperm|].
  intros label tests Hin. apply ConfigMap_get_elem_of in Hin; [|exact Hkeys].
  rewrite Hget in Hin.
  destruct (with_label label results); [discriminate|].
  injection Hin as <-. split; [reflexivity | discriminate].
Qed.

(** ** [calculateSummary]: the summary of one group *)

Lemma count_score_fold (scores : list nat) (d : gmap nat nat) (s : nat) :
  default 0%nat (fold_left AutoTest.count_score scores d !! s)
  = (default 0%nat (d !! s) + length (List.filter (Nat.eqb s) scores))%nat
  /\ (is_Some (d !! s) -> is_Some (fold_left AutoTest.count_score scores d !! s)).
Proof.
  revert d. induction scores as [|x scores IH]; intros d; simpl.
  - split; [lia | auto].
  - destruct (IH (AutoTest.count_score d x)) as [Hcount Hdom].
    unfold AutoTest.count_score in Hcount, Hdom |- *.
    destruct (Nat.eqb_spec s x) as [-> | Hne].
    + rewrite lookup_insert_eq in Hcount, Hdom. simpl in *.
      split; [lia | intros _; apply Hdom; eauto].
    + rewrite lookup_insert_ne in Hcount, Hdom by congruence.
      split; [exact Hcount | exact Hdom].
Qed.

Lemma empty_distribution_lookup (s : nat) :
  default 0%nat (AutoTest.empty_distribution !! s) = 0%nat
  /\ ((s <= AUDIO_CONFIG.NUM_PULSES)%nat -> is_Some (AutoTest.empty_distribution !! s)).
Proof.
  unfold AutoTest.empty_distribution, AUDIO_CONFIG.NUM_PULSES. split.
  - destruct (list_to_map _ !! s) as [n|] eqn:Hs; [|reflexivity].
    apply elem_of_list_to_map_2, list_elem_of_fmap in Hs as (i & [= _ ->] & _).
    reflexivity.
  - intros Hs. do 7 (destruct s as [|s]; [vm_compute; eauto|]). lia.
Qed.

Lemma filter_length_le {A : Type} (f : A -> bool) (l : list A) :
  (length (List.filter f l) <= length l)%nat.
Proof.
  induction l as [|x l IH]; simpl; [lia|]. destruct (f x); simpl; lia.
Qed.

Lemma filter_map_length {A B : Type} (f : A -> B) (test : B -> bool) (l : list A) :
  length (List.filter test (map f l)) = length (List.filter (fun x => test (f x)) l).
Proof.
  induction l as [|x l IH]; simpl; [reflexivity|].
  destruct (test (f x)); simpl; now rewrite IH.
Qed.

Lemma summarize_spec (label : string) (tests : list AutoTest.TestResult) :
  tests <> [] ->
  exists c, AutoTest.summarize label tests = Some c
            /\ AutoTest.ConfigSummary.label c = label
            /\ summary_of tests c.
Proof.
  intros Hne. destruct tests as [|first others]; [congruence|].
  eexists. split; [unfold AutoTest.summarize; reflexivity|].
  split; [reflexivity|].
  set (tests := first :: others) in *.
  assert (Hpos : (1 <= length tests)%nat) by (simpl; lia).
  pose proof (filter_length_le AutoTest.passed tests) as Hle.
  set (n := length tests) in *.
  set (p := length (List.filter AutoTest.passed tests)) in *.
  assert (Hn : (1 <= inject_Z (Z.of_nat n))%Q).
  { change 1%Q with (inject_Z (Z.of_nat 1)). now apply inject_nat_le. }
  assert (Hp : (0 <= inject_Z (Z.of_nat p) <= inject_Z (Z.of_nat n))%Q).
  { split; [change 0%Q with (inject_Z (Z.of_nat 0)); apply inject_nat_le; lia|].
    now apply inject_nat_le. }
  split; cbn [AutoTest.ConfigSummary.totalTests AutoTest.ConfigSummary.passCount
              AutoTest.ConfigSummary.passRate AutoTest.ConfigSummary.failedPatterns
              AutoTest.ConfigSummary.scoreDistribution].
  - reflexivity.
  - exact Hpos.
  - reflexivity.
  - exact Hle.
  - fold n p. field. lra.
  - fold n p. set (N := inject_Z (Z.of_nat n)) in *.
    set (P := inject_Z (Z.of_nat p)) in *.
    assert (Hq : (0 <= P / N <= 1)%Q).
    { split.
      - apply Qle_shift_div_l; lra.
      - apply Qle_shift_div_r; lra. }
    clearbody N P. set (q := (P / N)%Q) in *. clearbody q. lra.
  - rewrite length_take. lia.
  - intros s.
    destruct (count_score_fold (map AutoTest.matchScore tests)
                AutoTest.empty_distribution s) as [-> _].
    destruct (empty_distribution_lookup s) as [-> _].
    apply (filter_map_length AutoTest.matchScore (Nat.eqb s)).
  - intros s Hs.
    apply (count_score_fold (map AutoTest.matchScore tests)
             AutoTest.empty_distribution s).
    apply empty_distribution_lookup. unfold AUDIO_CONFIG.NUM_PULSES. exact Hs.
Qed.

Lemma summarize_all_spec (configMap : AutoTest.ConfigMap) :
  Forall (fun group => snd group <> []) configMap ->
  exists summaries,
    AutoTest.summarize_all configMap = Some summaries
    /\ Forall2 (fun c group => AutoTest.ConfigSummary.label c = fst group
                               /\ summary_of (snd group) c)
         summaries configMap.
Proof.
  induction 1 as [|[label tests] rest Hne _ (summaries & Hall & Hrel)]; simpl.
  - exists []. split; [reflexivity | constructor].
  - destruct (summarize_spec label tests Hne) as (c & -> & Hlabel & Hc).
    rewrite Hall. exists (c :: summaries). split; [reflexivity|].
    constructor; [split; [exact Hlabel | exact Hc] | exact Hrel].
Qed.

(** ** [calculateSummary]: the whole summary *)

Lemma passRate_sorted (summaries : list AutoTest.ConfigSummary.t) :
  StronglySorted
    (fun a b => (AutoTest.ConfigSummary.passRate b
                 <= AutoTest.ConfigSummary.passRate a)%Q)
    (js_sort (fun a b => (AutoTest.ConfigSummary.passRate b
                          - AutoTest.ConfigSummary.passRate a)%Q) summaries).
Proof.
  pose proof (js_sort_sorted
                (fun a b => (AutoTest.ConfigSummary.passRate b
                             - AutoTest.ConfigSummary.passRate a)%Q)
                (fun c => (- AutoTest.ConfigSummary.passRate c)%Q)) as Hsorted.
  specialize (Hsorted ltac:(intros a b; cbv beta; split; intros H; lra) summaries).
  induction Hsorted as [|c l _ IH Hall]; constructor; [exact IH|].
  eapply Forall_impl; [exact Hall|]. intros b Hb. unfold key_le in Hb. lra.
Qed.

Lemma summaries_of_groups (summaries : list AutoTest.ConfigSummary.t)
    (configMap : AutoTest.ConfigMap) :
  Forall2 (fun c group => AutoTest.ConfigSummary.label c = fst group
                          /\ summary_of (snd group) c) summaries configMap ->
  map AutoTest.ConfigSummary.label summaries = map fst configMap
  /\ sum_list (map AutoTest.ConfigSummary.totalTests summaries)
     = length (concat (map snd configMap))
  /\ (forall c, c ∈ summaries ->
        exists tests, (AutoTest.ConfigSummary.label c, tests) ∈ configMap
                      /\ summary_of tests c).
Proof.
  induction 1 as [|c [label tests] summaries configMap [Hlabel Hc] _ (IH1 & IH2 & IH3)].
  - split; [reflexivity|]. split; [reflexivity|]. intros c Hc. inversion Hc.
  - simpl in Hlabel, Hc. split; [|split].
    + simpl. now rewrite Hlabel, IH1.
    + simpl. rewrite length_app, IH2. now rewrite (summary_total _ _ Hc).
    + intros c' Hin. apply elem_of_cons in Hin as [-> | Hin].
      * exists tests. rewrite Hlabel. split; [now left | exact Hc].
      * destruct (IH3 c' Hin) as (tests' & Hin' & Hc').
        exists tests'. split; [now right | exact Hc'].
Qed.

(** X28. [calculateSummary] never reads [tests[0]] of an empty group: it
    returns a summary for every list of results.  The summary counts all the
    results; it has one entry per label that occurs, and no other.  The entry
    of a label counts the results with that label, at least one, and those of
    them that passed; its pass rate is [100 * passCount / totalTests], between
    0 and 100; its score distribution has the keys 0 to 6 and gives, for
    every score, how many of its results have it; it keeps at most three
    failed patterns.  The entries' totals add up to the number of results.
    The entries are in order of pass rate, the highest first; [bestConfig] is
    the label of the first and [worstConfig] of the last, and they are null
    exactly when there is no result. *)
Theorem X28_calculateSummary_counts_every_result :
  forall results : list AutoTest.TestResult,
    exists summary : AutoTest.TestSummary.t,
      AutoTest.calculateSummary results = Some summary
      /\ AutoTest.TestSummary.totalTests summary = length results
      /\ let entries := AutoTest.TestSummary.configSummaries summary in
         NoDup (map AutoTest.ConfigSummary.label entries)
         /\ (forall r, r ∈ results ->
               AutoTest.configLabel r ∈ map AutoTest.ConfigSummary.label entries)
         /\ Forall (fun c =>
                      summary_of (with_label (AutoTest.ConfigSummary.label c) results) c)
              entries
         /\ sum_list (map AutoTest.ConfigSummary.totalTests entries) = length results
         /\ StronglySorted
              (fun a b => (AutoTest.ConfigSummary.passRate b
                           <= AutoTest.ConfigSummary.passRate a)%Q) entries
         /\ AutoTest.TestSummary.bestConfig summary
            = AutoTest.ConfigSummary.label <$> head entries
         /\ AutoTest.TestSummary.worstConfig summary
            = AutoTest.ConfigSummary.label <$> last entries
         /\ (AutoTest.TestSummary.bestConfig summary = None <-> results = []).
Proof.
  intros results.
  destruct (group_results results) as (Hkeys & Hperm & Hgroups).
  set (configMap := fold_left AutoTest.group_result results []) in *.
  destruct (summarize_all_spec configMap) as (summaries & Hall & Hrel).
  { apply Forall_forall. intros [label tests] Hin. now apply (Hgroups label tests). }
  destruct (summaries_of_groups summaries configMap Hrel) as (Hlabels & Hsum & Hof).
  unfold AutoTest.calculateSummary. fold configMap. rewrite Hall.
  set (entries := js_sort _ summaries).
  assert (Hentries : entries ≡ₚ summaries) by apply js_sort_Permutation.
  eexists. split; [reflexivity|].
  cbn [AutoTest.TestSummary.totalTests AutoTest.TestSummary.configSummaries
       AutoTest.TestSummary.bestConfig AutoTest.TestSummary.worstConfig].
  split; [reflexivity|]. fold entries.
  split; [now rewrite Hentries, Hlabels|]. split; [|split; [|split]].
  - intros r Hr. rewrite Hentries, Hlabels.
    rewrite <- Hperm in Hr. apply list_elem_of_In, in_concat in Hr as (tests & Hin & Hr).
    apply in_map_iff in Hin as ([label tests'] & Heq & Hin). simpl in Heq. subst tests'.
    apply list_elem_of_In in Hin. destruct (Hgroups label tests Hin) as [Htests _].
    rewrite Htests in Hr. unfold with_label in Hr.
    apply filter_In in Hr as [_ Hlabel]. apply String.eqb_eq in Hlabel.
    rewrite Hlabel. apply list_elem_of_fmap. exists (label, tests). auto.
  - apply Forall_forall. intros c Hc. rewrite Hentries in Hc.
    destruct (Hof c Hc) as (tests & Hin & Hsummary).
    destruct (Hgroups _ _ Hin) as [<- _]. exact Hsummary.
  - rewrite Hentries, Hsum. now rewrite Hperm.
  - split; [apply passRate_sorted|]. split; [|split].
    + now destruct entries.
    + now destruct (last entries).
    + assert (Hempty : entries = [] <-> results = []).
      { split.
        - intros Hnil. rewrite Hnil in Hentries.
          apply Permutation_nil_l in Hentries. subst summaries.
          apply Forall2_nil_inv_l in Hrel.
          rewrite Hrel in Hperm. simpl in Hperm.
          now apply Permutation_nil_l in Hperm.
        - intros ->. subst entries. simpl in Hall.
          injection Hall as <-. reflexivity. }
      rewrite <- Hempty. destruct entries; split; congruence.
Qed.

Lemma X28_calculateSummary_counts_every_result_witness :
  let pass := {| AutoTest.configLabel := "75%"; AutoTest.volume := 0.75;
                 AutoTest.passed := true; AutoTest.matchScore := 6;
                 AutoTest.emittedPattern := [PH; PL; PH; PH; PL; PL];
                 AutoTest.detectedPattern := [PH; PL; PH; PH; PL; PL];
                 AutoTest.timestamp := 1000; AutoTest.diagnostics := None |} in
  exists summary,
    AutoTest.calculateSummary [pass] = Some summary
    /\ AutoTest.configLabel pass
       ∈ map AutoTest.ConfigSummary.label (AutoTest.TestSummary.configSummaries summary).
Proof.
  intros pass.
  destruct (X28_calculateSummary_counts_every_result [pass])
    as (summary & Hsummary & _ & _ & Hlabels & _).
  exists summary. split; [exact Hsummary|]. apply Hlabels. now left.
Defined.

(** ** [calculateSummary]: the overall pass rate *)

Lemma filter_length_Permutation {A : Type} (f : A -> bool) (l1 l2 : list A) :
  l1 ≡ₚ l2 -> length (List.filter f l1) = length (List.filter f l2).
Proof.
  induction 1 as [|x l1 l2 _ IH|x y l|l1 l2 l3 _ IH1 _ IH2]; simpl.
  - reflexivity.
  - destruct (f x); simpl; now rewrite IH.
  - destruct (f x), (f y); reflexivity.
  - now rewrite IH1.
Qed.

Lemma filter_length_concat {A : Type} (f : A -> bool) (ls : list (list A)) :
  length (List.filter f (concat ls))
  = sum_list (map (fun l => length (List.filter f l)) ls).
Proof.
  induction ls as [|l ls IH]; simpl; [reflexivity|].
  now rewrite List.filter_app, length_app, IH.
Qed.

Lemma summaries_passCount (summaries : list AutoTest.ConfigSummary.t)
    (configMap : AutoTest.ConfigMap) :
  Forall2 (fun c group => AutoTest.ConfigSummary.label c = fst group
                          /\ summary_of (snd group) c) summaries configMap ->
  sum_list (map AutoTest.ConfigSummary.passCount summaries)
  = length (List.filter AutoTest.passed (concat (map snd configMap)))
  /\ Forall (fun c => exists tests, summary_of tests c) summaries.
Proof.
  induction 1 as [|c [label tests] summaries configMap [_ Hc] _ [IH1 IH2]]; simpl.
  - split; [reflexivity | constructor].
  - split.
    + rewrite List.filter_app, length_app, IH1. simpl in Hc.
      now rewrite (summary_pass _ _ Hc).
    + constructor; [now exists tests | exact IH2].
Qed.

Lemma weighted_rates (entries : list AutoTest.ConfigSummary.t) (lower upper : Q) :
  Forall (fun c => (exists tests, summary_of tests c)
                   /\ (lower <= AutoTest.ConfigSummary.passRate c <= upper)%Q)
    entries ->
  let passes := inject_Z (Z.of_nat (sum_list (map AutoTest.ConfigSummary.passCount
                                                entries))) in
  let total := inject_Z (Z.of_nat (sum_list (map AutoTest.ConfigSummary.totalTests
                                               entries))) in
  (lower * total <= 100 * passes <= upper * total)%Q.
Proof.
  induction 1 as [|c entries [[tests Hc] [Hlo Hhi]] _ IH]; cbv zeta in *.
  - change (lower * 0 <= 100 * 0 <= upper * 0)%Q.
    rewrite !Qmult_0_r. split; apply Qle_refl.
  - change (sum_list (map AutoTest.ConfigSummary.passCount (c :: entries)))
      with (AutoTest.ConfigSummary.passCount c
            + sum_list (map AutoTest.ConfigSummary.passCount entries))%nat.
    change (sum_list (map AutoTest.ConfigSummary.totalTests (c :: entries)))
      with (AutoTest.ConfigSummary.totalTests c
            + sum_list (map AutoTest.ConfigSummary.totalTests entries))%nat.
    rewrite !Nat2Z.inj_add, !inject_Z_plus.
    pose proof (summary_rate _ _ Hc) as Hrate.
    set (n := inject_Z (Z.of_nat (AutoTest.ConfigSummary.totalTests c))) in *.
    set (p := inject_Z (Z.of_nat (AutoTest.ConfigSummary.passCount c))) in *.
    set (N := inject_Z (Z.of_nat (sum_list (map AutoTest.ConfigSummary.totalTests
                                              entries)))) in *.
    set (P := inject_Z (Z.of_nat (sum_list (map AutoTest.ConfigSummary.passCount
                                              entries)))) in *.
    assert (Hn : (0 <= n)%Q).
    { subst n. change 0%Q with (inject_Z (Z.of_nat 0)). apply inject_nat_le. lia. }
    set (rate := AutoTest.ConfigSummary.passRate c) in *.
    assert (Hlow : (lower * n <= rate * n)%Q) by (apply Qmult_le_compat_r; assumption).
    assert (Hupp : (rate * n <= upper * n)%Q) by (apply Qmult_le_compat_r; assumption).
    destruct IH as [IHlo IHhi].
    clearbody n p N P rate. clear - Hrate Hlow Hupp IHlo IHhi.
    split; nra.
Qed.

(** X29. The overall pass rate of [calculateSummary] is
    [100 * passed / results], between 0 and 100, and 0 when there is no
    result; being the mean of the entries' pass rates weighted by their
    totals, it lies between the pass rate of the last entry, [worstConfig],
    and that of the first, [bestConfig]. *)
Theorem X29_overall_pass_rate_between_worst_and_best :
  forall (results : list AutoTest.TestResult) (summary : AutoTest.TestSummary.t),
    AutoTest.calculateSummary results = Some summary ->
    let rate := AutoTest.TestSummary.totalPassRate summary in
    let entries := AutoTest.TestSummary.configSummaries summary in
    (rate * inject_Z (Z.of_nat (length results))
     == 100 * inject_Z (Z.of_nat (length (List.filter AutoTest.passed results))))%Q
    /\ (0 <= rate <= 100)%Q
    /\ (results = [] -> rate = 0%Q)
    /\ (forall best worst,
          head entries = Some best -> last entries = Some worst ->
          (AutoTest.ConfigSummary.passRate worst <= rate
           <= AutoTest.ConfigSummary.passRate best)%Q).
Proof.
  intros results summary Hsummary rate entries.
  destruct (group_results results) as (Hkeys & Hperm & Hgroups).
  set (configMap := fold_left AutoTest.group_result results []) in *.
  destruct (summarize_all_spec configMap) as (summaries & Hall & Hrel).
  { apply Forall_forall. intros [label tests] Hin. now apply (Hgroups label tests). }
  destruct (summaries_of_groups summaries configMap Hrel) as (_ & Hsum & _).
  destruct (summaries_passCount summaries configMap Hrel) as (Hpasses & Hof).
  unfold AutoTest.calculateSummary in Hsummary. fold configMap in Hsummary.
  rewrite Hall in Hsummary. injection Hsummary as <-.
  subst rate entries.
  cbn [AutoTest.TestSummary.totalPassRate AutoTest.TestSummary.configSummaries].
  set (entries := js_sort _ summaries).
  assert (Hentries : entries ≡ₚ summaries) by apply js_sort_Permutation.
  set (n := length results). set (p := length (List.filter AutoTest.passed results)).
  assert (Hp : (p <= n)%nat) by apply filter_length_le.
  assert (Hsum' : sum_list (map AutoTest.ConfigSummary.totalTests entries) = n).
  { rewrite Hentries, Hsum. now rewrite Hperm. }
  assert (Hpasses' : sum_list (map AutoTest.ConfigSummary.passCount entries) = p).
  { rewrite Hentries, Hpasses. now apply filter_length_Permutation. }
  assert (HP : (0 <= inject_Z (Z.of_nat p) <= inject_Z (Z.of_nat n))%Q).
  { split; [change 0%Q with (inject_Z (Z.of_nat 0)); apply inject_nat_le; lia|].
    now apply inject_nat_le. }
  destruct (Nat.ltb_spec 0 n) as [Hpos | Hzero].
  - assert (HN : (1 <= inject_Z (Z.of_nat n))%Q).
    { change 1%Q with (inject_Z (Z.of_nat 1)). now apply inject_nat_le. }
    set (N := inject_Z (Z.of_nat n)) in *. set (P := inject_Z (Z.of_nat p)) in *.
    assert (Hrate : (P / N * 100 * N == 100 * P)%Q) by (field; lra).
    assert (Hq : (0 <= P / N <= 1)%Q).
    { split; [apply Qle_shift_div_l | apply Qle_shift_div_r]; lra. }
    split; [exact Hrate|]. split; [|split].
    + clearbody N P. set (q := (P / N)%Q) in *. clearbody q. lra.
    + intros Hnil. exfalso. unfold n in Hpos. rewrite Hnil in Hpos.
      simpl in Hpos. lia.
    + intros best worst Hbest Hworst.
      pose proof (passRate_sorted summaries) as Hsorted. fold entries in Hsorted.
      assert (Hbounds : Forall (fun c =>
                (exists tests, summary_of tests c)
                /\ (AutoTest.ConfigSummary.passRate worst
                    <= AutoTest.ConfigSummary.passRate c
                    <= AutoTest.ConfigSummary.passRate best)%Q) entries).
      { apply Forall_forall. intros c Hc. split.
        - rewrite Hentries in Hc. revert c Hc. now apply Forall_forall.
        - split.
          + rewrite last_lookup in Hworst.
            apply list_elem_of_lookup in Hc as [i Hi].
            destruct (decide (i = pred (length entries))) as [-> | Hne].
            * rewrite Hworst in Hi. injection Hi as ->. apply Qle_refl.
            * pose proof (lookup_lt_Some _ _ _ Hi) as Hlt.
              rewrite <- (take_drop_middle entries i c Hi) in Hsorted.
              apply StronglySorted_app_1_r, StronglySorted_inv in Hsorted
                as [_ Hafter].
              rewrite Forall_forall in Hafter. apply Hafter.
              apply list_elem_of_lookup. exists (pred (length entries) - S i)%nat.
              rewrite lookup_drop, <- Hworst. f_equal. lia.
          + destruct entries as [|first rest]; [inversion Hc|].
            simpl in Hbest. injection Hbest as ->.
            apply elem_of_cons in Hc as [-> | Hc]; [apply Qle_refl|].
            apply StronglySorted_inv in Hsorted as [_ Hall'].
            rewrite Forall_forall in Hall'. now apply Hall'. }
      pose proof (weighted_rates entries _ _ Hbounds) as Hweighted.
      cbv zeta in Hweighted. rewrite Hsum', Hpasses' in Hweighted.
      fold N P in Hweighted.
      set (lo := AutoTest.ConfigSummary.passRate worst) in *.
      set (hi := AutoTest.ConfigSummary.passRate best) in *.
      destruct Hweighted as [Hlo Hhi].
      split.
      * apply Qle_shift_div_l in Hlo; [|lra].
        assert (E : (P / N * 100 == 100 * P / N)%Q) by (field; lra).
        now rewrite E.
      * apply Qle_shift_div_r in Hhi; [|lra].
        assert (E : (P / N * 100 == 100 * P / N)%Q) by (field; lra).
        now rewrite E.
  - assert (Hn0 : n = 0%nat) by lia.
    assert (Hp0 : p = 0%nat) by lia.
    rewrite Hn0, Hp0. split; [reflexivity|]. split; [split; discriminate|].
    split; [reflexivity|].
    intros best worst Hbest _. exfalso.
    assert (Hnil : results = []) by (destruct results; [reflexivity | simpl in Hn0; subst n; discriminate]).
    subst results. simpl in Hall. injection Hall as <-. discriminate.
Qed.

Lemma X29_overall_pass_rate_between_worst_and_best_witness :
  let pass := {| AutoTest.configLabel := "75%"; AutoTest.volume := 0.75;
                 AutoTest.passed := true; AutoTest.matchScore := 6;
                 AutoTest.emittedPattern := [PH; PL; PH; PH; PL; PL];
                 AutoTest.detectedPattern := [PH; PL; PH; PH; PL; PL];
                 AutoTest.timestamp := 1000; AutoTest.diagnostics := None |} in
  exists summary,
    AutoTest.calculateSummary [pass] = Some summary
    /\ (0 <= AutoTest.TestSummary.totalPassRate summary <= 100)%Q.
Proof.
  intros pass. eexists. split; [reflexivity|].
  refine (proj1 (proj2 (X29_overall_pass_rate_between_worst_and_best [pass] _ _))).
  reflexivity.
Defined.

(** ** [toggleVolume]: the selection stays in descending order *)

Lemma filter_StronglySorted {A : Type} (R : A -> A -> Prop) (f : A -> bool)
    (l : list A) :
  StronglySorted R l -> StronglySorted R (List.filter f l).
Proof.
  induction 1 as [|x l _ IH Hall]; simpl; [constructor|].
  destruct (f x); [|exact IH]. constructor; [exact IH|].
  apply Forall_forall. intros y Hy. apply list_elem_of_In, filter_In in Hy as [Hy _].
  rewrite Forall_forall in Hall. now apply Hall, list_elem_of_In.
Qed.

Lemma insert_descending (x : Q) (l : list Q) :
  StronglySorted (fun a b => (b < a)%Q) l ->
  Forall (fun y => ~ (y == x)%Q) l ->
  StronglySorted (fun a b => (b < a)%Q) (js_sort_insert (fun a b => (b - a)%Q) x l).
Proof.
  induction 1 as [|y l Hsorted IH Hall]; intros Hfresh; simpl.
  - repeat constructor.
  - apply Forall_cons in Hfresh as [Hy Hfresh].
    destruct (Qle_bool (y - x) 0) eqn:Hcmp.
    + apply Qle_bool_iff in Hcmp.
      assert (Hlt : (y < x)%Q).
      { destruct (Qlt_le_dec y x) as [Hlt | Hge]; [exact Hlt|].
        exfalso. apply Hy. apply Qle_antisym; lra. }
      constructor; [now constructor|].
      constructor; [exact Hlt|].
      eapply Forall_impl; [exact Hall|]. intros z Hz. cbv beta in Hz. lra.
    + assert (Hlt : (x < y)%Q).
      { apply Qnot_le_lt. intros Hle.
        assert (Qle_bool (y - x) 0 = true) by (apply Qle_bool_iff; lra).
        congruence. }
      constructor; [now apply IH|].
      rewrite js_sort_insert_Permutation. constructor; [exact Hlt | exact Hall].
Qed.

Lemma toggle_add_descending (volume : Q) (prev : list Q) :
  StronglySorted (fun a b => (b < a)%Q) prev ->
  Forall (fun y => ~ (y == volume)%Q) prev ->
  StronglySorted (fun a b => (b < a)%Q)
    (js_sort (fun a b => (b - a)%Q) (prev ++ [volume])).
Proof.
  induction 1 as [|y prev Hsorted IH Hall]; intros Hfresh; simpl.
  - repeat constructor.
  - apply Forall_cons in Hfresh as [Hy Hfresh].
    apply insert_descending; [now apply IH|].
    rewrite js_sort_Permutation. apply Forall_app. split.
    + eapply Forall_impl; [exact Hall|]. intros z Hz Heq. cbv beta in Hz.
      rewrite Heq in Hz. now apply Qlt_irrefl in Hz.
    + constructor; [|constructor]. intros Heq. apply Hy. now symmetry.
Qed.

Lemma existsb_Qeq (volume : Q) (prev : list Q) :
  existsb (Qeq_bool volume) prev = true <-> exists y, y ∈ prev /\ (y == volume)%Q.
Proof.
  rewrite existsb_exists. split.
  - intros (y & Hin & Heq). exists y. split; [now apply list_elem_of_In|].
    apply Qeq_bool_iff in Heq. now symmetry.
  - intros (y & Hin & Heq). exists y. split; [now apply list_elem_of_In|].
    apply Qeq_bool_iff. now symmetry.
Qed.

(** X30. [toggleVolume] keeps the selected volumes distinct and in descending
    order.  On a selection that is strictly descending, toggling a volume
    that is selected removes it and leaves the others in place; toggling one
    that is not selected puts it in at its place in the order; the selection
    is strictly descending again in both cases; every other volume is
    selected after the call exactly when it was before; and toggling a
    volume that was not selected twice gives back the selection. *)
Theorem X30_toggleVolume_keeps_selection_descending :
  forall (volume : Q) (prev : list Q),
    StronglySorted (fun a b => (b < a)%Q) prev ->
    let next := AutoTest.toggleVolume volume prev in
    StronglySorted (fun a b => (b < a)%Q) next
    /\ ((exists y, y ∈ next /\ (y == volume)%Q)
        <-> ~ (exists y, y ∈ prev /\ (y == volume)%Q))
    /\ (forall x, ~ (x == volume)%Q -> (x ∈ next <-> x ∈ prev))
    /\ (~ (exists y, y ∈ prev /\ (y == volume)%Q) ->
        AutoTest.toggleVolume volume next = prev).
Proof.
  intros volume prev Hsorted next. subst next. unfold AutoTest.toggleVolume.
  destruct (existsb (Qeq_bool volume) prev) eqn:Hin.
  - pose proof (proj1 (existsb_Qeq volume prev) Hin) as Hselected.
    split; [now apply filter_StronglySorted|]. split; [|split].
    + split; [|tauto]. intros (y & Hy & Heq). exfalso.
      apply list_elem_of_In, filter_In in Hy as [_ Hy].
      apply negb_true_iff in Hy.
      assert (Qeq_bool y volume = true) by now apply Qeq_bool_iff.
      congruence.
    + intros x Hx. rewrite !list_elem_of_In, filter_In. split; [tauto|].
      intros Hp. split; [exact Hp|]. apply negb_true_iff.
      destruct (Qeq_bool x volume) eqn:Heq; [|reflexivity].
      apply Qeq_bool_iff in Heq. contradiction.
    + intros Hout. contradiction.
  - assert (Hfresh : Forall (fun y => ~ (y == volume)%Q) prev).
    { apply Forall_forall. intros y Hy Heq.
      assert (existsb (Qeq_bool volume) prev = true)
        by (apply existsb_Qeq; eauto).
      congruence. }
    assert (Hnext : js_sort (fun a b => (b - a)%Q) (prev ++ [volume])
                    ≡ₚ prev ++ [volume]) by apply js_sort_Permutation.
    split; [now apply toggle_add_descending|]. split; [|split].
    + split.
      * intros _ (y & Hy & Heq). rewrite Forall_forall in Hfresh.
        now apply (Hfresh y).
      * intros _. exists volume. split; [|reflexivity].
        rewrite Hnext. apply elem_of_app. right. now left.
    + intros x Hx. rewrite Hnext, elem_of_app, list_elem_of_singleton. split.
      * intros [Hp | ->]; [exact Hp|]. exfalso. now apply Hx.
      * auto.
    + intros _.
      assert (Hthere : existsb (Qeq_bool volume)
                         (js_sort (fun a b => (b - a)%Q) (prev ++ [volume])) = true).
      { apply existsb_Qeq. exists volume. split; [|reflexivity].
        rewrite Hnext. apply elem_of_app. right. now left. }
      rewrite Hthere. clear Hthere Hnext Hin.
      induction Hsorted as [|y prev Hsorted IH Hall]; simpl.
      * now rewrite Qeq_bool_refl.
      * apply Forall_cons in Hfresh as [Hy Hfresh]. specialize (IH Hfresh).
        set (sorted := js_sort (fun a b => (b - a)%Q) (prev ++ [volume])) in *.
        assert (Hsorted' : StronglySorted (fun a b => (b < a)%Q) sorted)
          by now apply toggle_add_descending.
        assert (Hbelow : Forall (fun z => (z < y)%Q \/ (z == volume)%Q) sorted).
        { unfold sorted. rewrite js_sort_Permutation. apply Forall_app. split.
          - eapply Forall_impl; [exact Hall|]. intros z Hz. now left.
          - constructor; [right; reflexivity | constructor]. }
        clearbody sorted. clear Hall Hsorted Hfresh.
        revert IH Hbelow. induction Hsorted' as [|z sorted _ IH' Hall']; intros IH Hbelow.
        -- simpl in *. subst prev. simpl.
           destruct (Qeq_bool y volume) eqn:Heq; [|reflexivity].
           apply Qeq_bool_iff in Heq. contradiction.
        -- apply Forall_cons in Hbelow as [Hz Hbelow]. simpl.
           destruct (Qle_bool (z - y) 0) eqn:Hcmp.
           ++ simpl. destruct (Qeq_bool y volume) eqn:Heq.
              { apply Qeq_bool_iff in Heq. contradiction. }
              simpl. simpl in IH. now rewrite IH.
           ++ assert (Hgt : (y < z)%Q).
              { apply Qnot_le_lt. intros Hle.
                assert (Qle_bool (z - y) 0 = true) by (apply Qle_bool_iff; lra).
                congruence. }
              destruct Hz as [Hz | Hz]; [lra|].
              simpl. simpl in IH.
              assert (Qeq_bool z volume = true) as Hzv by now apply Qeq_bool_iff.
              rewrite Hzv in *. simpl in *.
              apply IH'; [exact IH|exact Hbelow].
Qed.

Lemma X30_toggleVolume_keeps_selection_descending_witness :
  AutoTest.toggleVolume 0.5%Q (AutoTest.toggleVolume 0.5%Q [1%Q; 0.75%Q])
  = [1%Q; 0.75%Q].
Proof.
  refine (proj2 (proj2 (proj2
            (X30_toggleVolume_keeps_selection_descending 0.5%Q [1%Q; 0.75%Q] _))) _).
  - repeat constructor.
  - intros (y & Hy & Heq).
    apply elem_of_cons in Hy as [-> | Hy]; [discriminate|].
    apply list_elem_of_singleton in Hy. subst y. discriminate.
Defined.
